(** * Barnes-Hut quadtree and simulation loop of [main.cc]

    The program computes in C++ [float].  The embedding is parametric in
    the scalar arithmetic (class [Scalar]): every function of namespace
    [bh] is written once, over the operations the source applies, in the
    order the source applies them.  The arithmetic of the compiled program
    is [binary32]: IEEE-754 single precision, round to nearest even, built
    on the standard library's [SpecFloat] with [prec = 24] and
    [emax = 128]; it computes inside Rocq.  What is proved for every
    [Scalar] holds for it; what depends on rounding, overflow, underflow
    or NaN is proved for it directly.

    Recursion that the source does not bound ([quad_node_insert]) takes a
    fuel argument counting nested calls.  Dereferencing a null child is a
    [Fault]. *)

From Stdlib Require Import ZArith List Bool Lia PeanoNat.
From Stdlib Require Import Floats.SpecFloat.
Import ListNotations.

Set Implicit Arguments.

(** ** Scalars *)

(** The operations [main.cc] applies to [float] values.  [of_Z] converts
    an integer constant ([0], [2], [QT_SIZE * 2], ...). *)
Class Scalar (F : Type) : Type := {
  of_Z : Z -> F;
  fadd : F -> F -> F;
  fsub : F -> F -> F;
  fmul : F -> F -> F;
  fdiv : F -> F -> F;
  fsqrt : F -> F;
  feqb : F -> F -> bool;
  fltb : F -> F -> bool;
  fleb : F -> F -> bool
}.

(** ** Outcomes of calls *)

(** [Done a]: the call returned [a].  [Diverge]: the fuel ran out, the
    call nests deeper than the bound.  [Fault]: a null child pointer was
    dereferenced. *)
Inductive outcome (A : Type) : Type :=
| Done (a : A)
| Diverge
| Fault.

Arguments Done {A} a.
Arguments Diverge {A}.
Arguments Fault {A}.

Definition bind {A B : Type} (m : outcome A) (k : A -> outcome B) : outcome B :=
  match m with
  | Done a => k a
  | Diverge => Diverge
  | Fault => Fault
  end.

Definition obind {A B : Type} (m : option A) (k : A -> option B) : option B :=
  match m with
  | Some a => k a
  | None => None
  end.

Definition lift {A : Type} (m : option A) : outcome A :=
  match m with
  | Some a => Done a
  | None => Fault
  end.

Declare Scope outcome_scope.
Delimit Scope outcome_scope with outcome.
Notation "x <- m ;; k" := (bind m (fun x => k))
  (at level 61, m at next level, right associativity) : outcome_scope.

Declare Scope opt_scope.
Delimit Scope opt_scope with opt.
Notation "x <- m ;; k" := (obind m (fun x => k))
  (at level 61, m at next level, right associativity) : opt_scope.

Section BarnesHut.

Context {F : Type} {SF : Scalar F}.

Definition fzero : F := of_Z 0.
Definition ftwo : F := of_Z 2.

(** [a > b] and [a >= b] are [b < a] and [b <= a]. *)
Definition fgtb (a b : F) : bool := fltb b a.
Definition fgeb (a b : F) : bool := fleb b a.

(** [std::min (a, b)] is [(b < a) ? b : a]; [std::max (a, b)] is
    [(a < b) ? b : a]. *)
Definition fmin (a b : F) : F := if fltb b a then b else a.
Definition fmax (a b : F) : F := if fltb a b then b else a.

(** ** SFML value types *)

(** [sf::Vector2f], fields [x] and [y]. *)
Record Vector2f : Type := mkVector2f { vec_x : F; vec_y : F }.

Definition vec_add (a b : Vector2f) : Vector2f :=
  mkVector2f (fadd (vec_x a) (vec_x b)) (fadd (vec_y a) (vec_y b)).

Definition vec_sub (a b : Vector2f) : Vector2f :=
  mkVector2f (fsub (vec_x a) (vec_x b)) (fsub (vec_y a) (vec_y b)).

Definition vec_scale (a : Vector2f) (k : F) : Vector2f :=
  mkVector2f (fmul (vec_x a) k) (fmul (vec_y a) k).

Definition vec_div (a : Vector2f) (k : F) : Vector2f :=
  mkVector2f (fdiv (vec_x a) k) (fdiv (vec_y a) k).

Definition vec_eqb (a b : Vector2f) : bool :=
  feqb (vec_x a) (vec_x b) && feqb (vec_y a) (vec_y b).

Definition vec_zero : Vector2f := mkVector2f fzero fzero.

(** [sf::FloatRect], fields [left], [top], [width], [height]. *)
Record FloatRect : Type := mkFloatRect {
  rect_left : F;
  rect_top : F;
  rect_width : F;
  rect_height : F
}.

(** [sf::Rect<T>::contains] of SFML 2: rectangles of negative size are
    allowed, so the real minimum and maximum are taken on both axes, and
    the test is [x >= minX && x < maxX && y >= minY && y < maxY]. *)
Definition rect_contains (r : FloatRect) (p : Vector2f) : bool :=
  let minX := fmin (rect_left r) (fadd (rect_left r) (rect_width r)) in
  let maxX := fmax (rect_left r) (fadd (rect_left r) (rect_width r)) in
  let minY := fmin (rect_top r) (fadd (rect_top r) (rect_height r)) in
  let maxY := fmax (rect_top r) (fadd (rect_top r) (rect_height r)) in
  fgeb (vec_x p) minX && fltb (vec_x p) maxX
  && fgeb (vec_y p) minY && fltb (vec_y p) maxY.

(** ** Bodies and tree nodes *)

(** [bh::point_t]. *)
Record point_t : Type := mk_point {
  mass : F;
  position : Vector2f;
  velocity : Vector2f
}.

Definition point_init (m : F) (pos vel : Vector2f) : point_t :=
  mk_point m pos vel.

(** [bh::quad_node_t].  The four entries of [children] are separate
    pointers, each null or not. *)
#[local] Unset Elimination Schemes.
Inductive quad_node_t : Type :=
| QuadNode (tm : F) (com : Vector2f) (b : FloatRect) (pt : option point_t)
           (c0 c1 c2 c3 : option quad_node_t).
#[local] Set Elimination Schemes.

Definition total_mass (n : quad_node_t) : F :=
  match n with QuadNode tm _ _ _ _ _ _ _ => tm end.
Definition center_of_mass (n : quad_node_t) : Vector2f :=
  match n with QuadNode _ com _ _ _ _ _ _ => com end.
Definition boundary (n : quad_node_t) : FloatRect :=
  match n with QuadNode _ _ b _ _ _ _ _ => b end.
Definition point (n : quad_node_t) : option point_t :=
  match n with QuadNode _ _ _ pt _ _ _ _ => pt end.
Definition children (n : quad_node_t) : list (option quad_node_t) :=
  match n with QuadNode _ _ _ _ c0 c1 c2 c3 => [c0; c1; c2; c3] end.

Definition set_point (n : quad_node_t) (pt : option point_t) : quad_node_t :=
  match n with QuadNode tm com b _ c0 c1 c2 c3 => QuadNode tm com b pt c0 c1 c2 c3 end.

(** [quad_node_init]: a value-initialised node with the given boundary. *)
Definition quad_node_init (b : FloatRect) : quad_node_t :=
  QuadNode fzero vec_zero b None None None None None.

Definition is_null (c : option quad_node_t) : bool :=
  match c with None => true | Some _ => false end.

(** [std::all_of] over the four children, testing [child == NULL]. *)
Definition quad_node_is_leaf (n : quad_node_t) : bool :=
  forallb is_null (children n).

(** The four rectangles of [quad_node_subdivide], in the order of the
    array [quadrants]. *)
Definition quadrants (b : FloatRect) : list FloatRect :=
  let cx := fadd (rect_left b) (fdiv (rect_width b) ftwo) in
  let cy := fadd (rect_top b) (fdiv (rect_height b) ftwo) in
  let hw := fdiv (rect_width b) ftwo in
  let hh := fdiv (rect_height b) ftwo in
  [ mkFloatRect (rect_left b) (rect_top b) hw hh;
    mkFloatRect cx (rect_top b) hw hh;
    mkFloatRect (rect_left b) cy hw hh;
    mkFloatRect cx cy hw hh ].

Definition quadrant (b : FloatRect) (i : nat) : FloatRect :=
  nth i (quadrants b) b.

(** [quad_node_subdivide]: every child pointer is overwritten with a
    fresh node on quadrant [index % 4], [index] counting from 0. *)
Definition quad_node_subdivide (n : quad_node_t) : quad_node_t :=
  match n with
  | QuadNode tm com b pt _ _ _ _ =>
      QuadNode tm com b pt
        (Some (quad_node_init (quadrant b (0 mod 4))))
        (Some (quad_node_init (quadrant b (1 mod 4))))
        (Some (quad_node_init (quadrant b (2 mod 4))))
        (Some (quad_node_init (quadrant b (3 mod 4))))
  end.

(** [for (auto child : node->children) f (child)], where [f] updates the
    node its argument points to.  A null child faults at the
    dereference inside [f]. *)
Definition on_child (f : quad_node_t -> outcome quad_node_t)
  (c : option quad_node_t) : outcome (option quad_node_t) :=
  match c with
  | None => Fault
  | Some n => (n' <- f n ;; Done (Some n'))%outcome
  end.

Definition for_children (f : quad_node_t -> outcome quad_node_t)
  (n : quad_node_t) : outcome quad_node_t :=
  match n with
  | QuadNode tm com b pt c0 c1 c2 c3 =>
      (c0' <- on_child f c0 ;;
       c1' <- on_child f c1 ;;
       c2' <- on_child f c2 ;;
       c3' <- on_child f c3 ;;
       Done (QuadNode tm com b pt c0' c1' c2' c3'))%outcome
  end.

(** [quad_node_insert].  [fuel] bounds the nesting of calls. *)
Fixpoint quad_node_insert (fuel : nat) (node : quad_node_t) (p : point_t)
  : outcome quad_node_t :=
  match fuel with
  | O => Diverge
  | S fuel' =>
      if negb (rect_contains (boundary node) (position p)) then Done node
      else if quad_node_is_leaf node then
        match point node with
        | None => Done (set_point node (Some p))
        | Some save =>
            let node1 := set_point (quad_node_subdivide node) None in
            (node2 <- for_children (fun c => quad_node_insert fuel' c save) node1 ;;
             for_children (fun c => quad_node_insert fuel' c p) node2)%outcome
        end
      else for_children (fun c => quad_node_insert fuel' c p) node
  end.

(** The loop of [sim_thread] that inserts every body, in order. *)
Fixpoint insert_all (fuel : nat) (root : quad_node_t) (ps : list point_t)
  : outcome quad_node_t :=
  match ps with
  | [] => Done root
  | p :: ps' =>
      (root' <- quad_node_insert fuel root p ;; insert_all fuel root' ps')%outcome
  end.

(** One round of the loop of [quad_node_compute_mass]: the child has been
    aggregated, its mass and weighted centre are added to the running
    values of the parent. *)
Definition accumulate (acc : F * Vector2f) (child : quad_node_t) : F * Vector2f :=
  (fadd (fst acc) (total_mass child),
   vec_add (snd acc) (vec_scale (center_of_mass child) (total_mass child))).

(** [quad_node_compute_mass].  [None] is a null child dereferenced. *)
Fixpoint quad_node_compute_mass (node : quad_node_t) : option quad_node_t :=
  match node with
  | QuadNode tm com b pt c0 c1 c2 c3 =>
      if forallb is_null [c0; c1; c2; c3] then
        match pt with
        | Some p => Some (QuadNode (mass p) (position p) b pt c0 c1 c2 c3)
        | None => Some node
        end
      else
        let visit c :=
          match c with
          | None => None
          | Some n => quad_node_compute_mass n
          end in
        (n0 <- visit c0 ;;
         let acc0 := accumulate (fzero, vec_zero) n0 in
         n1 <- visit c1 ;;
         let acc1 := accumulate acc0 n1 in
         n2 <- visit c2 ;;
         let acc2 := accumulate acc1 n2 in
         n3 <- visit c3 ;;
         let acc3 := accumulate acc2 n3 in
         let com' := if fgtb (fst acc3) fzero
                     then vec_div (snd acc3) (fst acc3) else snd acc3 in
         Some (QuadNode (fst acc3) com' b pt (Some n0) (Some n1) (Some n2) (Some n3)))%opt
  end.

End BarnesHut.

Arguments Vector2f F : clear implicits.
Arguments FloatRect F : clear implicits.
Arguments point_t F : clear implicits.
Arguments quad_node_t F : clear implicits.

Section Force.

Context {F : Type} {SF : Scalar F}.

(** The four process-wide constants of namespace [bh]. *)
Record globals : Type := mk_globals {
  THETA : F;
  GRAVITY_CONSTANT : F;
  TIME_STEP : F;
  SOFTENING : F
}.

(** The locals of [quad_node_compute_force], as functions of the node
    and the body. *)
Definition force_direction (node : quad_node_t F) (p : point_t F) : Vector2f F :=
  vec_sub (center_of_mass node) (position p).

Definition force_distance (g : globals) (node : quad_node_t F) (p : point_t F) : F :=
  let direction := force_direction node p in
  fsqrt (fadd (fadd (fmul (vec_x direction) (vec_x direction))
                    (fmul (vec_y direction) (vec_y direction)))
              (fmul (SOFTENING g) (SOFTENING g))).

Definition force_ratio (g : globals) (node : quad_node_t F) (p : point_t F) : F :=
  fdiv (rect_width (boundary node)) (force_distance g node p).

(** The divisor of [force]. *)
Definition force_denominator (g : globals) (node : quad_node_t F) (p : point_t F) : F :=
  let distance := force_distance g node p in
  fadd (fmul distance distance) (fmul (SOFTENING g) (SOFTENING g)).

(** The first branch of the conditional: the node is taken as one point
    mass and the velocity of the body is advanced. *)
Definition apply_force (g : globals) (node : quad_node_t F) (p : point_t F) : point_t F :=
  let direction := force_direction node p in
  let distance := force_distance g node p in
  let force :=
    fdiv (fmul (fmul (GRAVITY_CONSTANT g) (total_mass node)) (mass p))
         (force_denominator g node p) in
  let acceleration :=
    vec_div (vec_scale (vec_div direction distance) force) (mass p) in
  mk_point (mass p) (position p)
           (vec_add (velocity p) (vec_scale acceleration (TIME_STEP g))).

(** The test [node.total_mass == 0 || point->position == node.center_of_mass]. *)
Definition force_skipped (node : quad_node_t F) (p : point_t F) : bool :=
  feqb (total_mass node) fzero || vec_eqb (position p) (center_of_mass node).

(** The test [quad_node_is_leaf (node) || ratio < THETA]. *)
Definition force_accepted (g : globals) (node : quad_node_t F) (p : point_t F) : bool :=
  quad_node_is_leaf node || fltb (force_ratio g node p) (THETA g).

(** [quad_node_compute_force].  [None] is a null child dereferenced. *)
Fixpoint quad_node_compute_force (g : globals) (node : quad_node_t F) (p : point_t F)
  : option (point_t F) :=
  match node with
  | QuadNode _ _ _ _ c0 c1 c2 c3 =>
      if force_skipped node p then Some p
      else if force_accepted g node p then Some (apply_force g node p)
      else
        let visit c q :=
          match c with
          | None => None
          | Some n => quad_node_compute_force g n q
          end in
        (p0 <- visit c0 p ;;
         p1 <- visit c1 p0 ;;
         p2 <- visit c2 p1 ;;
         visit c3 p2)%opt
  end.

(** The same traversal, also recording every node the function is
    called on.  A node is named by the child indices leading to it from
    the root, innermost first. *)
Fixpoint quad_node_compute_force_log (g : globals) (node : quad_node_t F)
  (here : list nat) (p : point_t F) : option (point_t F * list (list nat)) :=
  match node with
  | QuadNode _ _ _ _ c0 c1 c2 c3 =>
      if force_skipped node p then Some (p, [here])
      else if force_accepted g node p then Some (apply_force g node p, [here])
      else
        let visit i c q :=
          match c with
          | None => None
          | Some n => quad_node_compute_force_log g n (i :: here) q
          end in
        (r0 <- visit 0%nat c0 p ;;
         r1 <- visit 1%nat c1 (fst r0) ;;
         r2 <- visit 2%nat c2 (fst r1) ;;
         r3 <- visit 3%nat c3 (fst r2) ;;
         Some (fst r3, here :: snd r0 ++ snd r1 ++ snd r2 ++ snd r3))%opt
  end.

Definition visited (g : globals) (root : quad_node_t F) (p : point_t F)
  : option (list (list nat)) :=
  option_map snd (quad_node_compute_force_log g root [] p).

End Force.

Arguments globals F : clear implicits.

(** ** The simulation thread and its consumer *)

Section Simulation.

Context {F : Type} {SF : Scalar F}.

(** [QT_SIZE]. *)
Definition QT_SIZE : Z := 160000.

(** The rectangle [{ -QT_SIZE, -QT_SIZE, QT_SIZE * 2, QT_SIZE * 2 }]. *)
Definition root_boundary : FloatRect F :=
  mkFloatRect (of_Z (- QT_SIZE)) (of_Z (- QT_SIZE))
              (of_Z (QT_SIZE * 2)) (of_Z (QT_SIZE * 2)).

(** The values [main] stores into the four constants: [0.5f], [1.0f],
    [1.0f], [1.0f].  One half is a power of two, so the division below is
    exact in every binary format. *)
Definition main_globals : globals F :=
  mk_globals (fdiv (of_Z 1) (of_Z 2)) (of_Z 1) (of_Z 1) (of_Z 1).

(** [std::chrono::duration<float> (d).count ()] for a difference [d] of
    two readings of [steady_clock], which counts nanoseconds. *)
Definition duration_seconds (d : Z) : F :=
  fdiv (of_Z d) (of_Z 1000000000).

(** The variables the simulation thread and the consumer both touch and
    that are not atomics. *)
Record shared_state : Type := mk_shared {
  points_previous : list (point_t F);
  points_current : list (point_t F);
  last_sim_update : Z;
  sim_update_interval : F
}.

Inductive shared_var : Type :=
| var_points_previous
| var_points_current
| var_last_sim_update
| var_sim_update_interval.

Inductive access : Type :=
| Read (v : shared_var)
| Write (v : shared_var).

(** One access, and whether the thread performing it held
    [points_mutex] at that moment. *)
Record event : Type := mk_event { ev_access : access; ev_locked : bool }.

(** What one thread sees while it runs: the shared variables, the two
    atomic flags, whether it holds [points_mutex], and the accesses it
    has made so far (latest first). *)
Record thread_view : Type := mk_view {
  shared : shared_state;
  update_done : bool;
  do_update : bool;
  holds_lock : bool;
  trace : list event
}.

Definition M (A : Type) : Type := thread_view -> outcome (A * thread_view).

Definition ret {A : Type} (a : A) : M A := fun v => Done (a, v).

Definition mbind {A B : Type} (m : M A) (k : A -> M B) : M B :=
  fun v => match m v with
           | Done (a, v') => k a v'
           | Diverge => Diverge
           | Fault => Fault
           end.

Definition lift_outcome {A : Type} (o : outcome A) : M A :=
  fun v => match o with
           | Done a => Done (a, v)
           | Diverge => Diverge
           | Fault => Fault
           end.

Definition log (a : access) : M unit :=
  fun v => Done (tt, mk_view (shared v) (update_done v) (do_update v) (holds_lock v)
                             (mk_event a (holds_lock v) :: trace v)).

Definition set_lock (h : bool) : M unit :=
  fun v => Done (tt, mk_view (shared v) (update_done v) (do_update v) h (trace v)).

Definition get_shared : M shared_state := fun v => Done (shared v, v).

Definition put_shared (s : shared_state) : M unit :=
  fun v => Done (tt, mk_view s (update_done v) (do_update v) (holds_lock v) (trace v)).

End Simulation.

Declare Scope thread_scope.
Delimit Scope thread_scope with thread.
Notation "x <- m ;; k" := (mbind m (fun x => k))
  (at level 61, m at next level, right associativity) : thread_scope.
Notation "m ;;; k" := (mbind m (fun _ => k))
  (at level 61, right associativity) : thread_scope.

Section Threads.

Context {F : Type} {SF : Scalar F}.

Local Open Scope thread_scope.

(** A block [{ std::lock_guard<std::mutex> lock (points_mutex); ... }]. *)
Definition lock_guard {A : Type} (body : M (F:=F) A) : M (F:=F) A :=
  set_lock true ;;; a <- body ;; set_lock false ;;; ret a.

Definition read_points_previous : M (list (point_t F)) :=
  log (Read var_points_previous) ;;; s <- get_shared ;; ret (points_previous s).

Definition read_points_current : M (list (point_t F)) :=
  log (Read var_points_current) ;;; s <- get_shared ;; ret (points_current s).

Definition read_last_sim_update : M (F:=F) Z :=
  log (Read var_last_sim_update) ;;; s <- get_shared ;; ret (last_sim_update s).

Definition read_sim_update_interval : M F :=
  log (Read var_sim_update_interval) ;;; s <- get_shared ;; ret (sim_update_interval s).

Definition write_points_previous (ps : list (point_t F)) : M unit :=
  log (Write var_points_previous) ;;; s <- get_shared ;;
  put_shared (mk_shared ps (points_current s) (last_sim_update s) (sim_update_interval s)).

Definition write_points_current (ps : list (point_t F)) : M unit :=
  log (Write var_points_current) ;;; s <- get_shared ;;
  put_shared (mk_shared (points_previous s) ps (last_sim_update s) (sim_update_interval s)).

Definition write_last_sim_update (t : Z) : M (F:=F) unit :=
  log (Write var_last_sim_update) ;;; s <- get_shared ;;
  put_shared (mk_shared (points_previous s) (points_current s) t (sim_update_interval s)).

Definition write_sim_update_interval (d : F) : M unit :=
  log (Write var_sim_update_interval) ;;; s <- get_shared ;;
  put_shared (mk_shared (points_previous s) (points_current s) (last_sim_update s) d).

Definition store_update_done (b : bool) : M (F:=F) unit :=
  fun v => Done (tt, mk_view (shared v) b (do_update v) (holds_lock v) (trace v)).

Definition store_do_update (b : bool) : M (F:=F) unit :=
  fun v => Done (tt, mk_view (shared v) (update_done v) b (holds_lock v) (trace v)).

Definition load_update_done : M (F:=F) bool := fun v => Done (update_done v, v).

(** The body of the [omp parallel for]: the force traversal for one
    body, then [position += velocity * TIME_STEP].  Iterations touch
    disjoint elements and only read the tree. *)
Definition advance_body (g : globals F) (root : quad_node_t F) (p : point_t F)
  : option (point_t F) :=
  (p' <- quad_node_compute_force g root p ;;
   Some (mk_point (mass p')
                  (vec_add (position p') (vec_scale (velocity p') (TIME_STEP g)))
                  (velocity p')))%opt.

Fixpoint advance_all (g : globals F) (root : quad_node_t F) (ps : list (point_t F))
  : option (list (point_t F)) :=
  match ps with
  | [] => Some []
  | p :: ps' =>
      (p' <- advance_body g root p ;;
       ps'' <- advance_all g root ps' ;;
       Some (p' :: ps''))%opt
  end.

(** Lines 263 to 277: the tree is built from the working copy,
    aggregated, used for every body and freed. *)
Definition compute_step (fuel : nat) (g : globals F) (local_points : list (point_t F))
  : outcome (list (point_t F)) :=
  (root <- insert_all fuel (quad_node_init root_boundary) local_points ;;
   root' <- lift (quad_node_compute_mass root) ;;
   lift (advance_all g root' local_points))%outcome.

(** One round of the outer loop of [sim_thread], from line 256 on, once
    [do_update] has been seen set.  [now] is the reading of the clock at
    line 279; [prev_sim_time] is private to the thread and is returned
    updated. *)
Definition sim_thread_step (fuel : nat) (g : globals F) (now prev_sim_time : Z)
  : M (F:=F) Z :=
  local_points <- lock_guard read_points_current ;;
  local_points <- lift_outcome (compute_step fuel g local_points) ;;
  let delta := duration_seconds (now - prev_sim_time) in
  lock_guard (
    (* std::swap (points_previous, points_current) *)
    a <- read_points_previous ;;
    b <- read_points_current ;;
    write_points_previous b ;;;
    write_points_current a ;;;
    (* std::swap (points_current, local_points) *)
    c <- read_points_current ;;
    write_points_current local_points ;;;
    write_last_sim_update now ;;;
    write_sim_update_interval delta ;;;
    ret c) ;;;
  store_update_done true ;;;
  ret now.

(** Rounds of the loop, one per clock reading. *)
Fixpoint sim_thread_steps (fuel : nat) (g : globals F) (nows : list Z) (prev_sim_time : Z)
  : M (F:=F) Z :=
  match nows with
  | [] => ret prev_sim_time
  | now :: rest =>
      t <- sim_thread_step fuel g now prev_sim_time ;;
      sim_thread_steps fuel g rest t
  end.

(** What the consumer keeps between frames. *)
Record render_state : Type := mk_render {
  render_previous : list (point_t F);
  render_current : list (point_t F)
}.

(** The part of one frame of the window loop that touches the shared
    variables: lines 359 to 377, then lines 381 to 384.  The result is
    the render copies and the operands of [alpha], when it is computed. *)
Definition consumer_frame (do_interpolate : bool) (now : Z) (r : render_state)
  : M (F:=F) (render_state * option (F * F)) :=
  done <- load_update_done ;;
  r' <- (if done then
           store_do_update false ;;;
           rp <- read_points_previous ;;
           rc <- read_points_current ;;
           store_update_done false ;;;
           store_do_update true ;;;
           ret (mk_render rp rc)
         else ret r) ;;
  last <- read_last_sim_update ;;
  let elapsed := duration_seconds (now - last) in
  if do_interpolate then
    interval <- read_sim_update_interval ;;
    ret (r', Some (elapsed, interval))
  else ret (r', None).

(** Every access a thread made was made with the lock held. *)
Definition lock_disciplined (t : list event) : bool :=
  forallb ev_locked t.

End Threads.

(** ** The arithmetic of the program *)

(** IEEE-754 single precision. *)
Definition binary32 : Type := spec_float.

#[export] Instance binary32_scalar : Scalar binary32 := {|
  of_Z := fun z => binary_normalize 24 128 z 0 false;
  fadd := SFadd 24 128;
  fsub := SFsub 24 128;
  fmul := SFmul 24 128;
  fdiv := SFdiv 24 128;
  fsqrt := SFsqrt 24 128;
  feqb := SFeqb;
  fltb := SFltb;
  fleb := SFleb
|}.


(** ** What one frame draws *)

Section Render.

Context {F : Type} {SF : Scalar F}.

(** [std::clamp (v, lo, hi)], which is [std::min (std::max (v, lo), hi)]:
    [lo] when [v < lo], else [hi] when [hi < v], else [v]. *)
Definition clamp (v lo hi : F) : F := fmin (fmax v lo) hi.

(** Lines 379 to 384: [alpha] stays [0.f] unless [do_interpolate] is set. *)
Definition frame_alpha (do_interpolate : bool) (elapsed interval : F) : F :=
  if do_interpolate then clamp (fdiv elapsed interval) fzero (of_Z 1) else fzero.

(** Line 393: [prev + (curr - prev) * alpha]. *)
Definition interp_pos (prev curr : Vector2f F) (alpha : F) : Vector2f F :=
  vec_add prev (vec_scale (vec_sub curr prev) alpha).

(** Lines 388 to 402: one vertex for every index of [render_current],
    reading [render_previous] at the same index.  [None] is an index
    past the end of [render_previous]. *)
Fixpoint frame_positions (previous current : list (point_t F)) (alpha : F)
  {struct current} : option (list (Vector2f F)) :=
  match current with
  | [] => Some []
  | c :: current' =>
      match previous with
      | [] => None
      | p :: previous' =>
          (rest <- frame_positions previous' current' alpha ;;
           Some (interp_pos (position p) (position c) alpha :: rest))%opt
      end
  end.

End Render.
(** ** Shape of trees *)

Section Shape.

Context {F : Type} {SF : Scalar F}.

(** Structural induction on trees, through the child pointers. *)
Definition child_holds (P : quad_node_t F -> Prop) (c : option (quad_node_t F)) : Prop :=
  match c with
  | None => True
  | Some n => P n
  end.

Fixpoint quad_node_t_ind (P : quad_node_t F -> Prop)
  (step : forall tm com b pt c0 c1 c2 c3,
      child_holds P c0 -> child_holds P c1 -> child_holds P c2 -> child_holds P c3 ->
      P (QuadNode tm com b pt c0 c1 c2 c3))
  (n : quad_node_t F) : P n :=
  match n with
  | QuadNode tm com b pt c0 c1 c2 c3 =>
      let sub c : child_holds P c :=
        match c with
        | None => I
        | Some m => quad_node_t_ind P step m
        end in
      step tm com b pt c0 c1 c2 c3 (sub c0) (sub c1) (sub c2) (sub c3)
  end.

(** The node itself and every node below it. *)
Fixpoint nodes (n : quad_node_t F) : list (quad_node_t F) :=
  match n with
  | QuadNode _ _ _ _ c0 c1 c2 c3 =>
      let below c :=
        match c with
        | None => []
        | Some m => nodes m
        end in
      n :: below c0 ++ below c1 ++ below c2 ++ below c3
  end.

(** The content of [std::optional<bh::point_t> point]. *)
Definition occupants (n : quad_node_t F) : list (point_t F) :=
  match point n with
  | Some p => [p]
  | None => []
  end.

Definition all_absent (n : quad_node_t F) : Prop :=
  Forall (fun c => c = None) (children n).

(** All four children are present, child [i] on quadrant [i] of the
    boundary of the parent. *)
Definition all_present (n : quad_node_t F) : Prop :=
  exists n0 n1 n2 n3,
    children n = [Some n0; Some n1; Some n2; Some n3]
    /\ boundary n0 = quadrant (boundary n) 0
    /\ boundary n1 = quadrant (boundary n) 1
    /\ boundary n2 = quadrant (boundary n) 2
    /\ boundary n3 = quadrant (boundary n) 3.

(** What the specification asks of one node. *)
Definition node_invariant (n : quad_node_t F) : Prop :=
  (quad_node_is_leaf n = true <-> all_absent n)
  /\ (all_absent n \/ all_present n)
  /\ (quad_node_is_leaf n = true -> length (occupants n) <= 1)
  /\ (quad_node_is_leaf n = false -> occupants n = []).

(** The same, as a recursive predicate over the whole tree. *)
Fixpoint well_formed (n : quad_node_t F) : Prop :=
  match n with
  | QuadNode _ _ b pt c0 c1 c2 c3 =>
      match c0, c1, c2, c3 with
      | None, None, None, None => True
      | Some n0, Some n1, Some n2, Some n3 =>
          pt = None
          /\ boundary n0 = quadrant b 0 /\ boundary n1 = quadrant b 1
          /\ boundary n2 = quadrant b 2 /\ boundary n3 = quadrant b 3
          /\ well_formed n0 /\ well_formed n1 /\ well_formed n2 /\ well_formed n3
      | _, _, _, _ => False
      end
  end.

(** Every node has all of its children or none: no traversal meets a
    null pointer. *)
Fixpoint complete (n : quad_node_t F) : bool :=
  match n with
  | QuadNode _ _ _ _ c0 c1 c2 c3 =>
      match c0, c1, c2, c3 with
      | None, None, None, None => true
      | Some n0, Some n1, Some n2, Some n3 =>
          complete n0 && complete n1 && complete n2 && complete n3
      | _, _, _, _ => false
      end
  end.

End Shape.

(** ** The force step, as the specification words it *)

Section ForceSpec.

Context {F : Type} {SF : Scalar F}.

Definition spec_square (a : F) : F := fmul a a.

(** "the node's aggregate mass is zero, or the body's position exactly
    equals the node's center of mass". *)
Definition spec_no_contribution (node : quad_node_t F) (body : point_t F) : bool :=
  feqb (total_mass node) fzero
  || (feqb (vec_x (position body)) (vec_x (center_of_mass node))
      && feqb (vec_y (position body)) (vec_y (center_of_mass node))).

(** "distance = sqrt (dx^2 + dy^2 + softening^2)", the displacement
    going from the body to the centre of mass. *)
Definition spec_dx (node : quad_node_t F) (body : point_t F) : F :=
  fsub (vec_x (center_of_mass node)) (vec_x (position body)).

Definition spec_dy (node : quad_node_t F) (body : point_t F) : F :=
  fsub (vec_y (center_of_mass node)) (vec_y (position body)).

Definition spec_distance (g : globals F) (node : quad_node_t F) (body : point_t F) : F :=
  fsqrt (fadd (fadd (spec_square (spec_dx node body)) (spec_square (spec_dy node body)))
              (spec_square (SOFTENING g))).

(** "ratio = node.boundary.width / distance". *)
Definition spec_ratio (g : globals F) (node : quad_node_t F) (body : point_t F) : F :=
  fdiv (rect_width (boundary node)) (spec_distance g node body).

(** "the node is a leaf or ratio < theta". *)
Definition spec_accept (g : globals F) (node : quad_node_t F) (body : point_t F) : bool :=
  match children node with
  | [None; None; None; None] => true
  | _ => fltb (spec_ratio g node body) (THETA g)
  end.

(** "G * node.total_mass * body.mass / (distance^2 + softening^2)". *)
Definition spec_force (g : globals F) (node : quad_node_t F) (body : point_t F) : F :=
  fdiv (fmul (fmul (GRAVITY_CONSTANT g) (total_mass node)) (mass body))
       (fadd (spec_square (spec_distance g node body)) (spec_square (SOFTENING g))).

(** One component of
    "(direction / distance) * force / body.mass * timestep". *)
Definition spec_increment (g : globals F) (node : quad_node_t F) (body : point_t F)
  (d : F) : F :=
  fmul (fdiv (fmul (fdiv d (spec_distance g node body)) (spec_force g node body))
             (mass body))
       (TIME_STEP g).

Definition spec_add_to_velocity (g : globals F) (node : quad_node_t F) (body : point_t F)
  : point_t F :=
  mk_point (mass body) (position body)
    (mkVector2f
       (fadd (vec_x (velocity body)) (spec_increment g node body (spec_dx node body)))
       (fadd (vec_y (velocity body)) (spec_increment g node body (spec_dy node body)))).

(** "it recurses into all four children": the children in order, each
    continuing with the body as the previous one left it. *)
Definition spec_recurse (rec : quad_node_t F -> point_t F -> option (point_t F))
  (node : quad_node_t F) (body : point_t F) : option (point_t F) :=
  fold_left
    (fun acc child =>
       match acc, child with
       | Some q, Some n => rec n q
       | _, _ => None
       end)
    (children node) (Some body).

Definition spec_compute_force (g : globals F)
  (rec : quad_node_t F -> point_t F -> option (point_t F))
  (node : quad_node_t F) (body : point_t F) : option (point_t F) :=
  if spec_no_contribution node body then Some body
  else if spec_accept g node body then Some (spec_add_to_velocity g node body)
  else spec_recurse rec node body.

(** The constants with another opening threshold. *)
Definition set_theta (g : globals F) (theta : F) : globals F :=
  mk_globals theta (GRAVITY_CONSTANT g) (TIME_STEP g) (SOFTENING g).

End ForceSpec.

(** ** Sample data in single precision *)

Definition sample_body (m x y : Z) : point_t binary32 :=
  point_init (of_Z m) (mkVector2f (of_Z x) (of_Z y)) vec_zero.

Definition sample_bodies : list (point_t binary32) :=
  [sample_body 1 (-10) 0; sample_body 1 10 0; sample_body 3 200 300].

Definition sample_root : quad_node_t binary32 := quad_node_init root_boundary.

(** The tree of the three sample bodies, aggregated. *)
Definition sample_tree : option (quad_node_t binary32) :=
  match insert_all 20 sample_root sample_bodies with
  | Done t => quad_node_compute_mass t
  | _ => None
  end.

Definition sample_aggregated : quad_node_t binary32 :=
  match sample_tree with
  | Some t => t
  | None => sample_root
  end.

(** A view of the shared variables as [main] leaves them for the sample
    bodies, for a thread that holds no lock. *)
Definition sample_view : thread_view (F:=binary32) :=
  mk_view (mk_shared sample_bodies sample_bodies 0 fzero) false true false [].

(** ** Depth of subdivision *)

Section Depth.

Context {F : Type} {SF : Scalar F}.

(** The width of a cell [k] subdivisions below a cell of width [w]. *)
Definition halved (k : nat) (w : F) : F :=
  Nat.iter k (fun x => fdiv x ftwo) w.

(** A tree whose root lies [k] subdivisions below a cell of width [w0],
    and in which only cells fewer than [K] subdivisions down have
    children. *)
Fixpoint depth_bounded (K : nat) (w0 : F) (k : nat) (n : quad_node_t F) : Prop :=
  match n with
  | QuadNode _ _ b _ c0 c1 c2 c3 =>
      rect_width b = halved k w0
      /\ match c0, c1, c2, c3 with
         | None, None, None, None => True
         | Some n0, Some n1, Some n2, Some n3 =>
             (k < K)%nat
             /\ depth_bounded K w0 (S k) n0 /\ depth_bounded K w0 (S k) n1
             /\ depth_bounded K w0 (S k) n2 /\ depth_bounded K w0 (S k) n3
         | _, _, _, _ => False
         end
  end.

End Depth.

(** A root of infinite width and height at the origin, and two bodies
    inside it at different places. *)
Definition unbounded_root : FloatRect binary32 :=
  mkFloatRect fzero fzero (S754_infinity false) (S754_infinity false).

Definition body_at_origin : point_t binary32 := sample_body 1 0 0.
Definition body_at_one_one : point_t binary32 := sample_body 1 1 1.

(** ** Values that rounding produces *)

(** A single precision value that is a NaN, a zero, plus infinity, or
    positive with an exponent of at least [emin]: what a square or a sum
    of squares rounds to. *)
Definition rounded_nonneg (x : binary32) : Prop :=
  match x with
  | S754_nan => True
  | S754_zero _ => True
  | S754_infinity s => s = false
  | S754_finite s _ e => s = false /\ (emin 24 128 <= e)%Z
  end.

(** The same without the zeros. *)
Definition rounded_pos (x : binary32) : Prop :=
  match x with
  | S754_nan => True
  | S754_zero _ => False
  | S754_infinity s => s = false
  | S754_finite s _ e => s = false /\ (emin 24 128 <= e)%Z
  end.

(** A softening so small that its square is below the least positive
    single precision value, a node one such length to the right of the
    origin, and a body at the origin. *)
Definition tiny : binary32 := fdiv (of_Z 1) (of_Z (2 ^ 100)).

Definition tiny_globals : globals binary32 :=
  mk_globals (fdiv (of_Z 1) (of_Z 2)) (of_Z 1) (of_Z 1) tiny.

Definition tiny_node : quad_node_t binary32 :=
  QuadNode (of_Z 1) (mkVector2f tiny fzero) root_boundary
           (Some (point_init (of_Z 1) (mkVector2f tiny fzero) vec_zero))
           None None None None.

(** ** What a tree holds *)

Section Stored.

Context {F : Type} {SF : Scalar F}.

(** The bodies kept in the leaves, in the order of the children. *)
Fixpoint stored (n : quad_node_t F) : list (point_t F) :=
  match n with
  | QuadNode _ _ _ pt c0 c1 c2 c3 =>
      let below c :=
        match c with
        | None => []
        | Some m => stored m
        end in
      occupants n ++ below c0 ++ below c1 ++ below c2 ++ below c3
  end.

(** The masses of the stored bodies, added the way
    [quad_node_compute_mass] adds them. *)
Fixpoint stored_mass (n : quad_node_t F) : F :=
  match n with
  | QuadNode _ _ _ pt c0 c1 c2 c3 =>
      match c0, c1, c2, c3 with
      | Some n0, Some n1, Some n2, Some n3 =>
          fadd (fadd (fadd (fadd fzero (stored_mass n0)) (stored_mass n1))
                     (stored_mass n2))
               (stored_mass n3)
      | _, _, _, _ =>
          match pt with
          | Some q => mass q
          | None => fzero
          end
      end
  end.

Fixpoint height (n : quad_node_t F) : nat :=
  match n with
  | QuadNode _ _ _ _ c0 c1 c2 c3 =>
      match c0, c1, c2, c3 with
      | Some n0, Some n1, Some n2, Some n3 =>
          S (Nat.max (Nat.max (height n0) (height n1))
                     (Nat.max (height n2) (height n3)))
      | _, _, _, _ => O
      end
  end.

(** The bodies of a list that lie inside a rectangle, and the sum of
    their masses. *)
Definition inside (b : FloatRect F) (bodies : list (point_t F)) : list (point_t F) :=
  filter (fun p => rect_contains b (position p)) bodies.

Definition sum_of_masses (bodies : list (point_t F)) : F :=
  fold_right (fun p acc => fadd (mass p) acc) fzero bodies.

End Stored.

(** ** Sample data for the conservation of mass *)

(** In single precision: two bodies at one place, and three bodies at
    distinct places, one of mass 2^24 and two of mass 1, that fall into
    three different quadrants of the root. *)
Definition coincident_bodies : list (point_t binary32) :=
  [body_at_origin; body_at_origin].

Definition uneven_bodies : list (point_t binary32) :=
  [sample_body 16777216 (-10) (-10); sample_body 1 10 (-10); sample_body 1 (-10) 10].

(** Two bodies of mass 1 at distinct places inside the root of
    [sim_thread], 4 apart, that share cells down to one of width
    320000 / 2^16. *)
Definition edge_bodies : list (point_t binary32) :=
  [sample_body 1 65708 0; sample_body 1 65704 0].

(** A body outside the root of [sim_thread]. *)
Definition far_body : point_t binary32 := sample_body 1 200000 0.

(** A single precision value that is a zero or a finite number in
    canonical form, as every finite C++ [float] is. *)
Definition is_finite32 (w : binary32) : bool :=
  match w with
  | S754_zero _ => true
  | S754_finite _ m e => SpecFloat.bounded 24 128 m e
  | _ => false
  end.

(** What decreases when a finite value is halved: the distance of the
    exponent from [emin], plus the mantissa. *)
Definition halving_measure (w : binary32) : nat :=
  match w with
  | S754_finite _ m e => (Z.to_nat (e + 149) + Pos.to_nat m)%nat
  | _ => O
  end.

(** ** Further predicates on trees and values *)

Section TreePredicates.

Context {F : Type} {SF : Scalar F}.

(** Every occupant lies inside the boundary of the node that holds it. *)
Fixpoint contained (n : quad_node_t F) : Prop :=
  match n with
  | QuadNode _ _ b pt c0 c1 c2 c3 =>
      let below c :=
        match c with
        | None => True
        | Some m => contained m
        end in
      match pt with
      | Some q => rect_contains b (position q) = true
      | None => True
      end
      /\ below c0 /\ below c1 /\ below c2 /\ below c3
  end.

(** The centres of mass of four children, each scaled by the mass of
    the child, added from zero in the order of the children. *)
Definition weighted_sum (n0 n1 n2 n3 : quad_node_t F) : Vector2f F :=
  let term n := vec_scale (center_of_mass n) (total_mass n) in
  vec_add (vec_add (vec_add (vec_add vec_zero (term n0)) (term n1)) (term n2)) (term n3).

(** What aggregation leaves in one node: a leaf that holds a body
    carries its mass and position; a node with four children carries
    the sum of their masses, added from zero in the order of the
    children, and the weighted sum of their centres, divided by that
    mass when it is greater than zero. *)
Definition aggregated_node (n : quad_node_t F) : Prop :=
  match n with
  | QuadNode tm com _ pt c0 c1 c2 c3 =>
      match c0, c1, c2, c3 with
      | None, None, None, None =>
          match pt with
          | Some q => tm = mass q /\ com = position q
          | None => True
          end
      | Some n0, Some n1, Some n2, Some n3 =>
          tm = fadd (fadd (fadd (fadd fzero (total_mass n0)) (total_mass n1))
                          (total_mass n2))
                    (total_mass n3)
          /\ com = (if fgtb tm fzero
                    then vec_div (weighted_sum n0 n1 n2 n3) tm
                    else weighted_sum n0 n1 n2 n3)
      | _, _, _, _ => True
      end
  end.

Fixpoint aggregated (n : quad_node_t F) : Prop :=
  match n with
  | QuadNode _ _ _ _ c0 c1 c2 c3 =>
      let below c :=
        match c with
        | None => True
        | Some m => aggregated m
        end in
      aggregated_node n /\ below c0 /\ below c1 /\ below c2 /\ below c3
  end.

(** No node carries an aggregate yet. *)
Fixpoint blank (n : quad_node_t F) : Prop :=
  match n with
  | QuadNode tm com _ _ c0 c1 c2 c3 =>
      let below c :=
        match c with
        | None => True
        | Some m => blank m
        end in
      (tm = fzero /\ com = vec_zero)
      /\ below c0 /\ below c1 /\ below c2 /\ below c3
  end.

(** How the loop over the bodies relates a body to what it becomes:
    the mass is kept, the position moves by the new velocity times the
    time step. *)
Definition advanced (g : globals F) (p p' : point_t F) : Prop :=
  mass p' = mass p
  /\ position p' = vec_add (position p) (vec_scale (velocity p') (TIME_STEP g)).

(** What [apply_force] adds to the velocity of the body. *)
Definition force_increment (g : globals F) (node : quad_node_t F) (p : point_t F)
  : Vector2f F :=
  let direction := force_direction node p in
  let distance := force_distance g node p in
  let force :=
    fdiv (fmul (fmul (GRAVITY_CONSTANT g) (total_mass node)) (mass p))
         (force_denominator g node p) in
  let acceleration :=
    vec_div (vec_scale (vec_div direction distance) force) (mass p) in
  vec_scale acceleration (TIME_STEP g).

(** A body after a step in which no force acted on it. *)
Definition coast (g : globals F) (p : point_t F) : point_t F :=
  mk_point (mass p)
           (vec_add (position p) (vec_scale (velocity p) (TIME_STEP g)))
           (velocity p).

End TreePredicates.

(** ** Signs in single precision *)

(** Neither an infinity nor a NaN. *)
Definition finite_or_zero (x : binary32) : bool :=
  match x with
  | S754_zero _ | S754_finite _ _ _ => true
  | _ => false
  end.

Definition is_nan (x : binary32) : bool :=
  match x with
  | S754_nan => true
  | _ => false
  end.

(** A zero of either sign, or a NaN. *)
Definition zero_or_nan (x : binary32) : bool :=
  match x with
  | S754_zero _ | S754_nan => true
  | _ => false
  end.

(** The sign bit of a value that is not a NaN. *)
Definition sign_bit (x : binary32) : option bool :=
  match x with
  | S754_zero s | S754_infinity s | S754_finite s _ _ => Some s
  | S754_nan => None
  end.

(** [x] is a NaN or carries sign bit [s]. *)
Definition nan_or_sign (s : bool) (x : binary32) : Prop :=
  match sign_bit x with
  | Some s' => s' = s
  | None => True
  end.
(** * Properties *)

Ltac inv H := inversion H; subst; clear H.

(** ** Outcomes *)

Lemma bind_Done {A B : Type} (m : outcome A) (k : A -> outcome B) (b : B) :
  bind m k = Done b -> exists a, m = Done a /\ k a = Done b.
Proof.
  destruct m as [a| |]; simpl; intro H; try discriminate.
  exists a; split; [reflexivity | exact H].
Qed.

Lemma obind_Some {A B : Type} (m : option A) (k : A -> option B) (b : B) :
  obind m k = Some b -> exists a, m = Some a /\ k a = Some b.
Proof.
  destruct m as [a|]; simpl; intro H; try discriminate.
  exists a; split; [reflexivity | exact H].
Qed.

Section ShapeFacts.

Context {F : Type} {SF : Scalar F}.

Lemma on_child_Done (f : quad_node_t F -> outcome (quad_node_t F)) c c' :
  on_child f c = Done c' ->
  exists n n', c = Some n /\ c' = Some n' /\ f n = Done n'.
Proof.
  destruct c as [n|]; simpl; intro H; try discriminate.
  apply bind_Done in H. destruct H as (n' & Hf & Hr). inv Hr.
  exists n, n'. auto.
Qed.

Lemma for_children_Done (f : quad_node_t F -> outcome (quad_node_t F)) n n' :
  for_children f n = Done n' ->
  exists m0 m1 m2 m3 m0' m1' m2' m3',
    children n = [Some m0; Some m1; Some m2; Some m3]
    /\ n' = QuadNode (total_mass n) (center_of_mass n) (boundary n) (point n)
                     (Some m0') (Some m1') (Some m2') (Some m3')
    /\ f m0 = Done m0' /\ f m1 = Done m1' /\ f m2 = Done m2' /\ f m3 = Done m3'.
Proof.
  destruct n as [tm com b pt c0 c1 c2 c3]; simpl; intro H.
  apply bind_Done in H; destruct H as (c0' & H0 & H).
  apply bind_Done in H; destruct H as (c1' & H1 & H).
  apply bind_Done in H; destruct H as (c2' & H2 & H).
  apply bind_Done in H; destruct H as (c3' & H3 & H).
  apply on_child_Done in H0; destruct H0 as (m0 & m0' & -> & -> & E0).
  apply on_child_Done in H1; destruct H1 as (m1 & m1' & -> & -> & E1).
  apply on_child_Done in H2; destruct H2 as (m2 & m2' & -> & -> & E2).
  apply on_child_Done in H3; destruct H3 as (m3 & m3' & -> & -> & E3).
  inv H. exists m0, m1, m2, m3, m0', m1', m2', m3'. auto 10.
Qed.

Lemma well_formed_init (b : FloatRect F) : well_formed (quad_node_init b).
Proof. exact I. Qed.

Lemma is_leaf_all_absent (n : quad_node_t F) :
  quad_node_is_leaf n = true <-> all_absent n.
Proof.
  destruct n as [tm com b pt c0 c1 c2 c3].
  unfold quad_node_is_leaf, all_absent. rewrite forallb_forall, Forall_forall.
  split; intros H c Hc; specialize (H c Hc); destruct c; simpl in *; congruence.
Qed.

Lemma well_formed_cases (n : quad_node_t F) :
  well_formed n ->
  (children n = [None; None; None; None] /\ quad_node_is_leaf n = true)
  \/ (exists n0 n1 n2 n3,
        children n = [Some n0; Some n1; Some n2; Some n3]
        /\ quad_node_is_leaf n = false /\ point n = None
        /\ boundary n0 = quadrant (boundary n) 0 /\ boundary n1 = quadrant (boundary n) 1
        /\ boundary n2 = quadrant (boundary n) 2 /\ boundary n3 = quadrant (boundary n) 3
        /\ well_formed n0 /\ well_formed n1 /\ well_formed n2 /\ well_formed n3).
Proof.
  destruct n as [tm com b pt [n0|] [n1|] [n2|] [n3|]]; simpl; try contradiction.
  - intros (Hp & B0 & B1 & B2 & B3 & W0 & W1 & W2 & W3).
    right. exists n0, n1, n2, n3. auto 12.
  - intros _. left. auto.
Qed.

(** Insertion keeps the tree well formed and the boundary of its root. *)
Lemma quad_node_insert_well_formed (fuel : nat) :
  forall (n : quad_node_t F) (p : point_t F) (n' : quad_node_t F),
    well_formed n -> quad_node_insert fuel n p = Done n' ->
    well_formed n' /\ boundary n' = boundary n.
Proof.
  induction fuel as [|fuel IH]; intros n p n' W H; simpl in H; try discriminate.
  destruct (negb (rect_contains (boundary n) (position p))).
  { inv H. auto. }
  destruct (well_formed_cases n W)
    as [[Hc Hl] | (n0 & n1 & n2 & n3 & Hc & Hl & Hp & B0 & B1 & B2 & B3 & W0 & W1 & W2 & W3)];
    rewrite Hl in H.
  - destruct n as [tm com b pt c0 c1 c2 c3]. simpl in Hc. inv Hc.
    cbn [point set_point quad_node_subdivide boundary] in *.
    destruct pt as [save|].
    + apply bind_Done in H. destruct H as (n2 & H1 & H2).
      apply for_children_Done in H1.
      destruct H1 as (m0 & m1 & m2 & m3 & m0' & m1' & m2' & m3' & Hc & -> & E0 & E1 & E2 & E3).
      cbn in Hc. inv Hc.
      apply IH in E0; [|exact I]. apply IH in E1; [|exact I].
      apply IH in E2; [|exact I]. apply IH in E3; [|exact I].
      destruct E0 as [V0 Q0], E1 as [V1 Q1], E2 as [V2 Q2], E3 as [V3 Q3].
      apply for_children_Done in H2.
      destruct H2 as (k0 & k1 & k2 & k3 & k0' & k1' & k2' & k3' & Hc & -> & G0 & G1 & G2 & G3).
      simpl in Hc. inv Hc.
      apply IH in G0; [|assumption]. apply IH in G1; [|assumption].
      apply IH in G2; [|assumption]. apply IH in G3; [|assumption].
      destruct G0 as [U0 R0], G1 as [U1 R1], G2 as [U2 R2], G3 as [U3 R3].
      simpl. split; [|reflexivity].
      rewrite R0, R1, R2, R3, Q0, Q1, Q2, Q3. simpl. auto 12.
    + inv H. simpl. auto.
  - apply for_children_Done in H.
    destruct H as (m0 & m1 & m2 & m3 & m0' & m1' & m2' & m3' & Hc' & -> & E0 & E1 & E2 & E3).
    rewrite Hc in Hc'. inv Hc'.
    apply IH in E0; [|assumption]. apply IH in E1; [|assumption].
    apply IH in E2; [|assumption]. apply IH in E3; [|assumption].
    destruct E0 as [V0 Q0], E1 as [V1 Q1], E2 as [V2 Q2], E3 as [V3 Q3].
    simpl. split; [|reflexivity].
    rewrite Q0, Q1, Q2, Q3. auto 12.
Qed.

Lemma insert_all_well_formed (fuel : nat) (ps : list (point_t F)) :
  forall (n n' : quad_node_t F),
    well_formed n -> insert_all fuel n ps = Done n' ->
    well_formed n' /\ boundary n' = boundary n.
Proof.
  induction ps as [|p ps IH]; intros n n' W H; simpl in H.
  - inv H. auto.
  - apply bind_Done in H. destruct H as (m & H1 & H2).
    apply quad_node_insert_well_formed in H1; [|assumption].
    destruct H1 as [Wm Bm]. apply IH in H2; [|assumption].
    destruct H2 as [W' B']. split; congruence.
Qed.

Lemma well_formed_node_invariant (n : quad_node_t F) :
  well_formed n -> node_invariant n.
Proof.
  intro W. unfold node_invariant.
  split; [apply is_leaf_all_absent|].
  destruct (well_formed_cases n W)
    as [[Hc Hl] | (n0 & n1 & n2 & n3 & Hc & Hl & Hp & B0 & B1 & B2 & B3 & _)].
  - split; [left; apply is_leaf_all_absent; exact Hl|].
    split; [|congruence].
    intros _. unfold occupants. destruct (point n); simpl; lia.
  - split; [right; exists n0, n1, n2, n3; auto 6|].
    split; [congruence|].
    intros _. unfold occupants. rewrite Hp. reflexivity.
Qed.

Lemma well_formed_nodes (t : quad_node_t F) :
  well_formed t -> forall n, In n (nodes t) -> well_formed n.
Proof.
  induction t as [tm com b pt c0 c1 c2 c3 I0 I1 I2 I3] using quad_node_t_ind.
  intros W n Hn.
  destruct (well_formed_cases _ W)
    as [[Hc Hl] | (n0 & n1 & n2 & n3 & Hc & Hl & Hp & B0 & B1 & B2 & B3 & W0 & W1 & W2 & W3)];
    simpl in Hc; inv Hc; simpl in Hn.
  - destruct Hn as [<-|[]]. exact W.
  - destruct Hn as [<-|Hn]; [exact W|].
    repeat (apply in_app_or in Hn; destruct Hn as [Hn|Hn]); simpl in *; auto.
Qed.

End ShapeFacts.

(** C3.  After any sequence of calls of [quad_node_insert] on a fresh
    root, every node of the tree satisfies: it is a leaf exactly when its
    four children are absent; its children are all absent or all present
    (then child [i] covers quadrant [i] of its boundary, the split being
    at the midpoint); a leaf holds at most one occupant; a node that is
    not a leaf holds none.  This holds in every arithmetic. *)
Theorem insert_preserves_node_invariant
  {F : Type} {SF : Scalar F} (fuel : nat) (b : FloatRect F)
  (bodies : list (point_t F)) (t : quad_node_t F) :
  insert_all fuel (quad_node_init b) bodies = Done t ->
  forall n, In n (nodes t) -> node_invariant n.
Proof.
  intros H n Hn.
  apply insert_all_well_formed in H; [|apply well_formed_init].
  apply well_formed_node_invariant.
  apply (well_formed_nodes t); tauto.
Qed.

(** The three sample bodies give a tree with a root that has children. *)
Lemma insert_preserves_node_invariant_witness :
  exists t : quad_node_t binary32,
    insert_all 20 sample_root sample_bodies = Done t
    /\ quad_node_is_leaf t = false
    /\ forall n, In n (nodes t) -> node_invariant n.
Proof.
  destruct (insert_all 20 sample_root sample_bodies) as [t| |] eqn:E;
    try (vm_compute in E; discriminate).
  exists t. split; [reflexivity|]. split.
  - vm_compute in E. inv E. reflexivity.
  - exact (insert_preserves_node_invariant 20 root_boundary sample_bodies E).
Defined.

(** ** The force traversal *)

Section ForceFacts.

Context {F : Type} {SF : Scalar F}.

Lemma spec_no_contribution_eq (node : quad_node_t F) (body : point_t F) :
  spec_no_contribution node body = force_skipped node body.
Proof. reflexivity. Qed.

Lemma spec_distance_eq (g : globals F) (node : quad_node_t F) (body : point_t F) :
  spec_distance g node body = force_distance g node body.
Proof. reflexivity. Qed.

Lemma spec_accept_eq (g : globals F) (node : quad_node_t F) (body : point_t F) :
  spec_accept g node body = force_accepted g node body.
Proof.
  destruct node as [tm com b pt [n0|] [n1|] [n2|] [n3|]]; reflexivity.
Qed.

Lemma spec_add_to_velocity_eq (g : globals F) (node : quad_node_t F) (body : point_t F) :
  spec_add_to_velocity g node body = apply_force g node body.
Proof. reflexivity. Qed.

(** The traversal leaves the mass and the position of the body alone. *)
Lemma quad_node_compute_force_position (g : globals F) (node : quad_node_t F) :
  forall p p', quad_node_compute_force g node p = Some p' ->
               position p' = position p /\ mass p' = mass p.
Proof.
  induction node as [tm com b pt c0 c1 c2 c3 I0 I1 I2 I3] using quad_node_t_ind.
  intros p p' H. cbn [quad_node_compute_force] in H.
  destruct (force_skipped _ p); [inv H; auto|].
  destruct (force_accepted g _ p); [inv H; auto|].
  apply obind_Some in H; destruct H as (p0 & H0 & H).
  apply obind_Some in H; destruct H as (p1 & H1 & H).
  apply obind_Some in H; destruct H as (p2 & H2 & H3).
  destruct c0 as [n0|], c1 as [n1|], c2 as [n2|], c3 as [n3|]; try discriminate.
  apply I0 in H0. apply I1 in H1. apply I2 in H2. apply I3 in H3.
  intuition congruence.
Qed.

(** The logging traversal computes what the plain one computes. *)
Lemma quad_node_compute_force_log_fst (g : globals F) (node : quad_node_t F) :
  forall here p,
    option_map fst (quad_node_compute_force_log g node here p)
    = quad_node_compute_force g node p.
Proof.
  induction node as [tm com b pt c0 c1 c2 c3 I0 I1 I2 I3] using quad_node_t_ind.
  intros here p. cbn [quad_node_compute_force quad_node_compute_force_log].
  destruct (force_skipped _ p); [reflexivity|].
  destruct (force_accepted g _ p); [reflexivity|].
  destruct c0 as [n0|]; [|reflexivity].
  simpl in I0. rewrite <- (I0 (0 :: here)%nat p).
  destruct (quad_node_compute_force_log g n0 (0 :: here)%nat p) as [[p0 v0]|]; [|reflexivity].
  cbn [option_map obind fst].
  destruct c1 as [n1|]; [|reflexivity].
  simpl in I1. rewrite <- (I1 (1 :: here)%nat p0).
  destruct (quad_node_compute_force_log g n1 (1 :: here)%nat p0) as [[p1 v1]|]; [|reflexivity].
  cbn [option_map obind fst].
  destruct c2 as [n2|]; [|reflexivity].
  simpl in I2. rewrite <- (I2 (2 :: here)%nat p1).
  destruct (quad_node_compute_force_log g n2 (2 :: here)%nat p1) as [[p2 v2]|]; [|reflexivity].
  cbn [option_map obind fst].
  destruct c3 as [n3|]; [|reflexivity].
  simpl in I3. rewrite <- (I3 (3 :: here)%nat p2).
  destruct (quad_node_compute_force_log g n3 (3 :: here)%nat p2) as [[p3 v3]|]; reflexivity.
Qed.

Lemma force_skipped_position (node : quad_node_t F) (p q : point_t F) :
  position p = position q -> force_skipped node p = force_skipped node q.
Proof. unfold force_skipped. intros ->. reflexivity. Qed.

Lemma force_ratio_position (g : globals F) (node : quad_node_t F) (p q : point_t F) :
  position p = position q -> force_ratio g node p = force_ratio g node q.
Proof.
  unfold force_ratio, force_distance, force_direction. intros ->. reflexivity.
Qed.

Lemma complete_cases (n : quad_node_t F) :
  complete n = true ->
  (children n = [None; None; None; None] /\ quad_node_is_leaf n = true)
  \/ (exists n0 n1 n2 n3,
        children n = [Some n0; Some n1; Some n2; Some n3]
        /\ quad_node_is_leaf n = false
        /\ complete n0 = true /\ complete n1 = true
        /\ complete n2 = true /\ complete n3 = true).
Proof.
  destruct n as [tm com b pt [n0|] [n1|] [n2|] [n3|]]; simpl; try discriminate.
  - intro H. repeat (apply andb_prop in H; destruct H as [H ?]).
    right. exists n0, n1, n2, n3. auto 8.
  - intros _. left. auto.
Qed.

Lemma well_formed_complete (n : quad_node_t F) :
  well_formed n -> complete n = true.
Proof.
  induction n as [tm com b pt c0 c1 c2 c3 I0 I1 I2 I3] using quad_node_t_ind.
  destruct c0 as [n0|], c1 as [n1|], c2 as [n2|], c3 as [n3|]; simpl;
    try contradiction; try reflexivity.
  intros (_ & _ & _ & _ & _ & W0 & W1 & W2 & W3).
  simpl in *. rewrite I0, I1, I2, I3 by assumption. reflexivity.
Qed.

End ForceFacts.

(** C2.  [quad_node_compute_force] does what the specification says of
    it, for every tree and body: nothing when the mass of the node is
    zero or the position of the body equals the centre of mass;
    otherwise, with distance = sqrt (dx^2 + dy^2 + softening^2) and
    ratio = width / distance, on a leaf or when ratio < theta it adds
    (direction / distance) * (G * total_mass * mass / (distance^2 +
    softening^2)) / mass * timestep to the velocity, and else it goes
    through the four children in order. *)
Theorem quad_node_compute_force_as_specified
  {F : Type} {SF : Scalar F} (g : globals F) (node : quad_node_t F) (body : point_t F) :
  quad_node_compute_force g node body
  = spec_compute_force g (quad_node_compute_force g) node body.
Proof.
  unfold spec_compute_force.
  rewrite spec_no_contribution_eq, spec_accept_eq, spec_add_to_velocity_eq.
  destruct node as [tm com b pt c0 c1 c2 c3].
  cbn [quad_node_compute_force].
  destruct (force_skipped _ body); [reflexivity|].
  destruct (force_accepted g _ body); [reflexivity|].
  unfold spec_recurse. cbn [children fold_left].
  destruct c0 as [n0|]; cbn [obind].
  - destruct (quad_node_compute_force g n0 body) as [p0|]; cbn [obind].
    + destruct c1 as [n1|]; cbn [obind].
      * destruct (quad_node_compute_force g n1 p0) as [p1|]; cbn [obind].
        -- destruct c2 as [n2|]; cbn [obind].
           ++ destruct (quad_node_compute_force g n2 p1) as [p2|]; cbn [obind].
              ** destruct c3; reflexivity.
              ** destruct c3; reflexivity.
           ++ destruct c3; reflexivity.
        -- destruct c2, c3; reflexivity.
      * destruct c2, c3; reflexivity.
    + destruct c1, c2, c3; reflexivity.
  - destruct c1, c2, c3; reflexivity.
Qed.

Section OpeningAngle.

Context {F : Type} {SF : Scalar F}.

(** What the comparison of scalars must satisfy for the next result:
    [a < b] and [b <= c] give [a < c]. *)
Hypothesis fltb_fleb_trans :
  forall a b c : F, fltb a b = true -> fleb b c = true -> fltb a c = true.

Lemma force_accepted_monotone (g : globals F) (theta1 theta2 : F)
  (node : quad_node_t F) (p q : point_t F) :
  fleb theta1 theta2 = true -> position p = position q ->
  force_accepted (set_theta g theta1) node p = true ->
  force_accepted (set_theta g theta2) node q = true.
Proof.
  intros Hle Hpos. unfold force_accepted.
  rewrite (force_ratio_position (set_theta g theta2) node q p) by congruence.
  intro H. apply orb_true_iff in H. apply orb_true_iff.
  destruct H as [H|H]; [left; exact H|right].
  change (force_ratio (set_theta g theta2) node p)
    with (force_ratio (set_theta g theta1) node p).
  cbn [THETA set_theta] in *. eapply fltb_fleb_trans; eassumption.
Qed.

Lemma log_monotone (g : globals F) (theta1 theta2 : F) (node : quad_node_t F) :
  fleb theta1 theta2 = true -> complete node = true ->
  forall here p q, position p = position q ->
    exists p' q' v1 v2,
      quad_node_compute_force_log (set_theta g theta1) node here p = Some (p', v1)
      /\ quad_node_compute_force_log (set_theta g theta2) node here q = Some (q', v2)
      /\ position p' = position p /\ position q' = position q
      /\ incl v2 v1 /\ length v2 <= length v1.
Proof.
  intro Hle.
  induction node as [tm com b pt c0 c1 c2 c3 I0 I1 I2 I3] using quad_node_t_ind.
  intros C here p q Hpos.
  cbn [quad_node_compute_force_log].
  rewrite (force_skipped_position _ p q Hpos).
  destruct (force_skipped _ q).
  { exists p, q, [here], [here]. repeat split; auto using incl_refl. }
  destruct (force_accepted (set_theta g theta1) _ p) eqn:A1.
  { rewrite (force_accepted_monotone g theta1 theta2 _ p q Hle Hpos A1).
    do 4 eexists. repeat split; auto using incl_refl. }
  destruct (complete_cases _ C) as [[Hc Hl] | (n0 & n1 & n2 & n3 & Hc & Hl & C0 & C1 & C2 & C3)].
  { unfold force_accepted in A1. rewrite Hl in A1. discriminate. }
  cbn [children] in Hc. inv Hc. cbn [child_holds] in *.
  destruct (I0 C0 (0 :: here)%nat p q Hpos)
    as (p0 & q0 & a0 & b0 & E0 & G0 & P0 & Q0 & S0 & L0).
  destruct (I1 C1 (1 :: here)%nat p0 q0 ltac:(congruence))
    as (p1 & q1 & a1 & b1 & E1 & G1 & P1 & Q1 & S1 & L1).
  destruct (I2 C2 (2 :: here)%nat p1 q1 ltac:(congruence))
    as (p2 & q2 & a2 & b2 & E2 & G2 & P2 & Q2 & S2 & L2).
  destruct (I3 C3 (3 :: here)%nat p2 q2 ltac:(congruence))
    as (p3 & q3 & a3 & b3 & E3 & G3 & P3 & Q3 & S3 & L3).
  rewrite E0. cbn [obind fst snd]. rewrite E1. cbn [obind fst snd].
  rewrite E2. cbn [obind fst snd]. rewrite E3. cbn [obind fst snd].
  destruct (force_accepted (set_theta g theta2) _ q).
  - do 4 eexists. split; [reflexivity|]. split; [reflexivity|].
    split; [congruence|]. split; [reflexivity|]. split.
    + intros x [<-|[]]. left. reflexivity.
    + simpl. lia.
  - rewrite G0. cbn [obind fst snd]. rewrite G1. cbn [obind fst snd].
    rewrite G2. cbn [obind fst snd]. rewrite G3. cbn [obind fst snd].
    do 4 eexists. split; [reflexivity|]. split; [reflexivity|].
    split; [congruence|]. split; [congruence|]. split.
    + apply incl_cons; [left; reflexivity|]. apply incl_tl.
      repeat apply incl_app.
      * apply incl_appl. exact S0.
      * apply incl_appr, incl_appl. exact S1.
      * apply incl_appr, incl_appr, incl_appl. exact S2.
      * apply incl_appr, incl_appr, incl_appr. exact S3.
    + simpl. rewrite !length_app. lia.
Qed.

(** On a tree without missing children, for a fixed body, raising the
    threshold can only remove nodes from the traversal. *)
Lemma visited_antitone_generic (g : globals F) (theta1 theta2 : F)
  (root : quad_node_t F) (body : point_t F) :
  complete root = true ->
  fleb theta1 theta2 = true ->
  exists v1 v2,
    visited (set_theta g theta1) root body = Some v1
    /\ visited (set_theta g theta2) root body = Some v2
    /\ incl v2 v1
    /\ length v2 <= length v1.
Proof.
  intros C Hle.
  destruct (log_monotone g theta1 theta2 root Hle C [] body body eq_refl)
    as (p' & q' & v1 & v2 & E1 & E2 & _ & _ & S & L).
  exists v1, v2. unfold visited. rewrite E1, E2. auto.
Qed.

End OpeningAngle.

Section SelfForce.

Context {F : Type} {SF : Scalar F}.

(** A scalar that compares at all equals itself (it is not a NaN). *)
Hypothesis fleb_feqb_refl :
  forall a b : F, fleb a b = true -> feqb b b = true.

Lemma rect_contains_self_equal (r : FloatRect F) (p : Vector2f F) :
  rect_contains r p = true -> vec_eqb p p = true.
Proof.
  unfold rect_contains, vec_eqb, fgeb. intro H.
  repeat (apply andb_prop in H; destruct H as [H ?]).
  apply andb_true_intro. split; eapply fleb_feqb_refl; eassumption.
Qed.

(** A tree built from one body inside the root boundary and then
    aggregated exerts nothing on that body. *)
Lemma single_body_generic (g : globals F) (b : FloatRect F)
  (body : point_t F) (fuel : nat) :
  rect_contains b (position body) = true ->
  exists t t' body',
    insert_all (S fuel) (quad_node_init b) [body] = Done t
    /\ quad_node_compute_mass t = Some t'
    /\ quad_node_compute_force g t' body = Some body
    /\ advance_body g t' body = Some body'
    /\ velocity body' = velocity body.
Proof.
  intro Hin.
  exists (QuadNode fzero vec_zero b (Some body) None None None None).
  exists (QuadNode (mass body) (position body) b (Some body) None None None None).
  assert (Hf : quad_node_compute_force g
                 (QuadNode (mass body) (position body) b (Some body) None None None None)
                 body = Some body).
  { cbn [quad_node_compute_force]. unfold force_skipped. cbn [center_of_mass].
    rewrite (rect_contains_self_equal _ _ Hin), orb_true_r. reflexivity. }
  eexists. split.
  { cbn [insert_all quad_node_insert bind boundary quad_node_init].
    rewrite Hin. reflexivity. }
  split; [reflexivity|]. split; [exact Hf|].
  unfold advance_body. rewrite Hf. split; reflexivity.
Qed.

End SelfForce.

(** ** Termination of insertion when cells degenerate *)

Section Termination.

Context {F : Type} {SF : Scalar F}.

(** A rectangle of zero width contains no point.  This is what the
    arithmetic must satisfy for the results of this section; it holds in
    single precision. *)
Hypothesis zero_width_empty :
  forall l w x : F,
    feqb w fzero = true ->
    fgeb x (fmin l (fadd l w)) && fltb x (fmax l (fadd l w)) = false.

Lemma rect_contains_zero_width (r : FloatRect F) (p : Vector2f F) :
  feqb (rect_width r) fzero = true -> rect_contains r p = false.
Proof.
  intro H. unfold rect_contains.
  rewrite (zero_width_empty (rect_left r) (rect_width r) (vec_x p) H).
  reflexivity.
Qed.

Lemma quad_node_insert_succ (fuel : nat) (node : quad_node_t F) (p : point_t F) :
  quad_node_insert (S fuel) node p
  = if negb (rect_contains (boundary node) (position p)) then Done node
    else if quad_node_is_leaf node then
      match point node with
      | None => Done (set_point node (Some p))
      | Some save =>
          bind (for_children (fun c => quad_node_insert fuel c save)
                             (set_point (quad_node_subdivide node) None))
               (for_children (fun c => quad_node_insert fuel c p))
      end
    else for_children (fun c => quad_node_insert fuel c p) node.
Proof. reflexivity. Qed.

Lemma halved_succ (k : nat) (w : F) : halved (S k) w = fdiv (halved k w) ftwo.
Proof. reflexivity. Qed.

Lemma depth_bounded_width (K : nat) (w0 : F) (k : nat) (n : quad_node_t F) :
  depth_bounded K w0 k n -> rect_width (boundary n) = halved k w0.
Proof. destruct n; simpl; tauto. Qed.

Lemma depth_bounded_cases (K : nat) (w0 : F) (k : nat) (n : quad_node_t F) :
  depth_bounded K w0 k n ->
  (children n = [None; None; None; None] /\ quad_node_is_leaf n = true)
  \/ (exists n0 n1 n2 n3,
        children n = [Some n0; Some n1; Some n2; Some n3]
        /\ quad_node_is_leaf n = false /\ (k < K)%nat
        /\ depth_bounded K w0 (S k) n0 /\ depth_bounded K w0 (S k) n1
        /\ depth_bounded K w0 (S k) n2 /\ depth_bounded K w0 (S k) n3).
Proof.
  destruct n as [tm com b pt [n0|] [n1|] [n2|] [n3|]]; simpl; try tauto.
  intros (_ & Hk & D0 & D1 & D2 & D3). right. exists n0, n1, n2, n3. auto 10.
Qed.

Lemma depth_bounded_fresh (K : nat) (w0 : F) (k : nat) (b : FloatRect F) (i : nat) :
  rect_width b = halved k w0 -> (i < 4)%nat ->
  depth_bounded K w0 (S k) (quad_node_init (quadrant b i)).
Proof.
  intros Hw Hi. unfold quad_node_init. cbn [depth_bounded]. split; [|exact I].
  rewrite halved_succ, <- Hw.
  destruct i as [|[|[|[|i]]]]; try reflexivity. lia.
Qed.

Lemma for_children_terminates (f : quad_node_t F -> outcome (quad_node_t F))
  (P : quad_node_t F -> Prop) (tm : F) (com : Vector2f F) (b : FloatRect F)
  (pt : option (point_t F)) (n0 n1 n2 n3 : quad_node_t F) :
  (forall n, P n -> exists n', f n = Done n' /\ P n' /\ boundary n' = boundary n) ->
  P n0 -> P n1 -> P n2 -> P n3 ->
  exists m0 m1 m2 m3,
    for_children f (QuadNode tm com b pt (Some n0) (Some n1) (Some n2) (Some n3))
    = Done (QuadNode tm com b pt (Some m0) (Some m1) (Some m2) (Some m3))
    /\ P m0 /\ P m1 /\ P m2 /\ P m3.
Proof.
  intros Hf P0 P1 P2 P3.
  destruct (Hf n0 P0) as (m0 & E0 & Q0 & _).
  destruct (Hf n1 P1) as (m1 & E1 & Q1 & _).
  destruct (Hf n2 P2) as (m2 & E2 & Q2 & _).
  destruct (Hf n3 P3) as (m3 & E3 & Q3 & _).
  exists m0, m1, m2, m3. cbn [for_children on_child].
  rewrite E0, E1, E2, E3. cbn [bind]. auto.
Qed.

(** A cell [k] subdivisions down, in a tree that never subdivides past
    [k + j], takes a body with calls nested at most [j + 1] deep. *)
Lemma quad_node_insert_terminates (w0 : F) (j : nat) :
  forall (k : nat) (n : quad_node_t F) (p : point_t F),
    feqb (halved (k + j) w0) fzero = true ->
    depth_bounded (k + j) w0 k n ->
    exists n',
      quad_node_insert (S j) n p = Done n'
      /\ depth_bounded (k + j) w0 k n'
      /\ boundary n' = boundary n.
Proof.
  induction j as [|j IH]; intros k n p HK D.
  - rewrite Nat.add_0_r in *. exists n. rewrite quad_node_insert_succ.
    rewrite rect_contains_zero_width; [auto|].
    rewrite (depth_bounded_width _ _ _ _ D). exact HK.
  - rewrite quad_node_insert_succ.
    destruct (rect_contains (boundary n) (position p)); cbn [negb];
      [|exists n; auto].
    assert (Hstep : forall q c, depth_bounded (k + S j) w0 (S k) c ->
              exists c', quad_node_insert (S j) c q = Done c'
                         /\ depth_bounded (k + S j) w0 (S k) c'
                         /\ boundary c' = boundary c).
    { intros q c Dc. replace (k + S j)%nat with (S k + j)%nat in * by lia.
      apply IH; assumption. }
    destruct (depth_bounded_cases _ _ _ _ D)
      as [[Hc Hl] | (n0 & n1 & n2 & n3 & Hc & Hl & Hk & D0 & D1 & D2 & D3)];
      rewrite Hl.
    + destruct n as [tm com b pt c0 c1 c2 c3]. cbn [children] in Hc. inv Hc.
      cbn [point set_point quad_node_subdivide boundary] in *.
      destruct D as [Hw _].
      destruct pt as [save|].
      * destruct (for_children_terminates
                    (fun c => quad_node_insert (S j) c save)
                    (depth_bounded (k + S j) w0 (S k)) tm com b None
                    (quad_node_init (quadrant b (0 mod 4)))
                    (quad_node_init (quadrant b (1 mod 4)))
                    (quad_node_init (quadrant b (2 mod 4)))
                    (quad_node_init (quadrant b (3 mod 4))))
          as (m0 & m1 & m2 & m3 & E & Q0 & Q1 & Q2 & Q3);
          [apply Hstep | apply depth_bounded_fresh; [assumption|cbn; lia] ..|].
        rewrite E. cbn [bind].
        destruct (for_children_terminates
                    (fun c => quad_node_insert (S j) c p)
                    (depth_bounded (k + S j) w0 (S k)) tm com b None m0 m1 m2 m3)
          as (r0 & r1 & r2 & r3 & E' & R0 & R1 & R2 & R3);
          [apply Hstep | assumption ..|].
        rewrite E'. eexists. split; [reflexivity|]. split; [|reflexivity].
        simpl. split; [exact Hw|]. split; [lia|]. auto.
      * eexists. split; [reflexivity|]. split; [|reflexivity].
        simpl. auto.
    + destruct n as [tm com b pt c0 c1 c2 c3]. cbn [children] in Hc. inv Hc.
      destruct D as [Hw _].
      destruct (for_children_terminates
                  (fun c => quad_node_insert (S j) c p)
                  (depth_bounded (k + S j) w0 (S k)) tm com b pt n0 n1 n2 n3)
        as (r0 & r1 & r2 & r3 & E' & R0 & R1 & R2 & R3);
        [apply Hstep | assumption ..|].
      rewrite E'. eexists. split; [reflexivity|]. split; [|reflexivity].
      simpl. split; [exact Hw|]. split; [lia|]. auto.
Qed.

(** When the width of the root boundary is zero after [K] halvings,
    inserting any list of bodies into a fresh root terminates, with
    calls nested at most [K + 1] deep. *)
Lemma insert_all_terminates_generic (b : FloatRect F) (K : nat) (bodies : list (point_t F)) :
  feqb (halved K (rect_width b)) fzero = true ->
  exists t, insert_all (S K) (quad_node_init b) bodies = Done t.
Proof.
  intro HK.
  assert (H : forall n, depth_bounded K (rect_width b) 0 n ->
                        exists t, insert_all (S K) n bodies = Done t).
  { induction bodies as [|p ps IH]; intros n D.
    - exists n. reflexivity.
    - destruct (quad_node_insert_terminates (rect_width b) K 0 n p HK D)
        as (n' & E & D' & _).
      cbn [insert_all]. rewrite E. cbn [bind]. apply IH. exact D'. }
  apply H. simpl. auto.
Qed.

End Termination.

(** ** Insertion in any arithmetic: bodies outside, empty leaves, fuel *)

Section InsertFacts.

Context {F : Type} {SF : Scalar F}.

(** A body outside the boundary of a node leaves the node as it is. *)
Lemma quad_node_insert_outside (fuel : nat) (n : quad_node_t F) (p : point_t F) :
  rect_contains (boundary n) (position p) = false ->
  quad_node_insert (S fuel) n p = Done n.
Proof. intro H. rewrite quad_node_insert_succ, H. reflexivity. Qed.

Lemma quad_node_insert_empty_leaf (fuel : nat) (tm : F) (com : Vector2f F)
  (b : FloatRect F) (p : point_t F) :
  quad_node_insert (S fuel) (QuadNode tm com b None None None None None) p
  = Done (QuadNode tm com b
            (if rect_contains b (position p) then Some p else None)
            None None None None).
Proof.
  rewrite quad_node_insert_succ. cbn [boundary].
  destruct (rect_contains b (position p)); reflexivity.
Qed.

Lemma for_children_ext (f g : quad_node_t F -> outcome (quad_node_t F))
  (n n' : quad_node_t F) :
  (forall c c', f c = Done c' -> g c = Done c') ->
  for_children f n = Done n' -> for_children g n = Done n'.
Proof.
  intros Hfg H. apply for_children_Done in H.
  destruct H as (m0 & m1 & m2 & m3 & m0' & m1' & m2' & m3' & Hc & -> & E0 & E1 & E2 & E3).
  destruct n as [tm com b pt c0 c1 c2 c3]. cbn [children] in Hc. inv Hc.
  cbn [for_children on_child].
  rewrite (Hfg _ _ E0), (Hfg _ _ E1), (Hfg _ _ E2), (Hfg _ _ E3). reflexivity.
Qed.

(** More fuel does not change a result. *)
Lemma quad_node_insert_more_fuel (fuel : nat) :
  forall (fuel' : nat) (n n' : quad_node_t F) (p : point_t F),
    (fuel <= fuel')%nat ->
    quad_node_insert fuel n p = Done n' -> quad_node_insert fuel' n p = Done n'.
Proof.
  induction fuel as [|fuel IH]; intros fuel' n n' p Hle H; [discriminate|].
  destruct fuel' as [|fuel']; [lia|].
  rewrite quad_node_insert_succ in *.
  destruct (negb (rect_contains (boundary n) (position p))); [exact H|].
  assert (Hext : forall q c c', quad_node_insert fuel c q = Done c' ->
                                quad_node_insert fuel' c q = Done c').
  { intros q c c'. apply IH. lia. }
  destruct (quad_node_is_leaf n).
  - destruct (point n) as [save|]; [|exact H].
    apply bind_Done in H. destruct H as (n2 & H1 & H2).
    rewrite (@for_children_ext _ (fun c => quad_node_insert fuel' c save) _ _
               (Hext save) H1).
    cbn [bind].
    exact (@for_children_ext _ (fun c => quad_node_insert fuel' c p) _ _ (Hext p) H2).
  - exact (@for_children_ext _ (fun c => quad_node_insert fuel' c p) _ _ (Hext p) H).
Qed.

Lemma insert_all_more_fuel (fuel fuel' : nat) (ps : list (point_t F)) :
  forall n n' : quad_node_t F,
    (fuel <= fuel')%nat ->
    insert_all fuel n ps = Done n' -> insert_all fuel' n ps = Done n'.
Proof.
  induction ps as [|p ps IH]; intros n n' Hle H; [exact H|].
  cbn [insert_all] in *. apply bind_Done in H. destruct H as (m & H1 & H2).
  rewrite (@quad_node_insert_more_fuel fuel fuel' n m p Hle H1). cbn [bind].
  exact (IH _ _ Hle H2).
Qed.

End InsertFacts.

(** ** The simulation thread and the consumer *)

Section ThreadFacts.

Context {F : Type} {SF : Scalar F}.

Local Open Scope thread_scope.

Lemma mbind_Done {A B : Type} (m : M (F:=F) A) (k : A -> M (F:=F) B) v b v' :
  mbind m k v = Done (b, v') ->
  exists a v1, m v = Done (a, v1) /\ k a v1 = Done (b, v').
Proof.
  unfold mbind. destruct (m v) as [[a v1]| |]; intro H; try discriminate.
  exists a, v1. auto.
Qed.

Lemma lift_outcome_Done {A : Type} (o : outcome A) (v : thread_view (F:=F)) a v' :
  lift_outcome o v = Done (a, v') -> o = Done a /\ v' = v.
Proof.
  unfold lift_outcome. destruct o; intro H; inv H. auto.
Qed.

(** What one round of the loop does to the view of the thread. *)
Lemma sim_thread_step_Done (fuel : nat) (g : globals F) (now prev : Z)
  (v v' : thread_view (F:=F)) (t : Z) :
  sim_thread_step fuel g now prev v = Done (t, v') ->
  exists working,
    compute_step fuel g (points_current (shared v)) = Done working
    /\ t = now
    /\ shared v' = mk_shared (points_current (shared v)) working now
                             (duration_seconds (now - prev))
    /\ update_done v' = true
    /\ do_update v' = do_update v
    /\ holds_lock v' = false
    /\ trace v'
       = map (fun a => mk_event a true)
             [Write var_sim_update_interval; Write var_last_sim_update;
              Write var_points_current; Read var_points_current;
              Write var_points_current; Write var_points_previous;
              Read var_points_current; Read var_points_previous;
              Read var_points_current]
         ++ trace v.
Proof.
  unfold sim_thread_step. intro H.
  apply mbind_Done in H. destruct H as (lp & v1 & H1 & H).
  apply mbind_Done in H. destruct H as (w & v2 & H2 & H).
  apply lift_outcome_Done in H2. destruct H2 as [Hw ->].
  cbv in H1. inv H1.
  exists w. split; [exact Hw|].
  cbv [lock_guard mbind set_lock read_points_previous read_points_current
         write_points_previous write_points_current write_last_sim_update
         write_sim_update_interval log get_shared put_shared ret store_update_done
         shared update_done do_update holds_lock trace
         points_previous points_current last_sim_update sim_update_interval] in H.
  inv H. cbn. auto 10.
Qed.

Lemma sim_thread_steps_app (fuel : nat) (g : globals F) (nows1 nows2 : list Z) :
  forall prev v,
    sim_thread_steps fuel g (nows1 ++ nows2) prev v
    = (t <- sim_thread_steps fuel g nows1 prev ;; sim_thread_steps fuel g nows2 t) v.
Proof.
  induction nows1 as [|now nows1 IH]; intros prev v; simpl.
  - reflexivity.
  - unfold mbind.
    destruct (sim_thread_step fuel g now prev v) as [[t v1]| |]; [|reflexivity..].
    rewrite IH. reflexivity.
Qed.

Lemma last_cons_default (l : list Z) :
  forall a d : Z, last (a :: l) d = last l a.
Proof.
  induction l as [|b l IH]; intros a d; [reflexivity|].
  change (last (a :: b :: l) d) with (last (b :: l) d).
  rewrite (IH b d), (IH b a). reflexivity.
Qed.

(** After the rounds, the private [prev_sim_time] is the last clock
    reading, and so is the published [last_sim_update]. *)
Lemma sim_thread_steps_clock (fuel : nat) (g : globals F) (nows : list Z) :
  forall prev v t v',
    sim_thread_steps fuel g nows prev v = Done (t, v') ->
    t = last nows prev /\ (nows <> [] -> last_sim_update (shared v') = t).
Proof.
  induction nows as [|now nows IH]; intros prev v t v' H.
  - inv H. split; [reflexivity | congruence].
  - cbn [sim_thread_steps] in H. apply mbind_Done in H.
    destruct H as (t1 & v1 & H1 & H2).
    apply sim_thread_step_Done in H1.
    destruct H1 as (w & _ & -> & Hs & _).
    destruct (IH _ _ _ _ H2) as [Ht Hl]. split.
    + rewrite Ht. symmetry. apply last_cons_default.
    + intros _. destruct nows as [|n nows'].
      * inv H2. rewrite Hs. reflexivity.
      * apply Hl. discriminate.
Qed.

Lemma sim_thread_step_lock_disciplined (fuel : nat) (g : globals F) (now prev : Z)
  (v v' : thread_view (F:=F)) (t : Z) :
  sim_thread_step fuel g now prev v = Done (t, v') ->
  lock_disciplined (trace v') = lock_disciplined (trace v).
Proof.
  intro H. apply sim_thread_step_Done in H.
  destruct H as (w & _ & _ & _ & _ & _ & _ & ->). reflexivity.
Qed.

End ThreadFacts.

(** C7.  At the end of every round of the loop (the last round of any
    run), the working copy of that round is the current snapshot, the
    snapshot that was current just before is the previous one, the time
    of the publication is recorded, and the recorded interval is the time
    elapsed since the publication before it (since the clock reading
    taken when the thread was created, for the first round). *)
Theorem publish_after_every_step
  {F : Type} {SF : Scalar F} (fuel : nat) (g : globals F)
  (nows : list Z) (now prev : Z) (v v' : thread_view (F:=F)) (t : Z) :
  sim_thread_steps fuel g (nows ++ [now]) prev v = Done (t, v') ->
  exists before last_publish working,
    sim_thread_steps fuel g nows prev v = Done (last_publish, before)
    /\ compute_step fuel g (points_current (shared before)) = Done working
    /\ points_current (shared v') = working
    /\ points_previous (shared v') = points_current (shared before)
    /\ last_sim_update (shared v') = now
    /\ sim_update_interval (shared v') = duration_seconds (now - last_publish)
    /\ last_publish = last nows prev
    /\ (nows <> [] -> last_sim_update (shared before) = last_publish)
    /\ update_done v' = true.
Proof.
  intro H. rewrite sim_thread_steps_app in H.
  apply mbind_Done in H. destruct H as (lp & before & H1 & H2).
  cbn [sim_thread_steps] in H2. apply mbind_Done in H2.
  destruct H2 as (t1 & v1 & H2 & H3). inv H3.
  apply sim_thread_step_Done in H2.
  destruct H2 as (w & Hw & _ & Hs & Hd & _).
  destruct (sim_thread_steps_clock _ _ _ _ _ H1) as [Hlp Hlast].
  exists before, lp, w. rewrite Hs. cbn. auto 10.
Qed.

(** C10 fails on the side of the consumer.  One frame of the window loop
    reads [last_sim_update] without holding [points_mutex], and after a
    completed step it also reads both snapshots without holding it. *)
Theorem consumer_frame_reads_unlocked
  {F : Type} {SF : Scalar F} (do_interpolate : bool) (now : Z)
  (r : render_state (F:=F)) (s : shared_state (F:=F)) (done upd : bool)
  (tr : list event) :
  exists res v',
    consumer_frame do_interpolate now r (mk_view s done upd false tr) = Done (res, v')
    /\ lock_disciplined (trace v') = false
    /\ In (mk_event (Read var_last_sim_update) false) (trace v')
    /\ (done = true ->
        In (mk_event (Read var_points_previous) false) (trace v')
        /\ In (mk_event (Read var_points_current) false) (trace v')).
Proof.
  destruct do_interpolate, done;
    (eexists; eexists; split; [cbv; reflexivity|]); cbn;
    (split; [reflexivity|]); (split; [tauto|]); intro H; try discriminate; tauto.
Qed.

(** The simulation thread, for comparison: each of the nine accesses of
    one round of its loop is made with [points_mutex] held. *)
Lemma sim_thread_step_accesses_locked
  {F : Type} {SF : Scalar F} (fuel : nat) (g : globals F) (now prev : Z)
  (s : shared_state (F:=F)) (done upd : bool) (t : Z) (v' : thread_view (F:=F)) :
  sim_thread_step fuel g now prev (mk_view s done upd false []) = Done (t, v') ->
  lock_disciplined (trace v') = true /\ length (trace v') = 9%nat.
Proof.
  intro H. apply sim_thread_step_Done in H.
  destruct H as (w & _ & _ & _ & _ & _ & _ & ->). split; reflexivity.
Qed.


(** ** Single precision: comparisons *)

Lemma SFcompare_refl_finite (s : bool) (m : positive) (e : Z) :
  SFcompare (S754_finite s m e) (S754_finite s m e) = Some Eq.
Proof.
  simpl. rewrite Z.compare_refl.
  change (Pos.compare_cont Eq m m) with (Pos.compare m m).
  rewrite Pos.compare_refl. destruct s; reflexivity.
Qed.

Lemma binary32_fleb_feqb_refl (a b : binary32) :
  fleb a b = true -> feqb b b = true.
Proof.
  cbn [fleb feqb binary32_scalar]. unfold SFleb, SFeqb.
  destruct b as [sb|sb| |sb mb eb].
  - reflexivity.
  - destruct sb; reflexivity.
  - destruct a; discriminate.
  - rewrite SFcompare_refl_finite. reflexivity.
Qed.

Ltac compare_cases :=
  repeat match goal with
         | H : context [Z.compare ?x ?y] |- _ =>
             destruct (Z.compare_spec x y); try discriminate
         | H : context [Pos.compare_cont Eq ?x ?y] |- _ =>
             change (Pos.compare_cont Eq x y) with (Pos.compare x y) in H;
             destruct (Pos.compare_spec x y); try discriminate
         | |- context [Z.compare ?x ?y] =>
             destruct (Z.compare_spec x y); try lia
         | |- context [Pos.compare_cont Eq ?x ?y] =>
             change (Pos.compare_cont Eq x y) with (Pos.compare x y);
             destruct (Pos.compare_spec x y); try lia
         end.

Lemma binary32_fltb_fleb_trans (a b c : binary32) :
  fltb a b = true -> fleb b c = true -> fltb a c = true.
Proof.
  cbn [fltb fleb binary32_scalar]. unfold SFltb, SFleb.
  destruct a as [sa|sa| |sa ma ea], b as [sb|sb| |sb mb eb], c as [sc|sc| |sc mc ec];
    try discriminate;
    try (destruct sa, sb, sc; simpl; intros; try discriminate; reflexivity);
    try (destruct sa, sb; simpl; intros; try discriminate; reflexivity);
    try (destruct sa, sc; simpl; intros; try discriminate; reflexivity);
    try (destruct sb, sc; simpl; intros; try discriminate; reflexivity).
  all: destruct sa, sb, sc; simpl; intros H1 H2; try discriminate; try reflexivity.
  all: compare_cases; subst; simpl in *; try discriminate; try reflexivity; try lia.
Qed.

Lemma fltb_fleb_exclusive (a b : binary32) :
  fleb a b = true -> fltb b a = true -> False.
Proof.
  cbn [fltb fleb binary32_scalar]. unfold SFltb, SFleb.
  destruct a as [sa|sa| |sa ma ea], b as [sb|sb| |sb mb eb];
    try discriminate;
    try (destruct sa; simpl; intros; discriminate);
    try (destruct sb; simpl; intros; discriminate);
    try (destruct sa, sb; simpl; intros; discriminate).
  destruct sa, sb; simpl; intros H1 H2; try discriminate.
  all: compare_cases; subst; simpl in *; try discriminate; try lia.
Qed.

(** Adding a zero gives a value that compares like the other operand. *)
Lemma SFadd_zero_compare (l w x : binary32) :
  feqb w fzero = true ->
  SFcompare (fadd l w) x = SFcompare l x /\ SFcompare x (fadd l w) = SFcompare x l.
Proof.
  cbn [feqb fadd binary32_scalar]. unfold SFeqb.
  destruct w as [sw|sw| |sw mw ew]; try (destruct sw; discriminate);
    try discriminate.
  intros _.
  destruct l as [sl|sl| |sl ml el].
  - destruct sl, sw, x; split; reflexivity.
  - destruct sl, sw; split; reflexivity.
  - split; reflexivity.
  - split; reflexivity.
Qed.

Lemma binary32_zero_width_empty (l w x : binary32) :
  feqb w fzero = true ->
  fgeb x (fmin l (fadd l w)) && fltb x (fmax l (fadd l w)) = false.
Proof.
  intro Hw.
  assert (Hmin : SFcompare (fmin l (fadd l w)) x = SFcompare l x).
  { unfold fmin. destruct (fltb (fadd l w) l); [|reflexivity].
    apply (@SFadd_zero_compare l w x Hw). }
  assert (Hmax : SFcompare x (fmax l (fadd l w)) = SFcompare x l).
  { unfold fmax. destruct (fltb l (fadd l w)); [|reflexivity].
    apply (@SFadd_zero_compare l w x Hw). }
  destruct (fgeb x (fmin l (fadd l w))) eqn:E1; [|reflexivity].
  destruct (fltb x (fmax l (fadd l w))) eqn:E2; [|reflexivity].
  exfalso. apply (fltb_fleb_exclusive l x).
  - unfold fgeb in E1. cbn [fleb binary32_scalar] in *. unfold SFleb in *.
    rewrite <- Hmin. exact E1.
  - cbn [fltb binary32_scalar] in *. unfold SFltb in *.
    rewrite <- Hmax. exact E2.
Qed.

(** ** Single precision: a root of infinite size *)

Lemma unbounded_root_quadrant_0 : quadrant unbounded_root 0 = unbounded_root.
Proof. vm_compute. reflexivity. Qed.

(** Subdividing a cell on the unbounded root and putting back the body
    at the origin: it lands in the first quadrant, the others refuse it. *)
Lemma reinsert_origin_unbounded (fuel : nat) (tm : binary32) (com : Vector2f binary32) :
  for_children (fun c => quad_node_insert (S fuel) c body_at_origin)
    (QuadNode tm com unbounded_root None
       (Some (quad_node_init unbounded_root))
       (Some (quad_node_init (quadrant unbounded_root 1)))
       (Some (quad_node_init (quadrant unbounded_root 2)))
       (Some (quad_node_init (quadrant unbounded_root 3))))
  = Done
      (QuadNode tm com unbounded_root None
         (Some (QuadNode fzero vec_zero unbounded_root (Some body_at_origin)
                         None None None None))
         (Some (quad_node_init (quadrant unbounded_root 1)))
         (Some (quad_node_init (quadrant unbounded_root 2)))
         (Some (quad_node_init (quadrant unbounded_root 3)))).
Proof.
  cbn [for_children on_child]. rewrite !quad_node_insert_succ.
  replace (rect_contains (boundary (quad_node_init unbounded_root))
             (position body_at_origin))
    with true by (vm_compute; reflexivity).
  replace (rect_contains (boundary (quad_node_init (quadrant unbounded_root 1)))
             (position body_at_origin))
    with false by (vm_compute; reflexivity).
  replace (rect_contains (boundary (quad_node_init (quadrant unbounded_root 2)))
             (position body_at_origin))
    with false by (vm_compute; reflexivity).
  replace (rect_contains (boundary (quad_node_init (quadrant unbounded_root 3)))
             (position body_at_origin))
    with false by (vm_compute; reflexivity).
  reflexivity.
Qed.

(** On the unbounded root, a cell holding the body at the origin never
    finishes taking the body at (1, 1): its first quadrant is the cell
    itself. *)
Lemma quad_node_insert_unbounded_diverges (fuel : nat) :
  forall (tm : binary32) (com : Vector2f binary32),
    quad_node_insert fuel
      (QuadNode tm com unbounded_root (Some body_at_origin) None None None None)
      body_at_one_one
    = Diverge.
Proof.
  induction fuel as [|fuel IH]; intros tm com; [reflexivity|].
  rewrite quad_node_insert_succ.
  replace (rect_contains _ _) with true by (vm_compute; reflexivity).
  cbn [negb quad_node_is_leaf children forallb is_null andb point
         set_point quad_node_subdivide].
  change (0 mod 4)%nat with 0%nat. change (1 mod 4)%nat with 1%nat.
  change (2 mod 4)%nat with 2%nat. change (3 mod 4)%nat with 3%nat.
  rewrite unbounded_root_quadrant_0.
  destruct fuel as [|fuel]; [reflexivity|].
  rewrite reinsert_origin_unbounded.
  cbn [bind for_children on_child]. rewrite IH. reflexivity.
Qed.

(** Against C9 as stated: a root boundary of positive (infinite) width
    and height and two bodies at distinct positions inside it, for which
    insertion does not terminate, whatever the bound on nesting. *)
Lemma insert_all_unbounded_diverges :
  fltb fzero (rect_width unbounded_root) = true
  /\ fltb fzero (rect_height unbounded_root) = true
  /\ rect_contains unbounded_root (position body_at_origin) = true
  /\ rect_contains unbounded_root (position body_at_one_one) = true
  /\ vec_eqb (position body_at_origin) (position body_at_one_one) = false
  /\ forall fuel,
      insert_all fuel (quad_node_init unbounded_root)
                 [body_at_origin; body_at_one_one] = Diverge.
Proof.
  repeat (split; [vm_compute; reflexivity|]).
  intros [|fuel]; [reflexivity|].
  cbn [insert_all]. rewrite quad_node_insert_succ.
  replace (rect_contains _ _) with true by (vm_compute; reflexivity).
  cbn [negb quad_node_is_leaf children forallb is_null andb point
         set_point quad_node_init bind].
  rewrite quad_node_insert_unbounded_diverges. reflexivity.
Qed.

(** ** Properties that rest on the comparisons of single precision *)

(** Aggregation keeps a tree free of missing children. *)
Lemma quad_node_compute_mass_complete {F : Type} {SF : Scalar F} (n : quad_node_t F) :
  forall n', complete n = true -> quad_node_compute_mass n = Some n' ->
             complete n' = true.
Proof.
  induction n as [tm com b pt c0 c1 c2 c3 I0 I1 I2 I3] using quad_node_t_ind.
  intros n' C H.
  destruct (complete_cases _ C)
    as [[Hc Hl] | (n0 & n1 & n2 & n3 & Hc & Hl & C0 & C1 & C2 & C3)];
    cbn [children] in Hc; inv Hc; cbn [quad_node_compute_mass forallb is_null andb] in H.
  - destruct pt; inv H; reflexivity.
  - cbn [child_holds] in *.
    apply obind_Some in H; destruct H as (m0 & E0 & H).
    apply obind_Some in H; destruct H as (m1 & E1 & H).
    apply obind_Some in H; destruct H as (m2 & E2 & H).
    apply obind_Some in H; destruct H as (m3 & E3 & H).
    inv H. cbn [complete].
    rewrite (I0 _ C0 E0), (I1 _ C1 E1), (I2 _ C2 E2), (I3 _ C3 E3). reflexivity.
Qed.

(** C4.  For every tree that insertion built from a fresh root and that
    has been aggregated, and for every body, the nodes on which
    [quad_node_compute_force] is called with threshold [theta2] are
    among those on which it is called with threshold [theta1] whenever
    [theta1 <= theta2]; so they are not more numerous. *)
Theorem visited_antitone_in_theta
  (fuel : nat) (b : FloatRect binary32) (bodies : list (point_t binary32))
  (built root : quad_node_t binary32)
  (g : globals binary32) (theta1 theta2 : binary32) (body : point_t binary32) :
  insert_all fuel (quad_node_init b) bodies = Done built ->
  quad_node_compute_mass built = Some root ->
  fleb theta1 theta2 = true ->
  exists v1 v2,
    visited (set_theta g theta1) root body = Some v1
    /\ visited (set_theta g theta2) root body = Some v2
    /\ incl v2 v1
    /\ length v2 <= length v1.
Proof.
  intros Hb Hm Hle.
  apply (visited_antitone_generic binary32_fltb_fleb_trans); [|exact Hle].
  apply (@quad_node_compute_mass_complete _ _ built root); [|exact Hm].
  apply well_formed_complete.
  apply insert_all_well_formed in Hb; [tauto|apply well_formed_init].
Qed.

(** With the threshold of [main] the traversal for the first sample body
    calls the function on every node of the sample tree; with threshold
    1000 it stops at the children of the root. *)
Lemma visited_antitone_in_theta_witness :
  exists built root,
    insert_all 20 (quad_node_init root_boundary) sample_bodies = Done built
    /\ quad_node_compute_mass built = Some root
    /\ exists v1 v2,
        visited (set_theta main_globals (fdiv (of_Z 1) (of_Z 2))) root
                (sample_body 1 (-10) 0) = Some v1
        /\ visited (set_theta main_globals (of_Z 1000)) root
                   (sample_body 1 (-10) 0) = Some v2
        /\ incl v2 v1
        /\ length v2 <= length v1.
Proof.
  destruct (insert_all 20 (quad_node_init root_boundary) sample_bodies)
    as [built| |] eqn:Eb; try (vm_compute in Eb; discriminate).
  destruct (quad_node_compute_mass built) as [root|] eqn:Em.
  2:{ vm_compute in Eb. inv Eb. vm_compute in Em. discriminate. }
  exists built, root. split; [reflexivity|]. split; [exact Em|].
  apply (@visited_antitone_in_theta 20 root_boundary sample_bodies built root
           main_globals (fdiv (of_Z 1) (of_Z 2)) (of_Z 1000) (sample_body 1 (-10) 0)
           Eb Em).
  vm_compute. reflexivity.
Defined.

(** C5.  A tree built from exactly one body inside the root boundary and
    then aggregated exerts nothing on that body: after the force
    traversal against the root and the position update of one simulation
    step, the velocity of the body is what it was. *)
Theorem single_body_keeps_velocity (g : globals binary32) (b : FloatRect binary32)
  (body : point_t binary32) (fuel : nat) :
  rect_contains b (position body) = true ->
  exists t t' body',
    insert_all (S fuel) (quad_node_init b) [body] = Done t
    /\ quad_node_compute_mass t = Some t'
    /\ quad_node_compute_force g t' body = Some body
    /\ advance_body g t' body = Some body'
    /\ velocity body' = velocity body.
Proof. apply (single_body_generic binary32_fleb_feqb_refl). Qed.

Lemma single_body_keeps_velocity_witness :
  exists t t' body',
    insert_all 1 (quad_node_init root_boundary) [sample_body 1 (-10) 0] = Done t
    /\ quad_node_compute_mass t = Some t'
    /\ quad_node_compute_force main_globals t' (sample_body 1 (-10) 0)
       = Some (sample_body 1 (-10) 0)
    /\ advance_body main_globals t' (sample_body 1 (-10) 0) = Some body'
    /\ velocity body' = velocity (sample_body 1 (-10) 0).
Proof.
  apply single_body_keeps_velocity.
  vm_compute. reflexivity.
Defined.

(** Two rounds of the loop on the sample bodies, at clock readings 5 and
    9 after a start at 2. *)
Lemma publish_after_every_step_witness :
  exists t v',
    sim_thread_steps 20 main_globals ([5%Z] ++ [9%Z]) 2%Z sample_view = Done (t, v')
    /\ exists before last_publish working,
      sim_thread_steps 20 main_globals [5%Z] 2%Z sample_view = Done (last_publish, before)
      /\ compute_step 20 main_globals (points_current (shared before)) = Done working
      /\ points_current (shared v') = working
      /\ points_previous (shared v') = points_current (shared before)
      /\ last_sim_update (shared v') = 9%Z
      /\ sim_update_interval (shared v') = duration_seconds (9 - last_publish)
      /\ last_publish = last [5%Z] 2%Z
      /\ ([5%Z] <> [] -> last_sim_update (shared before) = last_publish)
      /\ update_done v' = true.
Proof.
  destruct (sim_thread_steps 20 main_globals ([5%Z] ++ [9%Z]) 2%Z sample_view)
    as [[t v']| |] eqn:E; try (vm_compute in E; discriminate).
  exists t, v'. split; [reflexivity|].
  exact (publish_after_every_step 20 main_globals [5%Z] 9%Z 2%Z sample_view E).
Defined.

Lemma sim_thread_step_accesses_locked_witness :
  exists t v',
    sim_thread_step 20 main_globals 5%Z 2%Z
      (mk_view (shared sample_view) false true false []) = Done (t, v')
    /\ lock_disciplined (trace v') = true /\ length (trace v') = 9%nat.
Proof.
  destruct (sim_thread_step 20 main_globals 5%Z 2%Z
              (mk_view (shared sample_view) false true false []))
    as [[t v']| |] eqn:E; try (vm_compute in E; discriminate).
  exists t, v'. split; [reflexivity|].
  exact (sim_thread_step_accesses_locked 20 main_globals 5%Z 2%Z
           (shared sample_view) false true E).
Defined.


(** ** Single precision: rounding keeps positive values away from zero *)

Section Rounding32.

Local Open Scope Z_scope.

Lemma digits2_pos_lower (m : positive) :
  2 ^ (Zpos (digits2_pos m) - 1) <= Zpos m.
Proof.
  induction m as [m IH|m IH|]; cbn [digits2_pos].
  - rewrite Pos2Z.inj_succ. replace (Z.succ (Zpos (digits2_pos m)) - 1)
      with (Z.succ (Zpos (digits2_pos m) - 1)) by lia.
    rewrite Z.pow_succ_r by lia. lia.
  - rewrite Pos2Z.inj_succ. replace (Z.succ (Zpos (digits2_pos m)) - 1)
      with (Z.succ (Zpos (digits2_pos m) - 1)) by lia.
    rewrite Z.pow_succ_r by lia. lia.
  - reflexivity.
Qed.

Lemma shr_1_m (r : shr_record) :
  0 <= shr_m r -> shr_m (shr_1 r) = Z.div2 (shr_m r).
Proof.
  destruct r as [m b s]. cbn [shr_m]. intro H.
  destruct m as [|[p|p|]|p]; try reflexivity. lia.
Qed.

Lemma iter_pos_shr_1_m (p : positive) :
  forall r, 0 <= shr_m r ->
            shr_m (SpecFloat.iter_pos shr_1 p r) = Z.shiftr (shr_m r) (Zpos p).
Proof.
  assert (Hnn : forall a n, 0 <= a -> 0 <= n -> 0 <= Z.shiftr a n).
  { intros a n Ha Hn. apply Z.shiftr_nonneg. exact Ha. }
  induction p as [p IH|p IH|]; intros r Hr; cbn [SpecFloat.iter_pos].
  - assert (H1 : 0 <= shr_m (shr_1 r)).
    { rewrite shr_1_m by exact Hr. rewrite Z.div2_spec. apply Hnn; lia. }
    assert (H2 : 0 <= shr_m (SpecFloat.iter_pos shr_1 p (shr_1 r))).
    { rewrite IH by exact H1. apply Hnn; lia. }
    rewrite IH by exact H2. rewrite IH by exact H1.
    rewrite shr_1_m by exact Hr. rewrite Z.div2_spec.
    rewrite !Z.shiftr_shiftr by lia. f_equal. lia.
  - assert (H2 : 0 <= shr_m (SpecFloat.iter_pos shr_1 p r)).
    { rewrite IH by exact Hr. apply Hnn; lia. }
    rewrite IH by exact H2. rewrite IH by exact Hr.
    rewrite !Z.shiftr_shiftr by lia. f_equal. lia.
  - rewrite shr_1_m by exact Hr. apply Z.div2_spec.
Qed.

Lemma shr_record_of_loc_m (m : Z) (l : location) :
  shr_m (shr_record_of_loc m l) = m.
Proof. destruct l as [|[]]; reflexivity. Qed.

(** The exponent that [shr_fexp] returns is never below [emin]. *)
Lemma shr_fexp_exponent (m e : Z) (l : location) :
  emin 24 128 <= snd (shr_fexp 24 128 m e l).
Proof.
  unfold shr_fexp, shr, fexp.
  destruct (Z.max (Zdigits2 m + e - 24) (emin 24 128) - e) eqn:E;
    cbn [snd]; lia.
Qed.

(** A positive mantissa at an exponent of at least [emin] stays
    positive through [shr_fexp]. *)
Lemma shr_fexp_positive (m : positive) (e : Z) (l : location) :
  emin 24 128 <= e ->
  0 < shr_m (fst (shr_fexp 24 128 (Zpos m) e l)).
Proof.
  intro He. unfold shr_fexp, shr, fexp. cbn [Zdigits2].
  destruct (Z.max (Zpos (digits2_pos m) + e - 24) (emin 24 128) - e)
    as [|p|p] eqn:E; cbn [fst]; rewrite ?shr_record_of_loc_m; try lia.
  rewrite iter_pos_shr_1_m by (rewrite shr_record_of_loc_m; lia).
  rewrite shr_record_of_loc_m, Z.shiftr_div_pow2 by lia.
  apply Z.div_str_pos. split; [apply Z.pow_pos_nonneg; lia|].
  pose proof (digits2_pos_lower m) as Hd.
  assert (Hp : Zpos p <= Zpos (digits2_pos m) - 1) by lia.
  eapply Z.le_trans; [|exact Hd].
  apply Z.pow_le_mono_r; lia.
Qed.

Lemma round_nearest_even_positive (m : Z) (l : location) :
  0 < m -> 0 < round_nearest_even m l.
Proof.
  intro H. destruct l as [|[]]; cbn [round_nearest_even]; try lia.
  destruct (Z.even m); lia.
Qed.

(** Whatever goes in, [binary_round_aux] with the plus sign returns a
    NaN, a zero, plus infinity or a positive value, with an exponent of
    at least [emin]. *)
Lemma binary_round_aux_nonneg (m e : Z) (l : location) :
  rounded_nonneg (binary_round_aux 24 128 false m e l).
Proof.
  unfold binary_round_aux.
  destruct (shr_fexp 24 128 m e l) as [mrs' e'].
  pose proof (shr_fexp_exponent
                (round_nearest_even (shr_m mrs') (loc_of_shr_record mrs')) e' loc_Exact)
    as He.
  destruct (shr_fexp 24 128 _ e' loc_Exact) as [mrs'' e'']. cbn [snd] in He.
  destruct (shr_m mrs''); [exact I| |exact I].
  destruct (e'' <=? 128 - 24); [split; [reflexivity|exact He] | reflexivity].
Qed.

(** A positive mantissa at an exponent of at least [emin] does not round
    to zero. *)
Lemma binary_round_aux_pos (m : positive) (e : Z) (l : location) :
  emin 24 128 <= e ->
  rounded_pos (binary_round_aux 24 128 false (Zpos m) e l).
Proof.
  intro He. unfold binary_round_aux.
  pose proof (shr_fexp_positive m l He) as H1.
  pose proof (shr_fexp_exponent (Zpos m) e l) as E1.
  destruct (shr_fexp 24 128 (Zpos m) e l) as [mrs' e'].
  cbn [fst snd] in H1, E1.
  pose proof (round_nearest_even_positive (loc_of_shr_record mrs') H1) as H2.
  destruct (round_nearest_even (shr_m mrs') (loc_of_shr_record mrs'))
    as [|m2|m2] eqn:R; try lia.
  pose proof (shr_fexp_positive m2 loc_Exact E1) as H3.
  pose proof (shr_fexp_exponent (Zpos m2) e' loc_Exact) as E3.
  destruct (shr_fexp 24 128 (Zpos m2) e' loc_Exact) as [mrs'' e''].
  cbn [fst snd] in H3, E3.
  destruct (shr_m mrs''); try lia.
  destruct (e'' <=? 128 - 24); [split; [reflexivity|exact E3] | reflexivity].
Qed.

Lemma binary_round_pos (m : positive) (e : Z) :
  emin 24 128 <= e ->
  rounded_pos (binary_round 24 128 false m e).
Proof.
  intro He. unfold binary_round, shl_align.
  destruct (fexp 24 128 (Zpos (digits2_pos m) + e) - e) eqn:E;
    apply binary_round_aux_pos; try exact He.
  unfold fexp in *. lia.
Qed.

Lemma rounded_pos_nonneg (x : binary32) : rounded_pos x -> rounded_nonneg x.
Proof. destruct x; cbn; tauto. Qed.

Lemma SFmul_square_nonneg (x : binary32) : rounded_nonneg (fmul x x).
Proof.
  cbn [fmul binary32_scalar].
  destruct x as [s|s| |s m e]; cbn [SFmul rounded_nonneg]; auto.
  - apply xorb_nilpotent.
  - rewrite xorb_nilpotent. apply binary_round_aux_nonneg.
Qed.

Lemma shl_align_fst_pos (m : positive) (e e' : Z) :
  0 < Zpos (fst (shl_align m e e')).
Proof. lia. Qed.

Lemma SFadd_nonneg (a b : binary32) :
  rounded_nonneg a -> rounded_nonneg b -> rounded_nonneg (fadd a b).
Proof.
  cbn [fadd binary32_scalar].
  destruct a as [sa|sa| |sa ma ea], b as [sb|sb| |sb mb eb];
    cbn [SFadd rounded_nonneg]; try tauto.
  - destruct sa, sb; cbn; auto.
  - intros -> ->. reflexivity.
  - intros [-> Ha] [-> Hb]. cbn [cond_Zopp binary_normalize Z.add].
    apply rounded_pos_nonneg, binary_round_pos. apply Z.min_glb; assumption.
Qed.

Lemma SFadd_pos (a b : binary32) :
  rounded_nonneg a -> rounded_pos b -> rounded_pos (fadd a b).
Proof.
  cbn [fadd binary32_scalar].
  destruct a as [sa|sa| |sa ma ea], b as [sb|sb| |sb mb eb];
    cbn [SFadd rounded_nonneg rounded_pos]; try tauto.
  - intros -> ->. reflexivity.
  - intros [-> Ha] [-> Hb]. cbn [cond_Zopp binary_normalize Z.add].
    apply binary_round_pos. apply Z.min_glb; assumption.
Qed.

Lemma SFsqrt_core_binary_unfold (m e : Z) :
  SFsqrt_core_binary 24 128 m e
  = let e' := Z.min (fexp 24 128 (Z.div2 (Zdigits2 m + e + 1))) (Z.div2 e) in
    let m' := match e - 2 * e' with
              | 0 => m
              | Zpos _ => Z.shiftl m (e - 2 * e')
              | Zneg _ => 0
              end in
    (fst (Z.sqrtrem m'), e',
     if snd (Z.sqrtrem m') =? 0 then loc_Exact
     else loc_Inexact (if snd (Z.sqrtrem m') <=? fst (Z.sqrtrem m') then Lt else Gt)).
Proof.
  unfold SFsqrt_core_binary. cbv zeta.
  change IntDef.Z.sqrtrem with Z.sqrtrem.
  change IntDef.Z.min with Z.min. change IntDef.Z.div2 with Z.div2.
  change IntDef.Z.shiftl with Z.shiftl.
  destruct (Z.sqrtrem _) as [q r]. reflexivity.
Qed.

Lemma SFsqrt_pos (x : binary32) : rounded_pos x -> rounded_pos (fsqrt x).
Proof.
  cbn [fsqrt binary32_scalar].
  destruct x as [s|s| |s m e]; cbn [SFsqrt rounded_pos]; try tauto.
  - intros ->. reflexivity.
  - intros [-> He].
    rewrite SFsqrt_core_binary_unfold. cbv zeta.
    set (e' := Z.min (fexp 24 128 (Z.div2 (Zdigits2 (Zpos m) + e + 1))) (Z.div2 e)).
    assert (He' : emin 24 128 <= e').
    { unfold e', fexp. rewrite !Z.div2_div.
      assert (emin 24 128 <= e / 2).
      { apply Z.div_le_lower_bound; [lia|].
        unfold emin in *. lia. }
      lia. }
    assert (Hs : 0 <= e - 2 * e').
    { unfold e'. rewrite !Z.div2_div.
      pose proof (Z.mul_div_le e 2 ltac:(lia)). lia. }
    set (m' := match e - 2 * e' with
               | 0 => Zpos m
               | Zpos _ => Z.shiftl (Zpos m) (e - 2 * e')
               | Zneg _ => 0
               end).
    assert (Hm' : 0 < m').
    { unfold m'. destruct (e - 2 * e') eqn:E; try lia.
      rewrite Z.shiftl_mul_pow2 by lia.
      apply Z.mul_pos_pos; [lia|apply Z.pow_pos_nonneg; lia]. }
    pose proof (Z.sqrtrem_spec m' ltac:(lia)) as Hq.
    destruct (Z.sqrtrem m') as [q r]. cbn [fst snd].
    destruct q as [|q|q]; try lia.
    apply binary_round_aux_pos. exact He'.
Qed.

Lemma rounded_pos_nonzero (x : binary32) : rounded_pos x -> feqb x fzero = false.
Proof.
  destruct x as [s|s| |s m e]; cbn; try tauto.
  - intros ->. reflexivity.
  - intros [-> _]. reflexivity.
Qed.

Lemma positive_nonneg_pos (x : binary32) :
  rounded_nonneg x -> fltb fzero x = true -> rounded_pos x.
Proof.
  destruct x as [s|s| |s m e]; cbn; try tauto; discriminate.
Qed.

Lemma positive_nonzero (x : binary32) : fltb fzero x = true -> feqb x fzero = false.
Proof.
  destruct x as [s|s| |s m e]; cbn; try discriminate.
  - destruct s; intro; try discriminate. reflexivity.
  - destruct s; intro; try discriminate. reflexivity.
Qed.

End Rounding32.

(** C8, as single precision has it.  When the square of the softening,
    as computed, is positive (the softening is not so small that its
    square rounds to zero) and the mass of the body is positive, each of
    the three divisors of [quad_node_compute_force] differs from zero,
    whatever the node and the positions: the softened distance, the
    squared distance plus the squared softening, and the mass.  The
    distance is then positive, infinite or a NaN. *)
Theorem force_divisors_nonzero (g : globals binary32) (node : quad_node_t binary32)
  (body : point_t binary32) :
  fltb fzero (fmul (SOFTENING g) (SOFTENING g)) = true ->
  fltb fzero (mass body) = true ->
  feqb (force_distance g node body) fzero = false
  /\ feqb (force_denominator g node body) fzero = false
  /\ feqb (mass body) fzero = false
  /\ rounded_pos (force_distance g node body).
Proof.
  intros Hs Hm.
  assert (S2 : rounded_pos (fmul (SOFTENING g) (SOFTENING g))).
  { apply positive_nonneg_pos; [apply SFmul_square_nonneg | exact Hs]. }
  assert (D : rounded_pos (force_distance g node body)).
  { unfold force_distance. apply SFsqrt_pos, SFadd_pos; [|exact S2].
    apply SFadd_nonneg; apply SFmul_square_nonneg. }
  split; [apply rounded_pos_nonzero; exact D|].
  split; [|split; [apply positive_nonzero; exact Hm | exact D]].
  apply rounded_pos_nonzero. unfold force_denominator.
  apply SFadd_pos; [apply SFmul_square_nonneg | exact S2].
Qed.

(** Against C8 as stated: a positive softening and a positive mass for
    which the softened distance is zero.  The node is not skipped, so the
    divisions are performed, and the velocity of the body becomes
    infinite. *)
Lemma force_divides_by_zero :
  fltb fzero (SOFTENING tiny_globals) = true
  /\ fltb fzero (mass body_at_origin) = true
  /\ force_skipped tiny_node body_at_origin = false
  /\ force_distance tiny_globals tiny_node body_at_origin = fzero
  /\ option_map (fun p => vec_x (velocity p))
       (quad_node_compute_force tiny_globals tiny_node body_at_origin)
     = Some (S754_infinity false).
Proof. repeat split; vm_compute; reflexivity. Qed.

Lemma force_divisors_nonzero_witness :
  feqb (force_distance main_globals sample_aggregated (sample_body 1 (-10) 0)) fzero = false
  /\ feqb (force_denominator main_globals sample_aggregated (sample_body 1 (-10) 0)) fzero
     = false
  /\ feqb (mass (sample_body 1 (-10) 0)) fzero = false
  /\ rounded_pos (force_distance main_globals sample_aggregated (sample_body 1 (-10) 0)).
Proof.
  apply force_divisors_nonzero; vm_compute; reflexivity.
Defined.

(** ** Single precision: halving a finite value reaches zero *)

Section Halving32.

Local Open Scope Z_scope.

Lemma digits2_pos_upper (m : positive) : Zpos m < 2 ^ Zpos (digits2_pos m).
Proof.
  induction m as [m IH|m IH|]; cbn [digits2_pos].
  - rewrite Pos2Z.inj_succ, Z.pow_succ_r by lia. lia.
  - rewrite Pos2Z.inj_succ, Z.pow_succ_r by lia. lia.
  - reflexivity.
Qed.

Lemma digits2_pos_le (m : positive) (n : Z) :
  Zpos m < 2 ^ n -> Zpos (digits2_pos m) <= n.
Proof.
  intro H. pose proof (digits2_pos_lower m) as L.
  destruct (Z.le_gt_cases (Zpos (digits2_pos m)) n) as [Hle|Hgt]; [exact Hle|].
  exfalso. assert (2 ^ n <= 2 ^ (Zpos (digits2_pos m) - 1)).
  { destruct (Z.le_gt_cases 0 n).
    - apply Z.pow_le_mono_r; lia.
    - rewrite (Z.pow_neg_r 2 n) by lia. apply Z.pow_nonneg. lia. }
  lia.
Qed.

Lemma SFdiv_core_binary_unfold (m1 e1 m2 e2 : Z) :
  SFdiv_core_binary 24 128 m1 e1 m2 e2
  = let e' := Z.min (fexp 24 128 (Zdigits2 m1 + e1 - (Zdigits2 m2 + e2))) (e1 - e2) in
    let s := e1 - e2 - e' in
    let m' := match s with
              | 0 => m1
              | Zpos _ => Z.shiftl m1 s
              | Zneg _ => 0
              end in
    (m' / m2, e', new_location m2 (m' mod m2)).
Proof.
  unfold SFdiv_core_binary. cbv zeta.
  change IntDef.Z.min with Z.min. change IntDef.Z.shiftl with Z.shiftl.
  change IntDef.Z.div_eucl with Z.div_eucl.
  unfold Z.div, Z.modulo.
  destruct (Z.div_eucl _ _) as [q r]. reflexivity.
Qed.

(** A mantissa that is already in place is returned as it is.  With a
    tie to break, it is kept if even and raised by one if odd. *)
Lemma binary_round_aux_in_place (s : bool) (m : positive) (e : Z) (l : location) :
  fexp 24 128 (Zpos (digits2_pos m) + e) = e ->
  exists m',
    shr_fexp 24 128 (Zpos m) e l = (shr_record_of_loc (Zpos m) l, e)
    /\ round_nearest_even (Zpos m) l = Zpos m'
    /\ Zpos m <= Zpos m' <= Zpos m + 1
    /\ (l = loc_Exact -> m' = m).
Proof.
  intro Hc. unfold shr_fexp. cbn [Zdigits2]. rewrite Hc, Z.sub_diag. cbn [shr].
  destruct l as [|[]]; cbn [round_nearest_even].
  - exists m. repeat split; try lia.
  - destruct (Z.even (Zpos m)).
    + exists m. repeat split; try lia.
    + exists (m + 1)%positive. repeat split; try lia; discriminate.
  - exists m. repeat split; try lia.
  - exists (m + 1)%positive. repeat split; try lia; discriminate.
Qed.

Lemma loc_of_shr_record_of_loc (m : Z) (l : location) :
  loc_of_shr_record (shr_record_of_loc m l) = l.
Proof. destruct l as [|[]]; reflexivity. Qed.

(** Rounding a mantissa of at most 23 digits at [emin]. *)
Lemma binary_round_aux_subnormal (s : bool) (m : positive) (l : location) :
  Zpos m < 2 ^ 23 ->
  exists m',
    binary_round_aux 24 128 s (Zpos m) (-149) l = S754_finite s m' (-149)
    /\ Zpos m <= Zpos m' <= Zpos m + 1
    /\ (l = loc_Exact -> m' = m).
Proof.
  intro Hm.
  assert (Hd : Zpos (digits2_pos m) <= 23) by (apply digits2_pos_le; exact Hm).
  assert (Hc : fexp 24 128 (Zpos (digits2_pos m) + -149) = -149)
    by (unfold fexp, emin; lia).
  destruct (@binary_round_aux_in_place s m (-149) l Hc) as (m' & E1 & E2 & Hb & Hx).
  assert (Hd' : Zpos (digits2_pos m') <= 24).
  { apply digits2_pos_le. change (2 ^ 24) with (2 * 2 ^ 23). lia. }
  assert (Hc' : fexp 24 128 (Zpos (digits2_pos m') + -149) = -149)
    by (unfold fexp, emin; lia).
  destruct (@binary_round_aux_in_place s m' (-149) loc_Exact Hc') as (m'' & E3 & _ & _ & E4).
  exists m'. split; [|split; [exact Hb|exact Hx]].
  unfold binary_round_aux. rewrite E1, shr_record_of_loc_m, loc_of_shr_record_of_loc.
  rewrite E2, E3. cbn. reflexivity.
Qed.

(** Rounding an exact mantissa that is in place. *)
Lemma binary_round_aux_exact (s : bool) (m : positive) (e : Z) :
  fexp 24 128 (Zpos (digits2_pos m) + e) = e -> e <= 104 ->
  binary_round_aux 24 128 s (Zpos m) e loc_Exact = S754_finite s m e.
Proof.
  intros Hc He.
  destruct (@binary_round_aux_in_place s m e loc_Exact Hc) as (m' & E1 & E2 & _ & E3).
  rewrite (E3 eq_refl) in E2.
  unfold binary_round_aux. rewrite E1. cbn [shr_record_of_loc shr_m loc_of_shr_record].
  cbn [round_nearest_even]. rewrite E1. cbn [shr_record_of_loc shr_m].
  replace (e <=? 128 - 24) with true by (symmetry; apply Z.leb_le; lia).
  reflexivity.
Qed.

(** Rounding twice an exact mantissa, one exponent too low. *)
Lemma binary_round_aux_double (s : bool) (m : positive) (e : Z) :
  fexp 24 128 (Zpos (digits2_pos m) + e) = e -> e <= 104 ->
  binary_round_aux 24 128 s (Zpos m~0) (e - 1) loc_Exact = S754_finite s m e.
Proof.
  intros Hc He. unfold binary_round_aux.
  assert (E1 : shr_fexp 24 128 (Zpos m~0) (e - 1) loc_Exact
               = (Build_shr_record (Zpos m) false false, e)).
  { unfold shr_fexp. cbn [Zdigits2 digits2_pos]. rewrite Pos2Z.inj_succ.
    replace (Z.succ (Zpos (digits2_pos m)) + (e - 1)) with (Zpos (digits2_pos m) + e)
      by lia.
    rewrite Hc. replace (e - (e - 1)) with 1 by lia.
    cbn. f_equal. lia. }
  rewrite E1. cbn [shr_m loc_of_shr_record round_nearest_even].
  destruct (@binary_round_aux_in_place s m e loc_Exact Hc) as (m' & E2 & _).
  rewrite E2. cbn [shr_record_of_loc shr_m].
  replace (e <=? 128 - 24) with true by (symmetry; apply Z.leb_le; lia).
  reflexivity.
Qed.

Lemma bounded_cases (m : positive) (e : Z) :
  SpecFloat.bounded 24 128 m e = true ->
  e <= 104
  /\ fexp 24 128 (Zpos (digits2_pos m) + e) = e
  /\ ((-149 < e /\ Zpos (digits2_pos m) = 24)
      \/ (e = -149 /\ Zpos (digits2_pos m) <= 24)).
Proof.
  unfold SpecFloat.bounded, canonical_mantissa. intro H.
  apply andb_prop in H. destruct H as [H1 H2].
  apply Z.eqb_eq in H1. apply Z.leb_le in H2.
  split; [lia|]. split; [exact H1|].
  unfold fexp, emin in H1. lia.
Qed.

(** Halving a finite value gives a zero or a finite value that is
    smaller in the measure. *)
Lemma halving_decreases (s : bool) (m : positive) (e : Z) :
  SpecFloat.bounded 24 128 m e = true ->
  fdiv (F:=binary32) (S754_finite s m e) ftwo = S754_zero s
  \/ exists m' e',
      fdiv (F:=binary32) (S754_finite s m e) ftwo = S754_finite s m' e'
      /\ SpecFloat.bounded 24 128 m' e' = true
      /\ (halving_measure (S754_finite s m' e')
          < halving_measure (S754_finite s m e))%nat.
Proof.
  intro Hb. destruct (@bounded_cases m e Hb) as (He & Hc & Hcases).
  change ftwo with (S754_finite false 8388608 (-22)).
  cbn [fdiv binary32_scalar SFdiv]. rewrite SFdiv_core_binary_unfold. cbv zeta.
  cbn [Zdigits2 digits2_pos Pos.succ]. rewrite xorb_false_r.
  destruct Hcases as [[Hlow Hd]|[-> Hd]].
  - rewrite Hd.
    destruct (Z.eq_dec e (-148)) as [->|Hne].
    + (* the quotient lands on [emin] with its 24 digits *)
      right. exists m, (-149).
      replace (Z.shiftl (Zpos m) 23 / 8388608) with (Zpos m)
        by (rewrite Z.shiftl_mul_pow2 by lia; symmetry; apply Z.div_mul; lia).
      cbn -[binary_round_aux Z.shiftl Z.modulo new_location].
      replace (Z.shiftl (Zpos m) 23 / 8388608) with (Zpos m)
        by (rewrite Z.shiftl_mul_pow2 by lia; symmetry; apply Z.div_mul; lia).
      replace (Z.shiftl (Zpos m) 23 mod 8388608) with 0
        by (rewrite Z.shiftl_mul_pow2 by lia; symmetry; apply Z.mod_mul; lia).
      assert (Hc' : fexp 24 128 (Zpos (digits2_pos m) + -149) = -149)
        by (unfold fexp, emin; lia).
      change (new_location 8388608 0) with loc_Exact.
      rewrite (@binary_round_aux_exact s m (-149) Hc') by lia.
      split; [reflexivity|]. split.
      * unfold SpecFloat.bounded, canonical_mantissa. rewrite Hc'. reflexivity.
      * cbn [halving_measure]. lia.
    + right. exists m, (e - 1).
      assert (E' : Z.min (fexp 24 128 (24 + e - (24 + -22))) (e - -22) = e - 2)
        by (unfold fexp, emin; lia).
      rewrite E'. replace (e - -22 - (e - 2)) with 24 by lia.
      replace (Z.shiftl (Zpos m) 24 / 8388608) with (Zpos m~0)
        by (rewrite Z.shiftl_mul_pow2 by lia; change (2 ^ 24) with (2 * 8388608);
            rewrite Z.mul_assoc; symmetry; rewrite Z.div_mul by lia; lia).
      replace (Z.shiftl (Zpos m) 24 mod 8388608) with 0
        by (rewrite Z.shiftl_mul_pow2 by lia; change (2 ^ 24) with (2 * 8388608);
            rewrite Z.mul_assoc; symmetry; apply Z.mod_mul; lia).
      change (new_location 8388608 0) with loc_Exact.
      assert (Hc' : fexp 24 128 (Zpos (digits2_pos m) + (e - 1)) = e - 1)
        by (unfold fexp, emin in *; lia).
      replace (e - 2) with (e - 1 - 1) by lia.
      rewrite (@binary_round_aux_double s m (e - 1) Hc') by lia.
      split; [reflexivity|]. split.
      * unfold SpecFloat.bounded, canonical_mantissa. rewrite Hc'.
        rewrite Z.eqb_refl. apply Z.leb_le. lia.
      * cbn [halving_measure]. lia.
  - assert (E' : Z.min (fexp 24 128 (Zpos (digits2_pos m) + -149 - (24 + -22)))
                       (-149 - -22) = -149)
      by (unfold fexp, emin; lia).
    rewrite E'. change (-149 - -22 - -149) with 22.
    assert (Hm : Zpos m < 2 ^ 24).
    { eapply Z.lt_le_trans; [apply digits2_pos_upper|].
      apply Z.pow_le_mono_r; lia. }
    rewrite Z.shiftl_mul_pow2 by lia. change (2 ^ 22) with 4194304.
    destruct m as [p|p|].
    + (* odd mantissa: a tie *)
      replace (Zpos p~1 * 4194304 / 8388608) with (Zpos p)
        by (apply Z.div_unique with (r := 4194304); lia).
      replace ((Zpos p~1 * 4194304) mod 8388608) with 4194304
        by (apply Z.mod_unique with (q := Zpos p); lia).
      change (new_location 8388608 4194304) with (loc_Inexact Eq).
      destruct (@binary_round_aux_subnormal s p (loc_Inexact Eq)) as (m' & E & Hm' & _);
        [change (2 ^ 24) with (2 * 2 ^ 23) in Hm; lia|].
      right. exists m', (-149). split; [exact E|]. split.
      * unfold SpecFloat.bounded, canonical_mantissa.
        assert (Zpos (digits2_pos m') <= 24).
        { apply digits2_pos_le. lia. }
        replace (fexp 24 128 (Zpos (digits2_pos m') + -149)) with (-149)
          by (unfold fexp, emin; lia).
        reflexivity.
      * cbn [halving_measure]. lia.
    + (* even mantissa: exact *)
      replace (Zpos p~0 * 4194304 / 8388608) with (Zpos p)
        by (apply Z.div_unique with (r := 0); lia).
      replace ((Zpos p~0 * 4194304) mod 8388608) with 0
        by (apply Z.mod_unique with (q := Zpos p); lia).
      change (new_location 8388608 0) with loc_Exact.
      destruct (@binary_round_aux_subnormal s p loc_Exact) as (m' & E & Hm' & Hx);
        [change (2 ^ 24) with (2 * 2 ^ 23) in Hm; lia|].
      specialize (Hx eq_refl). subst m'.
      right. exists p, (-149). split; [exact E|]. split.
      * unfold SpecFloat.bounded, canonical_mantissa.
        assert (Zpos (digits2_pos p) <= 24).
        { apply digits2_pos_le. lia. }
        replace (fexp 24 128 (Zpos (digits2_pos p) + -149)) with (-149)
          by (unfold fexp, emin; lia).
        reflexivity.
      * cbn [halving_measure]. lia.
    + (* the least positive value: half of it rounds to zero *)
      left. vm_compute. destruct s; reflexivity.
Qed.

Lemma halved_succ_r (K : nat) (w : binary32) :
  halved (S K) w = halved K (fdiv w ftwo).
Proof.
  induction K as [|K IH]; [reflexivity|].
  change (halved (S (S K)) w) with (fdiv (halved (S K) w) ftwo).
  rewrite IH. reflexivity.
Qed.

(** Every finite value becomes a zero after some number of halvings. *)
Lemma halving_reaches_zero (w : binary32) :
  is_finite32 w = true -> exists K, feqb (halved K w) fzero = true.
Proof.
  remember (halving_measure w) as n eqn:Hn. revert w Hn.
  induction n as [n IH] using lt_wf_ind. intros w Hn Hf.
  destruct w as [s|s| |s m e]; try discriminate.
  - exists 0%nat. destruct s; reflexivity.
  - cbn [is_finite32] in Hf.
    destruct (@halving_decreases s m e Hf) as [E|(m' & e' & E & Hb & Hlt)].
    + exists 1%nat. rewrite halved_succ_r, E. destruct s; reflexivity.
    + destruct (IH (halving_measure (S754_finite s m' e')) ltac:(lia)
                   (S754_finite s m' e') eq_refl Hb) as [K HK].
      exists (S K). rewrite halved_succ_r, E. exact HK.
Qed.

End Halving32.

(** C9, as the program has it.  In single precision, for every root
    boundary of finite width and every finite list of bodies, whether or
    not they lie at pairwise distinct positions or inside the boundary,
    inserting them all into a fresh root terminates: the width is zero
    after some number [K] of halvings, and every bound on the nesting of
    calls above [K] gives the same tree. *)
Theorem insert_all_terminates (b : FloatRect binary32) (bodies : list (point_t binary32)) :
  is_finite32 (rect_width b) = true ->
  exists K t,
    feqb (halved K (rect_width b)) fzero = true
    /\ forall fuel, (K < fuel)%nat ->
                    insert_all fuel (quad_node_init b) bodies = Done t.
Proof.
  intro Hf. destruct (halving_reaches_zero (rect_width b) Hf) as [K HK].
  destruct (@insert_all_terminates_generic _ _ binary32_zero_width_empty b K bodies HK)
    as [t Ht].
  exists K, t. split; [exact HK|].
  intros fuel Hfuel.
  apply (@insert_all_more_fuel _ _ (S K) fuel bodies (quad_node_init b) t); [lia|exact Ht].
Qed.

(** The root of [sim_thread] has a finite width, 320000; bodies at one
    position are no obstacle. *)
Lemma insert_all_terminates_witness :
  exists K t,
    feqb (halved K (rect_width (root_boundary (F:=binary32)))) fzero = true
    /\ forall fuel, (K < fuel)%nat ->
                    insert_all fuel (quad_node_init root_boundary)
                               [body_at_origin; body_at_origin; body_at_one_one] = Done t.
Proof.
  apply insert_all_terminates.
  vm_compute. reflexivity.
Defined.

(** For that root the width is zero after 168 halvings. *)
Lemma root_boundary_halvings :
  feqb (halved 168 (rect_width (root_boundary (F:=binary32)))) fzero = true
  /\ feqb (halved 167 (rect_width (root_boundary (F:=binary32)))) fzero = false.
Proof. split; vm_compute; reflexivity. Qed.

(** ** What insertion stores, in any arithmetic *)

Section Stores.

Context {F : Type} {SF : Scalar F}.

Lemma leaf_children (n : quad_node_t F) :
  quad_node_is_leaf n = true -> children n = [None; None; None; None].
Proof.
  destruct n as [tm com b pt [n0|] [n1|] [n2|] [n3|]]; simpl; intro H;
    try discriminate; reflexivity.
Qed.

Lemma contained_init (b : FloatRect F) : contained (quad_node_init b).
Proof. simpl. tauto. Qed.

Lemma quad_node_insert_boundary (fuel : nat) (n n' : quad_node_t F) (p : point_t F) :
  quad_node_insert fuel n p = Done n' -> boundary n' = boundary n.
Proof.
  destruct fuel as [|fuel]; [discriminate|].
  rewrite quad_node_insert_succ.
  destruct (negb (rect_contains (boundary n) (position p))).
  { intro H. inv H. reflexivity. }
  destruct (quad_node_is_leaf n).
  - destruct (point n) as [save|] eqn:Hp.
    + intro H. apply bind_Done in H. destruct H as (n2 & H1 & H2).
      apply for_children_Done in H1.
      destruct H1 as (m0 & m1 & m2 & m3 & m0' & m1' & m2' & m3' & _ & -> & _).
      apply for_children_Done in H2.
      destruct H2 as (k0 & k1 & k2 & k3 & k0' & k1' & k2' & k3' & _ & -> & _).
      destruct n. reflexivity.
    + intro H. inv H. destruct n. reflexivity.
  - intro H. apply for_children_Done in H.
    destruct H as (m0 & m1 & m2 & m3 & m0' & m1' & m2' & m3' & _ & -> & _).
    reflexivity.
Qed.

(** Insertion keeps every occupant inside the boundary of its node. *)
Lemma quad_node_insert_contained (fuel : nat) :
  forall (n n' : quad_node_t F) (p : point_t F),
    contained n -> quad_node_insert fuel n p = Done n' -> contained n'.
Proof.
  induction fuel as [|fuel IH]; intros n n' p C H; [discriminate|].
  rewrite quad_node_insert_succ in H.
  destruct (rect_contains (boundary n) (position p)) eqn:Hin; cbn [negb] in H.
  2:{ inv H. exact C. }
  destruct (quad_node_is_leaf n) eqn:Hl.
  - apply leaf_children in Hl.
    destruct n as [tm com b pt c0 c1 c2 c3]. cbn [children] in Hl. inv Hl.
    cbn [point set_point quad_node_subdivide boundary] in *.
    destruct pt as [save|].
    + apply bind_Done in H. destruct H as (n2 & H1 & H2).
      apply for_children_Done in H1.
      destruct H1 as (m0 & m1 & m2 & m3 & m0' & m1' & m2' & m3' & Hc & -> & E0 & E1 & E2 & E3).
      cbn in Hc. inv Hc.
      apply for_children_Done in H2.
      destruct H2 as (k0 & k1 & k2 & k3 & k0' & k1' & k2' & k3' & Hc & -> & G0 & G1 & G2 & G3).
      cbn in Hc. inv Hc.
      apply IH in E0; [|apply contained_init]. apply IH in E1; [|apply contained_init].
      apply IH in E2; [|apply contained_init]. apply IH in E3; [|apply contained_init].
      apply IH in G0; [|assumption]. apply IH in G1; [|assumption].
      apply IH in G2; [|assumption]. apply IH in G3; [|assumption].
      cbn. auto.
    + inv H. cbn. auto.
  - apply for_children_Done in H.
    destruct H as (m0 & m1 & m2 & m3 & m0' & m1' & m2' & m3' & Hc & -> & E0 & E1 & E2 & E3).
    destruct n as [tm com b pt c0 c1 c2 c3]. cbn [children] in Hc. inv Hc.
    cbn in C. destruct C as (Cp & C0 & C1 & C2 & C3).
    apply IH in E0; [|assumption]. apply IH in E1; [|assumption].
    apply IH in E2; [|assumption]. apply IH in E3; [|assumption].
    cbn. auto.
Qed.

Lemma insert_all_contained (fuel : nat) (ps : list (point_t F)) :
  forall n n' : quad_node_t F,
    contained n -> insert_all fuel n ps = Done n' -> contained n'.
Proof.
  induction ps as [|p ps IH]; intros n n' C H; cbn [insert_all] in H.
  - inv H. exact C.
  - apply bind_Done in H. destruct H as (m & H1 & H2).
    eapply IH; [|exact H2]. eapply quad_node_insert_contained; eassumption.
Qed.

Lemma contained_nodes (t : quad_node_t F) :
  contained t ->
  forall n, In n (nodes t) ->
  forall q, In q (occupants n) -> rect_contains (boundary n) (position q) = true.
Proof.
  induction t as [tm com b pt c0 c1 c2 c3 I0 I1 I2 I3] using quad_node_t_ind.
  intros (Cp & C0 & C1 & C2 & C3) n Hn q Hq. cbn [nodes] in Hn.
  destruct Hn as [<-|Hn].
  - unfold occupants in Hq. cbn [point boundary] in *.
    destruct pt as [q'|]; [|contradiction].
    destruct Hq as [<-|[]]. exact Cp.
  - repeat (apply in_app_or in Hn; destruct Hn as [Hn|Hn]).
    + destruct c0; [|contradiction]. exact (I0 C0 n Hn q Hq).
    + destruct c1; [|contradiction]. exact (I1 C1 n Hn q Hq).
    + destruct c2; [|contradiction]. exact (I2 C2 n Hn q Hq).
    + destruct c3; [|contradiction]. exact (I3 C3 n Hn q Hq).
Qed.

(** Every body a tree stores after an insertion was stored before, or is
    the inserted body, which then lies inside the boundary of the
    node. *)
Lemma quad_node_insert_stored (fuel : nat) :
  forall (n n' : quad_node_t F) (p : point_t F),
    quad_node_insert fuel n p = Done n' ->
    forall q, In q (stored n') ->
              In q (stored n)
              \/ (q = p /\ rect_contains (boundary n) (position p) = true).
Proof.
  induction fuel as [|fuel IH]; intros n n' p H q Hq; [discriminate|].
  rewrite quad_node_insert_succ in H.
  destruct (rect_contains (boundary n) (position p)) eqn:Hin; cbn [negb] in H.
  2:{ inv H. left. exact Hq. }
  destruct (quad_node_is_leaf n) eqn:Hl.
  - apply leaf_children in Hl.
    destruct n as [tm com b pt c0 c1 c2 c3]. cbn [children] in Hl. inv Hl.
    cbn [point set_point quad_node_subdivide boundary] in *.
    destruct pt as [save|].
    + apply bind_Done in H. destruct H as (n2 & H1 & H2).
      apply for_children_Done in H1.
      destruct H1 as (m0 & m1 & m2 & m3 & m0' & m1' & m2' & m3' & Hc & -> & E0 & E1 & E2 & E3).
      cbn in Hc. inv Hc.
      apply for_children_Done in H2.
      destruct H2 as (k0 & k1 & k2 & k3 & k0' & k1' & k2' & k3' & Hc & -> & G0 & G1 & G2 & G3).
      cbn in Hc. inv Hc.
      assert (Hsave : forall r m k,
                 quad_node_insert fuel (quad_node_init r) save = Done m ->
                 quad_node_insert fuel m p = Done k ->
                 In q (stored k) -> q = save \/ q = p).
      { intros r m k Em Gk Hk.
        destruct (IH _ _ _ Gk q Hk) as [Hm|[-> _]]; [|auto].
        destruct (IH _ _ _ Em q Hm) as [[]|[-> _]]. auto. }
      cbn [stored occupants point app] in Hq.
      assert (Hor : q = save \/ q = p).
      { repeat (apply in_app_or in Hq; destruct Hq as [Hq|Hq]).
        - exact (Hsave _ _ _ E0 G0 Hq).
        - exact (Hsave _ _ _ E1 G1 Hq).
        - exact (Hsave _ _ _ E2 G2 Hq).
        - exact (Hsave _ _ _ E3 G3 Hq). }
      destruct Hor as [->| ->]; [left; cbn; auto | right; auto].
    + inv H. cbn in Hq. destruct Hq as [<-|[]]. right. auto.
  - apply for_children_Done in H.
    destruct H as (m0 & m1 & m2 & m3 & m0' & m1' & m2' & m3' & Hc & -> & E0 & E1 & E2 & E3).
    destruct n as [tm com b pt c0 c1 c2 c3]. cbn [children] in Hc. inv Hc.
    cbn [stored occupants point total_mass center_of_mass boundary] in *.
    apply in_app_or in Hq. destruct Hq as [Hq|Hq].
    { left. apply in_or_app. left. exact Hq. }
    assert (Hchild : forall m m', quad_node_insert fuel m p = Done m' ->
                                  In q (stored m') -> In q (stored m) \/ q = p).
    { intros m m' Em Hm. destruct (IH _ _ _ Em q Hm) as [?|[-> _]]; auto. }
    assert (Hor : In q (stored m0 ++ stored m1 ++ stored m2 ++ stored m3) \/ q = p).
    { repeat (apply in_app_or in Hq; destruct Hq as [Hq|Hq]).
      - destruct (Hchild _ _ E0 Hq); auto using in_or_app.
      - destruct (Hchild _ _ E1 Hq); auto 6 using in_or_app.
      - destruct (Hchild _ _ E2 Hq); auto 8 using in_or_app.
      - destruct (Hchild _ _ E3 Hq); auto 8 using in_or_app. }
    destruct Hor as [Hor| ->]; [left; apply in_or_app; auto | right; auto].
Qed.

Lemma insert_all_stored (fuel : nat) (ps : list (point_t F)) :
  forall n n' : quad_node_t F,
    insert_all fuel n ps = Done n' ->
    forall q, In q (stored n') ->
              In q (stored n)
              \/ (In q ps /\ rect_contains (boundary n) (position q) = true).
Proof.
  induction ps as [|p ps IH]; intros n n' H q Hq; cbn [insert_all] in H.
  - inv H. left. exact Hq.
  - apply bind_Done in H. destruct H as (m & H1 & H2).
    destruct (IH _ _ H2 q Hq) as [Hm|[Hin Hc]].
    + destruct (quad_node_insert_stored _ _ _ H1 q Hm) as [?|[-> ?]]; [auto|].
      right. split; [left; reflexivity | assumption].
    + right. split; [right; exact Hin|].
      rewrite <- (quad_node_insert_boundary _ _ _ H1). exact Hc.
Qed.

(** Bodies outside the boundary of the root leave the tree as it is. *)
Lemma insert_all_outside (fuel : nat) (n : quad_node_t F) (ps : list (point_t F)) :
  Forall (fun p => rect_contains (boundary n) (position p) = false) ps ->
  insert_all (S fuel) n ps = Done n.
Proof.
  induction 1 as [|p ps Hp _ IH]; [reflexivity|].
  cbn [insert_all]. rewrite (quad_node_insert_outside fuel n p Hp). exact IH.
Qed.

End Stores.

(** ** Traversals of a tree that insertion built *)

Section Traversals.

Context {F : Type} {SF : Scalar F}.

(** Aggregation meets no null child in a tree whose nodes have all of
    their children or none. *)
Lemma quad_node_compute_mass_total (n : quad_node_t F) :
  complete n = true -> exists n', quad_node_compute_mass n = Some n'.
Proof.
  induction n as [tm com b pt c0 c1 c2 c3 I0 I1 I2 I3] using quad_node_t_ind.
  intro C.
  destruct (complete_cases _ C)
    as [[Hc Hl] | (n0 & n1 & n2 & n3 & Hc & Hl & C0 & C1 & C2 & C3)];
    cbn [children] in Hc; inv Hc; cbn [quad_node_compute_mass forallb is_null andb].
  - destruct pt; eauto.
  - cbn [child_holds] in *.
    destruct (I0 C0) as (m0 & ->), (I1 C1) as (m1 & ->),
             (I2 C2) as (m2 & ->), (I3 C3) as (m3 & ->).
    cbn [obind]. eauto.
Qed.

(** Neither does the force traversal. *)
Lemma quad_node_compute_force_total (g : globals F) (n : quad_node_t F) :
  complete n = true -> forall p, exists p', quad_node_compute_force g n p = Some p'.
Proof.
  induction n as [tm com b pt c0 c1 c2 c3 I0 I1 I2 I3] using quad_node_t_ind.
  intros C p. cbn [quad_node_compute_force].
  destruct (force_skipped _ p); [eauto|].
  destruct (force_accepted g _ p) eqn:Ha; [eauto|].
  destruct (complete_cases _ C)
    as [[Hc Hl] | (n0 & n1 & n2 & n3 & Hc & Hl & C0 & C1 & C2 & C3)];
    cbn [children] in Hc; inv Hc; cbn [child_holds] in *.
  - unfold force_accepted in Ha. rewrite Hl in Ha. discriminate.
  - destruct (I0 C0 p) as (p0 & ->). cbn [obind].
    destruct (I1 C1 p0) as (p1 & ->). cbn [obind].
    destruct (I2 C2 p1) as (p2 & ->). cbn [obind].
    exact (I3 C3 p2).
Qed.

End Traversals.

(** ** What aggregation computes, in any arithmetic *)

Section Aggregation.

Context {F : Type} {SF : Scalar F}.

Lemma quad_node_compute_mass_cases (n n' : quad_node_t F) :
  quad_node_compute_mass n = Some n' ->
  (children n = [None; None; None; None]
   /\ n' = match point n with
           | Some p => QuadNode (mass p) (position p) (boundary n) (point n)
                                None None None None
           | None => n
           end)
  \/ (exists n0 n1 n2 n3 m0 m1 m2 m3,
        children n = [Some n0; Some n1; Some n2; Some n3]
        /\ quad_node_compute_mass n0 = Some m0 /\ quad_node_compute_mass n1 = Some m1
        /\ quad_node_compute_mass n2 = Some m2 /\ quad_node_compute_mass n3 = Some m3
        /\ let tm := fadd (fadd (fadd (fadd fzero (total_mass m0)) (total_mass m1))
                                (total_mass m2))
                          (total_mass m3) in
           n' = QuadNode tm
                  (if fgtb tm fzero
                   then vec_div (weighted_sum m0 m1 m2 m3) tm
                   else weighted_sum m0 m1 m2 m3)
                  (boundary n) (point n) (Some m0) (Some m1) (Some m2) (Some m3)).
Proof.
  destruct n as [tm com b pt c0 c1 c2 c3]. cbn [quad_node_compute_mass].
  destruct (forallb is_null [c0; c1; c2; c3]) eqn:Hl.
  - intro H. left.
    assert (Hc : c0 = None /\ c1 = None /\ c2 = None /\ c3 = None).
    { destruct c0, c1, c2, c3; try discriminate. auto. }
    destruct Hc as (-> & -> & -> & ->). cbn [children point boundary].
    split; [reflexivity|]. destruct pt; inv H; reflexivity.
  - intro H. right.
    apply obind_Some in H; destruct H as (m0 & E0 & H).
    apply obind_Some in H; destruct H as (m1 & E1 & H).
    apply obind_Some in H; destruct H as (m2 & E2 & H).
    apply obind_Some in H; destruct H as (m3 & E3 & H).
    destruct c0 as [n0|]; [|discriminate]. destruct c1 as [n1|]; [|discriminate].
    destruct c2 as [n2|]; [|discriminate]. destruct c3 as [n3|]; [|discriminate].
    exists n0, n1, n2, n3, m0, m1, m2, m3. inv H. cbn. auto 10.
Qed.

Lemma quad_node_compute_mass_aggregated (n : quad_node_t F) :
  forall n', quad_node_compute_mass n = Some n' -> aggregated n'.
Proof.
  induction n as [tm com b pt c0 c1 c2 c3 I0 I1 I2 I3] using quad_node_t_ind.
  intros n' H.
  destruct (quad_node_compute_mass_cases _ H)
    as [[Hc ->] | (n0 & n1 & n2 & n3 & m0 & m1 & m2 & m3 & Hc & E0 & E1 & E2 & E3 & ->)];
    cbn [children] in Hc; inv Hc.
  - cbn [point boundary]. destruct pt; cbn; auto.
  - cbn [child_holds] in *.
    cbn [aggregated aggregated_node]. auto 10.
Qed.

Lemma aggregated_nodes (t : quad_node_t F) :
  aggregated t -> forall n, In n (nodes t) -> aggregated_node n.
Proof.
  induction t as [tm com b pt c0 c1 c2 c3 I0 I1 I2 I3] using quad_node_t_ind.
  intros (A & A0 & A1 & A2 & A3) n Hn. cbn [nodes] in Hn.
  destruct Hn as [<-|Hn]; [exact A|].
  repeat (apply in_app_or in Hn; destruct Hn as [Hn|Hn]).
  - destruct c0; [|contradiction]. exact (I0 A0 n Hn).
  - destruct c1; [|contradiction]. exact (I1 A1 n Hn).
  - destruct c2; [|contradiction]. exact (I2 A2 n Hn).
  - destruct c3; [|contradiction]. exact (I3 A3 n Hn).
Qed.

(** Insertion leaves every aggregate at the zero of a fresh node. *)
Lemma blank_init (b : FloatRect F) : blank (quad_node_init b).
Proof. cbn. auto. Qed.

Lemma quad_node_insert_blank (fuel : nat) :
  forall (n n' : quad_node_t F) (p : point_t F),
    blank n -> quad_node_insert fuel n p = Done n' -> blank n'.
Proof.
  induction fuel as [|fuel IH]; intros n n' p C H; [discriminate|].
  rewrite quad_node_insert_succ in H.
  destruct (negb (rect_contains (boundary n) (position p))).
  { inv H. exact C. }
  destruct (quad_node_is_leaf n) eqn:Hl.
  - apply leaf_children in Hl.
    destruct n as [tm com b pt c0 c1 c2 c3]. cbn [children] in Hl. inv Hl.
    cbn [point set_point quad_node_subdivide boundary] in *.
    destruct C as (Cz & _).
    destruct pt as [save|].
    + apply bind_Done in H. destruct H as (n2 & H1 & H2).
      apply for_children_Done in H1.
      destruct H1 as (m0 & m1 & m2 & m3 & m0' & m1' & m2' & m3' & Hc & -> & E0 & E1 & E2 & E3).
      cbn in Hc. inv Hc.
      apply for_children_Done in H2.
      destruct H2 as (k0 & k1 & k2 & k3 & k0' & k1' & k2' & k3' & Hc & -> & G0 & G1 & G2 & G3).
      cbn in Hc. inv Hc.
      apply IH in E0; [|apply blank_init]. apply IH in E1; [|apply blank_init].
      apply IH in E2; [|apply blank_init]. apply IH in E3; [|apply blank_init].
      apply IH in G0; [|assumption]. apply IH in G1; [|assumption].
      apply IH in G2; [|assumption]. apply IH in G3; [|assumption].
      cbn. auto.
    + inv H. cbn. auto.
  - apply for_children_Done in H.
    destruct H as (m0 & m1 & m2 & m3 & m0' & m1' & m2' & m3' & Hc & -> & E0 & E1 & E2 & E3).
    destruct n as [tm com b pt c0 c1 c2 c3]. cbn [children] in Hc. inv Hc.
    cbn in C. destruct C as (Cp & C0 & C1 & C2 & C3).
    apply IH in E0; [|assumption]. apply IH in E1; [|assumption].
    apply IH in E2; [|assumption]. apply IH in E3; [|assumption].
    cbn. auto.
Qed.

Lemma insert_all_blank (fuel : nat) (ps : list (point_t F)) :
  forall n n' : quad_node_t F,
    blank n -> insert_all fuel n ps = Done n' -> blank n'.
Proof.
  induction ps as [|p ps IH]; intros n n' C H; cbn [insert_all] in H.
  - inv H. exact C.
  - apply bind_Done in H. destruct H as (m & H1 & H2).
    eapply IH; [|exact H2]. eapply quad_node_insert_blank; eassumption.
Qed.

(** On a tree without aggregates the mass aggregation leaves in the root
    is the sum of the stored masses, added in the order of the
    children. *)
Lemma quad_node_compute_mass_stored_mass (n : quad_node_t F) :
  forall n', blank n -> quad_node_compute_mass n = Some n' ->
             total_mass n' = stored_mass n.
Proof.
  induction n as [tm com b pt c0 c1 c2 c3 I0 I1 I2 I3] using quad_node_t_ind.
  intros n' Bl H.
  destruct (quad_node_compute_mass_cases _ H)
    as [[Hc ->] | (n0 & n1 & n2 & n3 & m0 & m1 & m2 & m3 & Hc & E0 & E1 & E2 & E3 & ->)];
    cbn [children] in Hc; inv Hc.
  - cbn [point boundary]. destruct Bl as ((-> & _) & _). destruct pt; reflexivity.
  - cbn [child_holds] in *. destruct Bl as (_ & B0 & B1 & B2 & B3).
    cbn [total_mass stored_mass].
    rewrite (I0 _ B0 E0), (I1 _ B1 E1), (I2 _ B2 E2), (I3 _ B3 E3). reflexivity.
Qed.

End Aggregation.

(** ** One step and one frame, in any arithmetic *)

Section StepFacts.

Context {F : Type} {SF : Scalar F}.

Lemma advance_body_advanced (g : globals F) (root : quad_node_t F) (p p' : point_t F) :
  advance_body g root p = Some p' -> advanced g p p'.
Proof.
  unfold advance_body. intro H.
  apply obind_Some in H. destruct H as (q & Hq & H). inv H.
  destruct (quad_node_compute_force_position _ _ _ Hq) as [Hpos Hm].
  unfold advanced. cbn [mass position velocity]. rewrite Hpos, Hm. auto.
Qed.

Lemma advance_all_advanced (g : globals F) (root : quad_node_t F) (ps : list (point_t F)) :
  forall ps', advance_all g root ps = Some ps' -> Forall2 (advanced g) ps ps'.
Proof.
  induction ps as [|p ps IH]; intros ps' H; cbn [advance_all] in H.
  - inv H. constructor.
  - apply obind_Some in H. destruct H as (p' & Hp & H).
    apply obind_Some in H. destruct H as (ps'' & Hps & H). inv H.
    constructor; [eapply advance_body_advanced; eassumption | apply IH; exact Hps].
Qed.

Lemma advance_all_total (g : globals F) (root : quad_node_t F) (ps : list (point_t F)) :
  complete root = true -> exists ps', advance_all g root ps = Some ps'.
Proof.
  intro C. induction ps as [|p ps (ps' & IH)]; cbn [advance_all]; [eauto|].
  unfold advance_body.
  destruct (quad_node_compute_force_total g root C p) as (q & ->). cbn [obind].
  rewrite IH. cbn [obind]. eauto.
Qed.

Lemma compute_step_Done (fuel : nat) (g : globals F) (ps ps' : list (point_t F)) :
  compute_step fuel g ps = Done ps' ->
  exists built root,
    insert_all fuel (quad_node_init root_boundary) ps = Done built
    /\ quad_node_compute_mass built = Some root
    /\ advance_all g root ps = Some ps'.
Proof.
  unfold compute_step. intro H.
  apply bind_Done in H. destruct H as (built & Hb & H).
  apply bind_Done in H. destruct H as (root & Hm & H).
  exists built, root. split; [exact Hb|].
  destruct (quad_node_compute_mass built); [|discriminate]. inv Hm.
  destruct (advance_all g root ps); [|discriminate]. inv H. auto.
Qed.

(** Once insertion has returned, the rest of the step returns too. *)
Lemma compute_step_after_insert (fuel : nat) (g : globals F) (ps : list (point_t F))
  (built : quad_node_t F) :
  insert_all fuel (quad_node_init root_boundary) ps = Done built ->
  exists ps', compute_step fuel g ps = Done ps'.
Proof.
  intro Hb. unfold compute_step. rewrite Hb. cbn [bind].
  assert (C : complete built = true).
  { apply well_formed_complete.
    apply insert_all_well_formed in Hb; [tauto | apply well_formed_init]. }
  destruct (quad_node_compute_mass_total built C) as (root & Hm).
  rewrite Hm. cbn [lift bind].
  destruct (advance_all_total g root ps
              (quad_node_compute_mass_complete built C Hm)) as (ps' & Ha).
  rewrite Ha. cbn [lift]. eauto.
Qed.

Lemma Forall2_advanced_length (g : globals F) (ps ps' : list (point_t F)) :
  Forall2 (advanced g) ps ps' -> length ps' = length ps /\ map (@mass F) ps' = map (@mass F) ps.
Proof.
  induction 1 as [|p p' ps ps' [Hm _] _ [IHl IHm]]; [auto|].
  cbn. rewrite IHl, IHm, Hm. auto.
Qed.

(** With zero equal to itself, a tree that holds nothing exerts no
    force. *)
Lemma advance_all_empty_tree (g : globals F) (b : FloatRect F) (ps : list (point_t F)) :
  feqb (F:=F) fzero fzero = true ->
  advance_all g (quad_node_init b) ps = Some (map (coast g) ps).
Proof.
  intro Hz. induction ps as [|p ps IH]; [reflexivity|].
  cbn [advance_all map]. rewrite IH.
  unfold advance_body. cbn [quad_node_compute_force quad_node_init].
  unfold force_skipped. cbn [total_mass]. rewrite Hz. reflexivity.
Qed.

(** What the vertex loop reads is in range exactly when the previous
    render copy is not the shorter one. *)
Lemma frame_positions_Some (alpha : F) (current : list (point_t F)) :
  forall previous,
    (length current <= length previous)%nat ->
    exists vs, frame_positions previous current alpha = Some vs
               /\ length vs = length current.
Proof.
  induction current as [|c cs IH]; intros previous Hl; cbn [frame_positions].
  - exists []. split; reflexivity.
  - destruct previous as [|p ps]; [cbn in Hl; lia|].
    destruct (IH ps) as (vs & -> & Hv); [cbn in Hl; lia|].
    cbn [obind]. eexists. split; [reflexivity|]. cbn. rewrite Hv. reflexivity.
Qed.

Lemma frame_positions_None (alpha : F) (current : list (point_t F)) :
  forall previous,
    (length previous < length current)%nat ->
    frame_positions previous current alpha = None.
Proof.
  induction current as [|c cs IH]; intros previous Hl; cbn [frame_positions].
  - cbn in Hl. lia.
  - destruct previous as [|p ps]; [reflexivity|].
    rewrite IH; [reflexivity | cbn in Hl; lia].
Qed.

Local Open Scope thread_scope.

(** One frame of the consumer, whatever it finds. *)
Lemma consumer_frame_Done (do_interpolate : bool) (now : Z) (r : render_state (F:=F))
  (v : thread_view (F:=F)) :
  exists reads,
    consumer_frame do_interpolate now r v
    = Done ((if update_done v
             then mk_render (points_previous (shared v)) (points_current (shared v))
             else r,
             if do_interpolate
             then Some (duration_seconds (now - last_sim_update (shared v)),
                        sim_update_interval (shared v))
             else None),
            mk_view (shared v) false (update_done v || do_update v) (holds_lock v)
                    (map (fun x => mk_event (Read x) (holds_lock v)) reads ++ trace v)).
Proof.
  destruct v as [s done upd h tr].
  destruct do_interpolate, done.
  - exists [var_sim_update_interval; var_last_sim_update;
            var_points_current; var_points_previous]. reflexivity.
  - exists [var_sim_update_interval; var_last_sim_update]. reflexivity.
  - exists [var_last_sim_update; var_points_current; var_points_previous]. reflexivity.
  - exists [var_last_sim_update]. reflexivity.
Qed.

End StepFacts.

Section RoundFacts.

Context {F : Type} {SF : Scalar F}.

(** A round of the loop returns as soon as its computation does. *)
Lemma sim_thread_step_total (fuel : nat) (g : globals F) (now prev : Z)
  (v : thread_view (F:=F)) (working : list (point_t F)) :
  compute_step fuel g (points_current (shared v)) = Done working ->
  exists v', sim_thread_step fuel g now prev v = Done (now, v').
Proof.
  intro Hw. destruct v as [s d u h tr]. cbn [shared] in Hw.
  unfold sim_thread_step.
  cbv beta iota delta
    [lock_guard mbind set_lock read_points_current log get_shared ret
       shared update_done do_update holds_lock trace lift_outcome].
  rewrite Hw.
  cbv [lock_guard mbind set_lock read_points_previous read_points_current
         write_points_previous write_points_current write_last_sim_update
         write_sim_update_interval log get_shared put_shared ret store_update_done
         shared update_done do_update holds_lock trace
         points_previous points_current last_sim_update sim_update_interval].
  eexists. reflexivity.
Qed.

Lemma sim_thread_steps_total (fuel : nat) (g : globals F) (nows : list Z) :
  (forall ps, exists ps', compute_step fuel g ps = Done ps') ->
  forall prev v, exists t v', sim_thread_steps fuel g nows prev v = Done (t, v').
Proof.
  intro Hc. induction nows as [|now nows IH]; intros prev v.
  - exists prev, v. reflexivity.
  - cbn [sim_thread_steps]. unfold mbind at 1.
    destruct (Hc (points_current (shared v))) as (w & Hw).
    destruct (sim_thread_step_total fuel g now prev v Hw) as (v1 & ->).
    apply IH.
Qed.

End RoundFacts.

(** ** Single precision: order, signs, and the whole step *)

Section Single.

Local Open Scope Z_scope.

(** Comparing the other way round gives the opposite answer. *)
Lemma SFcompare_flip (x y : binary32) (c : comparison) :
  SFcompare x y = Some c -> SFcompare y x = Some (CompOpp c).
Proof.
  destruct x as [sx|sx| |sx mx ex], y as [sy|sy| |sy my ey];
    cbn [SFcompare]; try discriminate;
    try (destruct sx; intro H; inv H; reflexivity);
    try (destruct sy; intro H; inv H; reflexivity);
    try (destruct sx, sy; intro H; inv H; reflexivity).
  change (Pos.compare_cont Eq mx my) with (Pos.compare mx my).
  change (Pos.compare_cont Eq my mx) with (Pos.compare my mx).
  rewrite (Z.compare_antisym ex ey), (Pos.compare_antisym mx my).
  destruct sx, sy; intro H; inv H; try reflexivity;
    destruct (ex ?= ey); cbn [CompOpp]; try reflexivity;
    destruct (mx ?= my)%positive; reflexivity.
Qed.

Lemma SFcompare_nan (x y : binary32) :
  is_nan x = false -> is_nan y = false -> exists c, SFcompare x y = Some c.
Proof.
  destruct x as [sx|sx| |sx mx ex], y as [sy|sy| |sy my ey];
    cbn [SFcompare is_nan]; try discriminate; eauto.
Qed.

(** For values that are not NaNs, [a < b] fails exactly when [b <= a]. *)
Lemma fltb_false_fleb (a b : binary32) :
  is_nan a = false -> is_nan b = false -> fltb a b = false -> fleb b a = true.
Proof.
  intros Ha Hb. cbn [fltb fleb binary32_scalar]. unfold SFltb, SFleb.
  destruct (SFcompare_nan a b Ha Hb) as (c & Hc).
  rewrite Hc, (SFcompare_flip a b Hc).
  destruct c; cbn; congruence.
Qed.

Lemma fltb_nan_l (a b : binary32) : is_nan a = true -> fltb a b = false.
Proof. destruct a; try discriminate. reflexivity. Qed.

Lemma fltb_nan_r (a b : binary32) : is_nan b = true -> fltb a b = false.
Proof. destruct b; try discriminate. destruct a; reflexivity. Qed.

(** [std::clamp] between zero and one. *)
Lemma clamp_unit (x : binary32) :
  (is_nan x = true /\ is_nan (clamp x fzero (of_Z 1)) = true)
  \/ (is_nan x = false
      /\ fleb fzero (clamp x fzero (of_Z 1)) = true
      /\ fleb (clamp x fzero (of_Z 1)) (of_Z 1) = true
      /\ (fleb fzero x = true -> fleb x (of_Z 1) = true ->
          clamp x fzero (of_Z 1) = x)).
Proof.
  destruct (is_nan x) eqn:Hn.
  - left. split; [reflexivity|].
    unfold clamp, fmax. rewrite (fltb_nan_l x fzero Hn).
    unfold fmin. rewrite (fltb_nan_r (of_Z 1) x Hn). exact Hn.
  - right. split; [reflexivity|].
    unfold clamp, fmax.
    destruct (fltb x fzero) eqn:H0.
    + unfold fmin. replace (fltb (of_Z 1) (fzero : binary32)) with false by reflexivity.
      split; [reflexivity|]. split; [reflexivity|].
      intros Hx _. exfalso. exact (fltb_fleb_exclusive _ _ Hx H0).
    + unfold fmin. destruct (fltb (of_Z 1) x) eqn:H1.
      * split; [reflexivity|]. split; [reflexivity|].
        intros _ Hx. exfalso. exact (fltb_fleb_exclusive _ _ Hx H1).
      * split; [apply fltb_false_fleb; auto|].
        split; [apply fltb_false_fleb; auto|]. reflexivity.
Qed.

(** Adding a zero to a value leaves what it compares equal to. *)
Lemma fadd_zero_feqb (p w : binary32) :
  is_nan p = false -> feqb w fzero = true -> feqb (fadd p w) p = true.
Proof.
  intros Hp Hw. cbn [feqb binary32_scalar]. unfold SFeqb.
  destruct (SFadd_zero_compare p w p Hw) as [-> _].
  destruct p as [s|s| |s m e]; try discriminate.
  - reflexivity.
  - destruct s; reflexivity.
  - rewrite SFcompare_refl_finite. reflexivity.
Qed.

Lemma fmul_zero_feqb (d : binary32) :
  finite_or_zero d = true -> feqb (fmul d fzero) fzero = true.
Proof.
  destruct d as [s|s| |s m e]; try discriminate; intros _; reflexivity.
Qed.

Lemma fsub_finite_not_nan (c p : binary32) :
  finite_or_zero (fsub c p) = true -> is_nan p = false.
Proof.
  destruct p as [s|s| |s m e]; try reflexivity.
  destruct c; discriminate.
Qed.

(** *** Signs *)

Lemma binary_round_aux_sign (s : bool) (m e : Z) (l : location) :
  nan_or_sign s (binary_round_aux 24 128 s m e l).
Proof.
  unfold binary_round_aux.
  destruct (shr_fexp 24 128 m e l) as [mrs' e'].
  destruct (shr_fexp 24 128 _ e' loc_Exact) as [mrs'' e''].
  destruct (shr_m mrs''); [reflexivity| |exact I].
  destruct (e'' <=? 128 - 24); reflexivity.
Qed.

Lemma fmul_sign (a b : bool) (x y : binary32) :
  nan_or_sign a x -> nan_or_sign b y -> nan_or_sign (xorb a b) (fmul x y).
Proof.
  cbn [fmul binary32_scalar].
  destruct x as [sx|sx| |sx mx ex], y as [sy|sy| |sy my ey];
    unfold nan_or_sign; cbn [SFmul sign_bit]; try (intros; exact I);
    intros -> ->; try reflexivity.
  apply binary_round_aux_sign.
Qed.

Lemma fdiv_sign (a b : bool) (x y : binary32) :
  nan_or_sign a x -> nan_or_sign b y -> nan_or_sign (xorb a b) (fdiv x y).
Proof.
  cbn [fdiv binary32_scalar].
  destruct x as [sx|sx| |sx mx ex], y as [sy|sy| |sy my ey];
    unfold nan_or_sign; cbn [SFdiv sign_bit]; try (intros; exact I);
    intros -> ->; try reflexivity.
  destruct (SFdiv_core_binary 24 128 (Zpos mx) ex (Zpos my) ey) as [[mz ez] lz].
  apply binary_round_aux_sign.
Qed.

Lemma binary_normalize_pos_sign (m : positive) (e : Z) :
  nan_or_sign false (binary_normalize 24 128 (Zpos m) e false).
Proof.
  cbn [binary_normalize]. unfold binary_round.
  destruct (shl_align m e _) as [mz ez]. apply binary_round_aux_sign.
Qed.

Lemma fadd_sign_plus (x y : binary32) :
  nan_or_sign false x -> nan_or_sign false y -> nan_or_sign false (fadd x y).
Proof.
  cbn [fadd binary32_scalar].
  destruct x as [sx|sx| |sx mx ex], y as [sy|sy| |sy my ey];
    unfold nan_or_sign; cbn [SFadd sign_bit]; try (intros; exact I);
    intros -> ->; try reflexivity.
  cbn [cond_Zopp Z.add]. apply binary_normalize_pos_sign.
Qed.

Lemma fsqrt_sign_plus (x : binary32) :
  nan_or_sign false x -> nan_or_sign false (fsqrt x).
Proof.
  cbn [fsqrt binary32_scalar].
  destruct x as [sx|sx| |sx mx ex];
    unfold nan_or_sign; cbn [SFsqrt sign_bit]; try (intros; exact I);
    intros ->; try reflexivity.
  destruct (SFsqrt_core_binary 24 128 (Zpos mx) ex) as [[mz ez] lz].
  apply binary_round_aux_sign.
Qed.

Lemma fmul_square_sign (x : binary32) : nan_or_sign false (fmul x x).
Proof.
  destruct (sign_bit x) as [s|] eqn:Hs.
  - rewrite <- (xorb_nilpotent s). apply fmul_sign; unfold nan_or_sign; rewrite Hs; reflexivity.
  - destruct x; try discriminate. exact I.
Qed.

Lemma nan_or_sign_some (x : binary32) : exists s, nan_or_sign s x.
Proof.
  unfold nan_or_sign. destruct (sign_bit x) as [s|]; [exists s | exists false]; auto.
Qed.

Lemma force_distance_sign (g : globals binary32) (node : quad_node_t binary32)
  (p : point_t binary32) :
  nan_or_sign false (force_distance g node p).
Proof.
  unfold force_distance. apply fsqrt_sign_plus.
  repeat apply fadd_sign_plus; apply fmul_square_sign.
Qed.

Lemma force_denominator_sign (g : globals binary32) (node : quad_node_t binary32)
  (p : point_t binary32) :
  nan_or_sign false (force_denominator g node p).
Proof.
  unfold force_denominator. apply fadd_sign_plus; apply fmul_square_sign.
Qed.

(** One component of the increment of the velocity. *)
Lemma increment_sign (g : globals binary32) (node : quad_node_t binary32)
  (p : point_t binary32) (d : binary32) (s : bool) :
  nan_or_sign false (GRAVITY_CONSTANT g) ->
  nan_or_sign false (TIME_STEP g) ->
  nan_or_sign false (total_mass node) ->
  nan_or_sign s d ->
  nan_or_sign s
    (fmul (fdiv (fmul (fdiv d (force_distance g node p))
                      (fdiv (fmul (fmul (GRAVITY_CONSTANT g) (total_mass node)) (mass p))
                            (force_denominator g node p)))
                (mass p))
          (TIME_STEP g)).
Proof.
  intros HG HT HM Hd.
  destruct (nan_or_sign_some (mass p)) as (sm & Hm).
  replace s with (xorb (xorb (xorb (xorb s false)
                                   (xorb (xorb (xorb false false) sm) false)) sm) false)
    by (destruct s, sm; reflexivity).
  apply fmul_sign; [|exact HT].
  apply fdiv_sign; [|exact Hm].
  apply fmul_sign.
  - apply fdiv_sign; [exact Hd | apply force_distance_sign].
  - apply fdiv_sign; [|apply force_denominator_sign].
    apply fmul_sign; [|exact Hm]. apply fmul_sign; assumption.
Qed.

(** A value without a minus sign is not below a threshold that is at
    most zero. *)
Lemma fltb_plus_nonpositive (x theta : binary32) :
  nan_or_sign false x -> fleb theta fzero = true -> fltb x theta = false.
Proof.
  destruct x as [sx|sx| |sx mx ex]; unfold nan_or_sign; cbn [sign_bit];
    try (intros _ _; destruct theta; reflexivity);
    intros ->; destruct theta as [st|st| |st mt et]; try discriminate;
    try reflexivity; destruct st; try discriminate; reflexivity.
Qed.

Lemma force_ratio_sign (g : globals binary32) (node : quad_node_t binary32)
  (p : point_t binary32) :
  nan_or_sign false (rect_width (boundary node)) ->
  nan_or_sign false (force_ratio g node p).
Proof.
  intro Hw. unfold force_ratio.
  change false with (xorb false false).
  apply fdiv_sign; [exact Hw | apply force_distance_sign].
Qed.

(** *** Zeros *)

Lemma fmul_zero_or_nan_r (x z : binary32) :
  zero_or_nan z = true -> zero_or_nan (fmul x z) = true.
Proof.
  destruct z as [sz|sz| |sz mz ez]; try discriminate; intros _;
    destruct x; reflexivity.
Qed.

Lemma fdiv_zero_or_nan_l (z y : binary32) :
  zero_or_nan z = true -> zero_or_nan (fdiv z y) = true.
Proof.
  destruct z as [sz|sz| |sz mz ez]; try discriminate; intros _;
    destruct y; reflexivity.
Qed.

Lemma fdiv_zero_by_zero (z m : binary32) :
  zero_or_nan z = true -> feqb m fzero = true -> fdiv z m = S754_nan.
Proof.
  destruct z as [sz|sz| |sz mz ez]; try discriminate; intros _;
    destruct m as [sm|sm| |sm mm em]; try reflexivity;
    try (destruct sm; discriminate); discriminate.
Qed.

Lemma feqb_zero_or_nan (m : binary32) : feqb m fzero = true -> zero_or_nan m = true.
Proof.
  destruct m as [sm|sm| |sm mm em]; try reflexivity;
    try (destruct sm; discriminate); discriminate.
Qed.

Lemma fmul_nan_l (x : binary32) : fmul S754_nan x = S754_nan.
Proof. reflexivity. Qed.

Lemma fadd_nan_r (x : binary32) : fadd x S754_nan = S754_nan.
Proof. destruct x; reflexivity. Qed.

(** One component of the velocity of a body of mass zero after
    [apply_force]. *)
Lemma massless_component (v d dist GM den dt m : binary32) :
  feqb m fzero = true ->
  fadd v (fmul (fdiv (fmul (fdiv d dist) (fdiv (fmul GM m) den)) m) dt) = S754_nan.
Proof.
  intro Hm.
  rewrite (@fdiv_zero_by_zero (fmul (fdiv d dist) (fdiv (fmul GM m) den)) m); [|
    apply fmul_zero_or_nan_r, fdiv_zero_or_nan_l, fmul_zero_or_nan_r, feqb_zero_or_nan, Hm
    | exact Hm].
  rewrite fmul_nan_l. apply fadd_nan_r.
Qed.

(** *** The whole step *)

Lemma root_width_halved_168 :
  feqb (halved 168 (rect_width (root_boundary (F:=binary32)))) fzero = true.
Proof. vm_compute. reflexivity. Qed.

Lemma insert_all_root_terminates (fuel : nat) (ps : list (point_t binary32)) :
  (168 < fuel)%nat ->
  exists t, insert_all fuel (quad_node_init root_boundary) ps = Done t.
Proof.
  intro Hf.
  destruct (@insert_all_terminates_generic _ _ binary32_zero_width_empty
              root_boundary 168 ps root_width_halved_168) as [t Ht].
  exists t.
  apply (@insert_all_more_fuel _ _ 169 fuel ps (quad_node_init root_boundary) t);
    [lia | exact Ht].
Qed.

End Single.

(** ** How deep insertion subdivides *)

Section DepthFacts.

Context {F : Type} {SF : Scalar F}.

Hypothesis zero_width_empty :
  forall l w x : F,
    feqb w fzero = true ->
    fgeb x (fmin l (fadd l w)) && fltb x (fmax l (fadd l w)) = false.

Lemma insert_all_depth_bounded (b : FloatRect F) (K : nat) (bodies : list (point_t F)) :
  feqb (halved K (rect_width b)) fzero = true ->
  exists t, insert_all (S K) (quad_node_init b) bodies = Done t
            /\ depth_bounded K (rect_width b) 0 t.
Proof.
  intro HK.
  assert (H : forall n, depth_bounded K (rect_width b) 0 n ->
                        exists t, insert_all (S K) n bodies = Done t
                                  /\ depth_bounded K (rect_width b) 0 t).
  { induction bodies as [|p ps IH]; intros n D.
    - exists n. split; [reflexivity | exact D].
    - destruct (quad_node_insert_terminates zero_width_empty (rect_width b) K 0 n p HK D)
        as (n' & E & D' & _).
      cbn [insert_all]. rewrite E. cbn [bind]. apply IH. exact D'. }
  apply H. simpl. auto.
Qed.

Lemma depth_bounded_height (K : nat) (w0 : F) (n : quad_node_t F) :
  forall k, depth_bounded K w0 k n -> (k + height n <= Nat.max k K)%nat.
Proof.
  induction n as [tm com b pt c0 c1 c2 c3 I0 I1 I2 I3] using quad_node_t_ind.
  intros k D.
  destruct (depth_bounded_cases _ _ _ _ D)
    as [[Hc Hl] | (n0 & n1 & n2 & n3 & Hc & Hl & Hk & D0 & D1 & D2 & D3)];
    cbn [children] in Hc; inv Hc; cbn [height child_holds] in *.
  - lia.
  - specialize (I0 _ D0). specialize (I1 _ D1).
    specialize (I2 _ D2). specialize (I3 _ D3). lia.
Qed.

End DepthFacts.


(** ** The mass of the root *)

(** C1, as far as it holds.  A body outside the boundary of a node
    leaves the node as it is.  For every list of bodies inserted into a
    fresh root, after [quad_node_compute_mass] the mass of the root is
    the sum of the masses of the bodies that the tree stores, added in
    the arithmetic of the program along the tree (four children at a
    time, from zero), and every stored body is one of the inserted
    bodies that lie inside the boundary of the root: no body outside
    contributes.  This holds in every arithmetic, single precision
    included.  In single precision, on a root of finite width, the
    insertions and the aggregation always return. *)
Theorem root_mass_counts_stored_bodies :
  (forall (F : Type) (SF : Scalar F) (fuel : nat) (n : quad_node_t F) (p : point_t F),
      rect_contains (boundary n) (position p) = false ->
      quad_node_insert (S fuel) n p = Done n)
  /\ (forall (F : Type) (SF : Scalar F) (fuel : nat) (b : FloatRect F)
             (bodies : list (point_t F)) (t t' : quad_node_t F),
         insert_all fuel (quad_node_init b) bodies = Done t ->
         quad_node_compute_mass t = Some t' ->
         total_mass t' = stored_mass t
         /\ forall q, In q (stored t) -> In q (inside b bodies))
  /\ (forall (b : FloatRect binary32) (bodies : list (point_t binary32)),
         is_finite32 (rect_width b) = true ->
         exists K,
           forall fuel, (K < fuel)%nat ->
             exists t t',
               insert_all fuel (quad_node_init b) bodies = Done t
               /\ quad_node_compute_mass t = Some t').
Proof.
  split; [|split].
  - intros F SF fuel n p Hout. apply quad_node_insert_outside. exact Hout.
  - intros F SF fuel b bodies t t' Hb Hm. split.
    + apply (quad_node_compute_mass_stored_mass t); [|exact Hm].
      apply (insert_all_blank fuel bodies (quad_node_init b)); [apply blank_init | exact Hb].
    + intros q Hq.
      destruct (insert_all_stored fuel bodies (quad_node_init b) Hb q Hq) as [[]|[Hin Hc]].
      unfold inside. apply filter_In. auto.
  - intros b bodies Hf.
    destruct (halving_reaches_zero (rect_width b) Hf) as [K HK].
    destruct (@insert_all_terminates_generic _ _ binary32_zero_width_empty b K bodies HK)
      as [t Ht].
    exists K. intros fuel Hfuel.
    assert (Hb : insert_all fuel (quad_node_init b) bodies = Done t)
      by (apply (@insert_all_more_fuel _ _ (S K) fuel bodies (quad_node_init b) t);
          [lia | exact Ht]).
    assert (C : complete t = true).
    { apply well_formed_complete.
      apply insert_all_well_formed in Hb; [tauto | apply well_formed_init]. }
    destruct (quad_node_compute_mass_total t C) as (t' & Hm).
    exists t, t'. auto.
Qed.

(** Against C1 as stated, in single precision on the root of
    [sim_thread].  Two bodies of mass 1 at the distinct places
    (65708, 0) and (65704, 0), both inside the root: the cell of width
    320000 / 2^16 that holds the first contains it, none of the four
    quadrants of that cell does, so the first body is lost when the
    second arrives and the mass of the root is 1, not 2.  Two bodies at
    one place are both lost.  Masses 2^24, 1 and 1 at three places add
    up to 2^24. *)
Lemma mass_not_conserved_binary32 :
  (inside root_boundary edge_bodies = edge_bodies
   /\ vec_eqb (position (sample_body 1 65708 0)) (position (sample_body 1 65704 0)) = false
   /\ exists t t',
       insert_all 200 sample_root edge_bodies = Done t
       /\ quad_node_compute_mass t = Some t'
       /\ stored t = [sample_body 1 65704 0]
       /\ total_mass t' = of_Z 1
       /\ sum_of_masses (inside root_boundary edge_bodies) = of_Z 2
       /\ feqb (total_mass t') (sum_of_masses (inside root_boundary edge_bodies)) = false)
  /\ (inside root_boundary coincident_bodies = coincident_bodies
      /\ exists t t',
          insert_all 200 sample_root coincident_bodies = Done t
          /\ quad_node_compute_mass t = Some t'
          /\ total_mass t' = of_Z 0
          /\ sum_of_masses (inside root_boundary coincident_bodies) = of_Z 2)
  /\ (inside root_boundary uneven_bodies = uneven_bodies
      /\ exists t t',
          insert_all 200 sample_root uneven_bodies = Done t
          /\ quad_node_compute_mass t = Some t'
          /\ total_mass t' = of_Z 16777216
          /\ sum_of_masses (inside root_boundary uneven_bodies) = of_Z 16777218).
Proof.
  split; [|split].
  - split; [vm_compute; reflexivity|]. split; [vm_compute; reflexivity|].
    eexists; eexists.
    split; [vm_compute; reflexivity|].
    split; [vm_compute; reflexivity|].
    repeat split; vm_compute; reflexivity.
  - split; [vm_compute; reflexivity|].
    eexists; eexists.
    split; [vm_compute; reflexivity|].
    split; [vm_compute; reflexivity|].
    split; vm_compute; reflexivity.
  - split; [vm_compute; reflexivity|].
    eexists; eexists.
    split; [vm_compute; reflexivity|].
    split; [vm_compute; reflexivity|].
    split; vm_compute; reflexivity.
Qed.

(** A body outside the root of [sim_thread] leaves it as it is; with
    that body and the two bodies above, the mass of the root is the
    mass of the one body the tree still stores. *)
Lemma root_mass_counts_stored_bodies_witness :
  quad_node_insert 1 sample_root far_body = Done sample_root
  /\ (exists t t',
        insert_all 20 sample_root (far_body :: edge_bodies) = Done t
        /\ quad_node_compute_mass t = Some t'
        /\ stored t = [sample_body 1 65704 0]
        /\ total_mass t' = stored_mass t
        /\ forall q, In q (stored t) -> In q (inside root_boundary (far_body :: edge_bodies)))
  /\ exists K,
       forall fuel, (K < fuel)%nat ->
         exists t t',
           insert_all fuel (quad_node_init root_boundary) coincident_bodies = Done t
           /\ quad_node_compute_mass t = Some t'.
Proof.
  split; [|split].
  - apply (proj1 root_mass_counts_stored_bodies). vm_compute. reflexivity.
  - destruct (insert_all 20 sample_root (far_body :: edge_bodies)) as [t| |] eqn:Eb;
      try (vm_compute in Eb; discriminate).
    destruct (quad_node_compute_mass t) as [t'|] eqn:Em.
    2:{ vm_compute in Eb. inv Eb. vm_compute in Em. discriminate. }
    exists t, t'. split; [reflexivity|]. split; [exact Em|]. split.
    + vm_compute in Eb. inv Eb. reflexivity.
    + exact (proj1 (proj2 root_mass_counts_stored_bodies) binary32 _ 20%nat root_boundary
               (far_body :: edge_bodies) t t' Eb Em).
  - apply (proj2 (proj2 root_mass_counts_stored_bodies)). vm_compute. reflexivity.
Defined.

(** * Further properties of the program *)

(** ** The tree *)

(** After the bodies have been inserted into a fresh root, every body
    that a node holds lies inside the boundary of that node, as
    [rect_contains] tests it.  This holds in every arithmetic. *)
Theorem stored_bodies_lie_in_their_node
  {F : Type} {SF : Scalar F} (fuel : nat) (b : FloatRect F)
  (bodies : list (point_t F)) (t : quad_node_t F) :
  insert_all fuel (quad_node_init b) bodies = Done t ->
  forall n, In n (nodes t) ->
  forall q, In q (occupants n) -> rect_contains (boundary n) (position q) = true.
Proof.
  intro H. apply contained_nodes.
  apply (insert_all_contained fuel bodies (quad_node_init b)); [apply contained_init | exact H].
Qed.

Lemma stored_bodies_lie_in_their_node_witness :
  exists t : quad_node_t binary32,
    insert_all 20 sample_root sample_bodies = Done t
    /\ length (stored t) = 3%nat
    /\ forall n, In n (nodes t) ->
       forall q, In q (occupants n) -> rect_contains (boundary n) (position q) = true.
Proof.
  destruct (insert_all 20 sample_root sample_bodies) as [t| |] eqn:E;
    try (vm_compute in E; discriminate).
  exists t. split; [reflexivity|]. split.
  - vm_compute in E. inv E. reflexivity.
  - exact (stored_bodies_lie_in_their_node 20 root_boundary sample_bodies E).
Defined.

(** Insertion invents nothing and keeps nothing from outside: every
    body stored in the tree built from a fresh root is one of the
    bodies inserted, and it lies inside the boundary of the root. *)
Theorem stored_bodies_come_from_input
  {F : Type} {SF : Scalar F} (fuel : nat) (b : FloatRect F)
  (bodies : list (point_t F)) (t : quad_node_t F) :
  insert_all fuel (quad_node_init b) bodies = Done t ->
  forall q, In q (stored t) ->
            In q bodies /\ rect_contains b (position q) = true.
Proof.
  intros H q Hq.
  destruct (insert_all_stored fuel bodies (quad_node_init b) H q Hq) as [[]|Hin].
  exact Hin.
Qed.

Lemma stored_bodies_come_from_input_witness :
  exists t : quad_node_t binary32,
    insert_all 20 sample_root (far_body :: sample_bodies) = Done t
    /\ stored t = [sample_body 1 (-10) 0; sample_body 1 10 0; sample_body 3 200 300]
    /\ forall q, In q (stored t) ->
                 In q (far_body :: sample_bodies)
                 /\ rect_contains root_boundary (position q) = true.
Proof.
  destruct (insert_all 20 sample_root (far_body :: sample_bodies)) as [t| |] eqn:E;
    try (vm_compute in E; discriminate).
  exists t. split; [reflexivity|]. split.
  - vm_compute in E. inv E. reflexivity.
  - exact (stored_bodies_come_from_input 20 root_boundary (far_body :: sample_bodies) E).
Defined.

(** Bodies that have all left the square of the root feel no force.
    The tree stays the fresh root, and, zero being equal to itself, the
    step moves every body by its old velocity times the time step and
    leaves the velocity as it was. *)
Theorem bodies_outside_root_coast
  {F : Type} {SF : Scalar F} (fuel : nat) (g : globals F) (ps : list (point_t F)) :
  feqb (F:=F) fzero fzero = true ->
  Forall (fun p => rect_contains root_boundary (position p) = false) ps ->
  insert_all (S fuel) (quad_node_init root_boundary) ps
  = Done (quad_node_init root_boundary)
  /\ compute_step (S fuel) g ps = Done (map (coast g) ps).
Proof.
  intros Hz Hout.
  assert (Hi : insert_all (S fuel) (quad_node_init root_boundary) ps
               = Done (quad_node_init root_boundary))
    by (apply insert_all_outside; exact Hout).
  split; [exact Hi|].
  unfold compute_step. rewrite Hi. cbn [bind].
  change (quad_node_compute_mass (quad_node_init (F:=F) root_boundary))
    with (Some (quad_node_init (F:=F) root_boundary)).
  cbn [lift bind].
  rewrite (advance_all_empty_tree g root_boundary ps Hz). reflexivity.
Qed.

Lemma bodies_outside_root_coast_witness :
  insert_all 1 (quad_node_init root_boundary) [far_body; sample_body 2 0 (-160001)]
  = Done (quad_node_init root_boundary)
  /\ compute_step 1 main_globals [far_body; sample_body 2 0 (-160001)]
     = Done (map (coast main_globals) [far_body; sample_body 2 0 (-160001)]).
Proof.
  apply (@bodies_outside_root_coast binary32 _ 0 main_globals).
  - reflexivity.
  - repeat constructor; vm_compute; reflexivity.
Defined.

(** On a tree that insertion built from a fresh root, neither
    [quad_node_compute_mass] nor, on its result,
    [quad_node_compute_force] ever dereferences a null child, whatever
    the constants and the body. *)
Theorem built_tree_traversals_meet_no_null
  {F : Type} {SF : Scalar F} (fuel : nat) (b : FloatRect F)
  (bodies : list (point_t F)) (t : quad_node_t F) :
  insert_all fuel (quad_node_init b) bodies = Done t ->
  exists t',
    quad_node_compute_mass t = Some t'
    /\ forall (g : globals F) (p : point_t F),
         exists p', quad_node_compute_force g t' p = Some p'.
Proof.
  intro H.
  assert (C : complete t = true).
  { apply well_formed_complete.
    apply insert_all_well_formed in H; [tauto | apply well_formed_init]. }
  destruct (quad_node_compute_mass_total t C) as (t' & Ht).
  exists t'. split; [exact Ht|].
  intros g p. apply quad_node_compute_force_total.
  exact (quad_node_compute_mass_complete t C Ht).
Qed.

Lemma built_tree_traversals_meet_no_null_witness :
  exists t : quad_node_t binary32,
    insert_all 20 sample_root sample_bodies = Done t
    /\ exists t',
        quad_node_compute_mass t = Some t'
        /\ forall (g : globals binary32) (p : point_t binary32),
             exists p', quad_node_compute_force g t' p = Some p'.
Proof.
  destruct (insert_all 20 sample_root sample_bodies) as [t| |] eqn:E;
    try (vm_compute in E; discriminate).
  exists t. split; [reflexivity|].
  exact (built_tree_traversals_meet_no_null 20 root_boundary sample_bodies E).
Defined.

(** [quad_node_compute_force] changes nothing of a body but its
    velocity: the mass and the position come back as they went in, on
    every tree and for every setting of the constants. *)
Theorem force_traversal_changes_only_velocity
  {F : Type} {SF : Scalar F} (g : globals F) (node : quad_node_t F) (p p' : point_t F) :
  quad_node_compute_force g node p = Some p' ->
  mass p' = mass p /\ position p' = position p.
Proof.
  intro H. destruct (quad_node_compute_force_position g node p H). auto.
Qed.

Lemma force_traversal_changes_only_velocity_witness :
  exists p',
    quad_node_compute_force main_globals sample_aggregated (sample_body 1 (-10) 0) = Some p'
    /\ velocity p' <> velocity (sample_body 1 (-10) 0)
    /\ mass p' = mass (sample_body 1 (-10) 0)
    /\ position p' = position (sample_body 1 (-10) 0).
Proof.
  destruct (quad_node_compute_force main_globals sample_aggregated (sample_body 1 (-10) 0))
    as [p'|] eqn:E; [|vm_compute in E; discriminate].
  exists p'. split; [reflexivity|]. split.
  - vm_compute in E. inv E. vm_compute. discriminate.
  - exact (force_traversal_changes_only_velocity main_globals sample_aggregated
             (sample_body 1 (-10) 0) E).
Defined.

(** ** Aggregation *)

(** Running [quad_node_compute_mass] a second time changes nothing. *)
Theorem aggregation_is_idempotent
  {F : Type} {SF : Scalar F} (n n' : quad_node_t F) :
  quad_node_compute_mass n = Some n' -> quad_node_compute_mass n' = Some n'.
Proof.
  revert n'.
  induction n as [tm com b pt c0 c1 c2 c3 I0 I1 I2 I3] using quad_node_t_ind.
  intros n' H.
  destruct (quad_node_compute_mass_cases _ H)
    as [[Hc ->] | (n0 & n1 & n2 & n3 & m0 & m1 & m2 & m3 & Hc & E0 & E1 & E2 & E3 & ->)];
    cbn [children] in Hc; inv Hc.
  - cbn [point boundary]. destruct pt; reflexivity.
  - cbn [child_holds] in *.
    cbn [quad_node_compute_mass forallb is_null andb].
    rewrite (I0 _ E0), (I1 _ E1), (I2 _ E2), (I3 _ E3). reflexivity.
Qed.

Lemma aggregation_is_idempotent_witness :
  exists t : quad_node_t binary32,
    sample_tree = Some t /\ total_mass t = of_Z 5
    /\ quad_node_compute_mass t = Some t.
Proof.
  destruct (insert_all 20 sample_root sample_bodies) as [built| |] eqn:Eb;
    try (vm_compute in Eb; discriminate).
  destruct (quad_node_compute_mass built) as [t|] eqn:Em.
  2:{ vm_compute in Eb. inv Eb. vm_compute in Em. discriminate. }
  exists t. split; [|split].
  - unfold sample_tree. rewrite Eb. exact Em.
  - vm_compute in Eb. inv Eb. vm_compute in Em. inv Em. reflexivity.
  - exact (aggregation_is_idempotent built Em).
Defined.

(** [quad_node_compute_mass] writes the two aggregates and nothing
    else: node by node the boundaries and the occupants are as before,
    and so are the stored bodies. *)
Theorem aggregation_keeps_structure
  {F : Type} {SF : Scalar F} (n n' : quad_node_t F) :
  quad_node_compute_mass n = Some n' ->
  map (@boundary F) (nodes n') = map (@boundary F) (nodes n)
  /\ map (@point F) (nodes n') = map (@point F) (nodes n)
  /\ stored n' = stored n.
Proof.
  revert n'.
  induction n as [tm com b pt c0 c1 c2 c3 I0 I1 I2 I3] using quad_node_t_ind.
  intros n' H.
  destruct (quad_node_compute_mass_cases _ H)
    as [[Hc ->] | (n0 & n1 & n2 & n3 & m0 & m1 & m2 & m3 & Hc & E0 & E1 & E2 & E3 & ->)];
    cbn [children] in Hc; inv Hc.
  - cbn [point boundary]. destruct pt; auto.
  - cbn [child_holds] in *.
    destruct (I0 _ E0) as (B0 & P0 & S0), (I1 _ E1) as (B1 & P1 & S1),
             (I2 _ E2) as (B2 & P2 & S2), (I3 _ E3) as (B3 & P3 & S3).
    cbn [nodes stored map boundary point occupants].
    rewrite !map_app, B0, B1, B2, B3, P0, P1, P2, P3, S0, S1, S2, S3. auto.
Qed.

Lemma aggregation_keeps_structure_witness :
  exists built t : quad_node_t binary32,
    insert_all 20 sample_root sample_bodies = Done built
    /\ quad_node_compute_mass built = Some t
    /\ t <> built
    /\ map (@boundary binary32) (nodes t) = map (@boundary binary32) (nodes built)
    /\ map (@point binary32) (nodes t) = map (@point binary32) (nodes built)
    /\ stored t = stored built.
Proof.
  destruct (insert_all 20 sample_root sample_bodies) as [built| |] eqn:Eb;
    try (vm_compute in Eb; discriminate).
  destruct (quad_node_compute_mass built) as [t|] eqn:Em.
  2:{ vm_compute in Eb. inv Eb. vm_compute in Em. discriminate. }
  exists built, t. split; [reflexivity|]. split; [exact Em|]. split.
  - vm_compute in Eb. inv Eb. vm_compute in Em. inv Em. discriminate.
  - exact (aggregation_keeps_structure built Em).
Defined.

(** After [quad_node_compute_mass] every node of the tree is
    consistent with what is below it: a leaf that holds a body carries
    the mass and the position of the body; a node with children carries
    the sum of the masses of its four children, added from zero in
    their order, and the sum of their centres of mass weighted by their
    masses, divided by the total when the total is greater than zero. *)
Theorem aggregation_reaches_every_node
  {F : Type} {SF : Scalar F} (n n' : quad_node_t F) :
  quad_node_compute_mass n = Some n' ->
  forall m, In m (nodes n') -> aggregated_node m.
Proof.
  intro H. apply aggregated_nodes.
  exact (quad_node_compute_mass_aggregated n H).
Qed.

Lemma aggregation_reaches_every_node_witness :
  exists built t : quad_node_t binary32,
    insert_all 20 sample_root sample_bodies = Done built
    /\ quad_node_compute_mass built = Some t
    /\ (9 <= length (nodes t))%nat
    /\ forall m, In m (nodes t) -> aggregated_node m.
Proof.
  destruct (insert_all 20 sample_root sample_bodies) as [built| |] eqn:Eb;
    try (vm_compute in Eb; discriminate).
  destruct (quad_node_compute_mass built) as [t|] eqn:Em.
  2:{ vm_compute in Eb. inv Eb. vm_compute in Em. discriminate. }
  exists built, t. split; [reflexivity|]. split; [exact Em|]. split.
  - vm_compute in Eb. inv Eb. vm_compute in Em. inv Em. cbn. lia.
  - exact (aggregation_reaches_every_node built Em).
Defined.

(** For a tree that insertion built from a fresh root, the mass that
    aggregation leaves in the root is the sum of the masses of the
    stored bodies, added in the arithmetic of the program along the
    tree: four children at a time, from zero, empty leaves counting as
    zero. *)
Theorem root_mass_is_stored_mass
  {F : Type} {SF : Scalar F} (fuel : nat) (b : FloatRect F)
  (bodies : list (point_t F)) (t t' : quad_node_t F) :
  insert_all fuel (quad_node_init b) bodies = Done t ->
  quad_node_compute_mass t = Some t' ->
  total_mass t' = stored_mass t.
Proof.
  intros H Hm. apply (quad_node_compute_mass_stored_mass t); [|exact Hm].
  apply (insert_all_blank fuel bodies (quad_node_init b)); [apply blank_init | exact H].
Qed.

Lemma root_mass_is_stored_mass_witness :
  exists built t : quad_node_t binary32,
    insert_all 20 sample_root uneven_bodies = Done built
    /\ quad_node_compute_mass built = Some t
    /\ total_mass t = stored_mass built.
Proof.
  destruct (insert_all 20 sample_root uneven_bodies) as [built| |] eqn:Eb;
    try (vm_compute in Eb; discriminate).
  destruct (quad_node_compute_mass built) as [t|] eqn:Em.
  2:{ vm_compute in Eb. inv Eb. vm_compute in Em. discriminate. }
  exists built, t. split; [reflexivity|]. split; [exact Em|].
  exact (root_mass_is_stored_mass 20 root_boundary uneven_bodies Eb Em).
Defined.

(** ** The step *)

(** One step of the simulation keeps the bodies, their order and their
    masses, and moves every body, inside the root or not, by its new
    velocity times the time step. *)
Theorem step_keeps_masses_and_moves_by_velocity
  {F : Type} {SF : Scalar F} (fuel : nat) (g : globals F) (ps ps' : list (point_t F)) :
  compute_step fuel g ps = Done ps' ->
  Forall2 (advanced g) ps ps'
  /\ length ps' = length ps
  /\ map (@mass F) ps' = map (@mass F) ps.
Proof.
  intro H. apply compute_step_Done in H.
  destruct H as (built & root & _ & _ & Ha).
  apply advance_all_advanced in Ha.
  split; [exact Ha|]. exact (Forall2_advanced_length Ha).
Qed.

Lemma step_keeps_masses_and_moves_by_velocity_witness :
  exists ps',
    compute_step 20 main_globals sample_bodies = Done ps'
    /\ Forall2 (advanced main_globals) sample_bodies ps'
    /\ length ps' = length sample_bodies
    /\ map (@mass binary32) ps' = map (@mass binary32) sample_bodies.
Proof.
  destruct (compute_step 20 main_globals sample_bodies) as [ps'| |] eqn:E;
    try (vm_compute in E; discriminate).
  exists ps'. split; [reflexivity|].
  exact (step_keeps_masses_and_moves_by_velocity 20 main_globals sample_bodies E).
Defined.

(** In single precision a step always completes: with room for more
    than 168 nested calls of [quad_node_insert] on the root of
    [sim_thread], the step returns for every list of bodies, whatever
    their masses, positions and velocities (infinities and NaNs
    included), and for every setting of the constants. *)
Theorem step_always_completes
  (fuel : nat) (g : globals binary32) (ps : list (point_t binary32)) :
  (168 < fuel)%nat ->
  exists ps', compute_step fuel g ps = Done ps'.
Proof.
  intro Hf. destruct (insert_all_root_terminates ps Hf) as (t & Ht).
  exact (compute_step_after_insert fuel g ps Ht).
Qed.

Lemma step_always_completes_witness :
  exists ps',
    compute_step 169 main_globals
      [body_at_origin; body_at_origin; sample_body 1 (-10) 0;
       mk_point S754_nan (mkVector2f S754_nan (S754_infinity true)) vec_zero]
    = Done ps'.
Proof.
  apply step_always_completes. lia.
Defined.

(** In single precision no tree that [sim_thread] builds is more than
    168 levels deep, whatever the bodies: after 168 halvings the width
    of a cell of the root of [sim_thread] is zero and the cell takes no
    body.  So [quad_node_insert], [quad_node_compute_mass] and
    [quad_node_compute_force] never nest more than 169 calls. *)
Theorem tree_height_is_bounded
  (fuel : nat) (ps : list (point_t binary32)) (t : quad_node_t binary32) :
  insert_all fuel (quad_node_init root_boundary) ps = Done t ->
  (height t <= 168)%nat.
Proof.
  intro H.
  destruct (@insert_all_depth_bounded _ _ binary32_zero_width_empty
              root_boundary 168 ps root_width_halved_168) as (t0 & Ht0 & D).
  pose proof (depth_bounded_height _ _ _ _ D) as Hh. cbn [Nat.max Nat.add] in Hh.
  destruct (Nat.le_gt_cases fuel 169) as [Hle|Hgt].
  - pose proof (@insert_all_more_fuel _ _ fuel 169 ps _ _ Hle H) as H'.
    rewrite Ht0 in H'. inv H'. exact Hh.
  - pose proof (@insert_all_more_fuel _ _ 169 fuel ps _ _ (Nat.lt_le_incl _ _ Hgt) Ht0) as H'.
    rewrite H in H'. inv H'. exact Hh.
Qed.

(** The bound is reached: two bodies at the origin drive the
    subdivision to that depth.  Other pairs may stop earlier, as soon as
    no quadrant of a cell contains them. *)
Lemma tree_height_is_bounded_witness :
  exists t : quad_node_t binary32,
    insert_all 169 (quad_node_init root_boundary) coincident_bodies = Done t
    /\ height t = 168%nat
    /\ (height t <= 168)%nat.
Proof.
  destruct (insert_all 169 (quad_node_init root_boundary) coincident_bodies)
    as [t| |] eqn:E; try (vm_compute in E; discriminate).
  exists t. split; [reflexivity|]. split.
  - vm_compute in E. inv E. vm_compute. reflexivity.
  - exact (tree_height_is_bounded 169 coincident_bodies E).
Defined.

(** ** The two threads *)

(** In single precision the simulation thread never gets stuck in a
    round and never faults: with room for more than 168 nested calls of
    [quad_node_insert], any number of rounds, from any state of the
    shared variables, runs to its end. *)
Theorem sim_thread_always_completes
  (fuel : nat) (g : globals binary32) (nows : list Z) (prev : Z)
  (v : thread_view (F:=binary32)) :
  (168 < fuel)%nat ->
  exists t v', sim_thread_steps fuel g nows prev v = Done (t, v').
Proof.
  intro Hf. apply sim_thread_steps_total.
  intro ps. destruct (insert_all_root_terminates ps Hf) as (t & Ht).
  exact (compute_step_after_insert fuel g ps Ht).
Qed.

Lemma sim_thread_always_completes_witness :
  exists t v',
    sim_thread_steps 169 main_globals [5; 9; 12]%Z 2%Z
      (mk_view (mk_shared [] coincident_bodies 0 S754_nan) false true false [])
    = Done (t, v').
Proof.
  apply sim_thread_always_completes. lia.
Defined.

(** Over any run of rounds of the simulation thread, every access it
    makes to the shared snapshots, to the time of the last publication
    and to the interval is made with [points_mutex] held: nine accesses
    for each round, and the mutex is free again at the end. *)
Theorem sim_thread_locks_every_access
  {F : Type} {SF : Scalar F} (fuel : nat) (g : globals F) (nows : list Z)
  (prev t : Z) (v v' : thread_view (F:=F)) :
  sim_thread_steps fuel g nows prev v = Done (t, v') ->
  exists added,
    trace v' = added ++ trace v
    /\ lock_disciplined added = true
    /\ length added = (9 * length nows)%nat
    /\ (nows <> [] -> holds_lock v' = false).
Proof.
  revert prev v t v'.
  induction nows as [|now nows IH]; intros prev v t v' H.
  - inv H. exists []. repeat split; auto. congruence.
  - cbn [sim_thread_steps] in H. apply mbind_Done in H.
    destruct H as (t1 & v1 & H1 & H2).
    apply sim_thread_step_Done in H1.
    destruct H1 as (w & _ & _ & _ & _ & _ & Hh & Ht).
    destruct (IH _ _ _ _ H2) as (added & Ha & Hd & Hl & Hk).
    eexists. rewrite Ha, Ht, app_assoc. split; [reflexivity|].
    split; [|split].
    + unfold lock_disciplined in *. rewrite forallb_app, Hd. reflexivity.
    + rewrite length_app, Hl. cbn [length map]. lia.
    + intros _. destruct nows as [|n ns]; [inv H2; exact Hh | apply Hk; discriminate].
Qed.

Lemma sim_thread_locks_every_access_witness :
  exists t v',
    sim_thread_steps 20 main_globals [5; 9]%Z 2%Z sample_view = Done (t, v')
    /\ exists added,
        trace v' = added ++ trace sample_view
        /\ lock_disciplined added = true
        /\ length added = 18%nat
        /\ (([5; 9]%Z : list Z) <> [] -> holds_lock v' = false).
Proof.
  destruct (sim_thread_steps 20 main_globals [5; 9]%Z 2%Z sample_view)
    as [[t v']| |] eqn:E; try (vm_compute in E; discriminate).
  exists t, v'. split; [reflexivity|].
  exact (sim_thread_locks_every_access 20 main_globals [5; 9]%Z 2%Z sample_view E).
Defined.

(** One frame of the window loop always returns and only reads the
    shared variables: they are the same after it as before.  It leaves
    [update_done] clear; it ends with [do_update] set when a step had
    been completed and as it found it otherwise; and its render copies
    are the two shared snapshots when a step had been completed and
    are untouched otherwise. *)
Theorem consumer_frame_only_reads
  {F : Type} {SF : Scalar F} (do_interpolate : bool) (now : Z)
  (r : render_state (F:=F)) (v : thread_view (F:=F)) :
  exists res v' reads,
    consumer_frame do_interpolate now r v = Done (res, v')
    /\ shared v' = shared v
    /\ trace v' = map (fun x => mk_event (Read x) (holds_lock v)) reads ++ trace v
    /\ holds_lock v' = holds_lock v
    /\ update_done v' = false
    /\ do_update v' = (update_done v || do_update v)
    /\ fst res = (if update_done v
                  then mk_render (points_previous (shared v)) (points_current (shared v))
                  else r).
Proof.
  destruct (consumer_frame_Done do_interpolate now r v) as (reads & E).
  do 2 eexists. exists reads. split; [exact E|]. cbn. auto 10.
Qed.

(** What the consumer shows after a round of the simulation thread:
    its previous render copy is the snapshot the round started from,
    its current one is what the round computed, the operands of
    [alpha] are the time since the publication and the duration of the
    round, permission for the next round is given, and the vertex loop
    reads both copies in range, one vertex for each body. *)
Theorem frame_after_step_shows_step
  {F : Type} {SF : Scalar F} (fuel : nat) (g : globals F) (now prev now' : Z)
  (do_interpolate : bool) (r : render_state (F:=F))
  (v v1 v2 : thread_view (F:=F)) (t : Z)
  (res : render_state (F:=F) * option (F * F)) :
  sim_thread_step fuel g now prev v = Done (t, v1) ->
  consumer_frame do_interpolate now' r v1 = Done (res, v2) ->
  exists working,
    compute_step fuel g (points_current (shared v)) = Done working
    /\ fst res = mk_render (points_current (shared v)) working
    /\ snd res = (if do_interpolate
                  then Some (duration_seconds (now' - now), duration_seconds (now - prev))
                  else None)
    /\ update_done v2 = false /\ do_update v2 = true
    /\ forall alpha,
         exists vs,
           frame_positions (render_previous (fst res)) (render_current (fst res)) alpha
           = Some vs
           /\ length vs = length (points_current (shared v)).
Proof.
  intros Hs Hc.
  apply sim_thread_step_Done in Hs.
  destruct Hs as (w & Hw & _ & Hsh & Hd & _).
  destruct (consumer_frame_Done do_interpolate now' r v1) as (reads & E).
  rewrite E in Hc. inv Hc. rewrite Hd, Hsh.
  cbn [fst snd shared update_done do_update points_previous points_current
         last_sim_update sim_update_interval orb render_previous render_current].
  exists w. split; [exact Hw|]. do 4 (split; [reflexivity|]).
  intro alpha.
  apply compute_step_Done in Hw. destruct Hw as (built & root & _ & _ & Ha).
  apply advance_all_advanced in Ha.
  destruct (Forall2_advanced_length Ha) as [Hl _].
  destruct (frame_positions_Some alpha w (points_current (shared v))) as (vs & Hv & Hlen);
    [lia|].
  exists vs. split; [exact Hv | congruence].
Qed.

Lemma frame_after_step_shows_step_witness :
  exists t v1 res v2,
    sim_thread_step 20 main_globals 5%Z 2%Z sample_view = Done (t, v1)
    /\ consumer_frame true 6%Z (mk_render [] []) v1 = Done (res, v2)
    /\ exists working,
        compute_step 20 main_globals (points_current (shared sample_view)) = Done working
        /\ fst res = mk_render (points_current (shared sample_view)) working
        /\ snd res = Some (duration_seconds (6 - 5), duration_seconds (5 - 2))
        /\ update_done v2 = false /\ do_update v2 = true
        /\ forall alpha,
             exists vs,
               frame_positions (render_previous (fst res)) (render_current (fst res)) alpha
               = Some vs
               /\ length vs = length (points_current (shared sample_view)).
Proof.
  destruct (sim_thread_step 20 main_globals 5%Z 2%Z sample_view)
    as [[t v1]| |] eqn:E; try (vm_compute in E; discriminate).
  destruct (consumer_frame true 6%Z (mk_render [] []) v1) as [[res v2]| |] eqn:Ec.
  2,3: destruct (consumer_frame_Done true 6%Z (mk_render [] []) v1) as (reads & Er);
       rewrite Er in Ec; discriminate.
  exists t, v1, res, v2. split; [reflexivity|]. split; [exact Ec|].
  exact (frame_after_step_shows_step 20 main_globals 5%Z 2%Z 6%Z true
           (mk_render [] []) sample_view E Ec).
Defined.

(** ** What a frame draws *)

(** The vertex loop reads [render_previous] in range exactly when it
    is not shorter than [render_current]; it then appends one vertex
    for every element of [render_current]. *)
Theorem vertex_loop_in_range
  {F : Type} {SF : Scalar F} (previous current : list (point_t F)) (alpha : F) :
  match frame_positions previous current alpha with
  | Some vs => (length current <= length previous)%nat /\ length vs = length current
  | None => (length previous < length current)%nat
  end.
Proof.
  destruct (Nat.le_gt_cases (length current) (length previous)) as [Hle|Hgt].
  - destruct (frame_positions_Some alpha current previous Hle) as (vs & -> & Hl). auto.
  - rewrite (frame_positions_None alpha current previous Hgt). exact Hgt.
Qed.

(** In single precision [alpha] is a NaN, which happens only with
    interpolation on and when the quotient of the elapsed time by the
    interval is a NaN, or else lies between zero and one, both
    included; a quotient that lies between zero and one is taken as it
    is. *)
Theorem alpha_is_a_fraction_or_nan (do_interpolate : bool) (elapsed interval : binary32) :
  (is_nan (frame_alpha do_interpolate elapsed interval) = true
   /\ do_interpolate = true /\ is_nan (fdiv elapsed interval) = true)
  \/ (is_nan (frame_alpha do_interpolate elapsed interval) = false
      /\ fleb fzero (frame_alpha do_interpolate elapsed interval) = true
      /\ fleb (frame_alpha do_interpolate elapsed interval) (of_Z 1) = true
      /\ (do_interpolate = true ->
          fleb fzero (fdiv elapsed interval) = true ->
          fleb (fdiv elapsed interval) (of_Z 1) = true ->
          frame_alpha do_interpolate elapsed interval = fdiv elapsed interval)).
Proof.
  unfold frame_alpha. destruct do_interpolate.
  - destruct (clamp_unit (fdiv elapsed interval)) as [[Hn Hc]|(Hn & H0 & H1 & Hid)].
    + left. auto.
    + right. split; [|auto].
      destruct (clamp (fdiv elapsed interval) fzero (of_Z 1)); try reflexivity.
      discriminate H0.
  - right. split; [reflexivity|]. split; [reflexivity|]. split; [reflexivity|].
    discriminate.
Qed.

(** With interpolation off, as [main] starts, a frame draws every body
    where the previous snapshot has it, not where the current one has
    it: in single precision, when the two positions differ by finite
    amounts, the drawn position compares equal to the previous one. *)
Theorem no_interpolation_draws_previous
  (prev curr : Vector2f binary32) (elapsed interval : binary32) :
  finite_or_zero (fsub (vec_x curr) (vec_x prev)) = true ->
  finite_or_zero (fsub (vec_y curr) (vec_y prev)) = true ->
  vec_eqb (interp_pos prev curr (frame_alpha false elapsed interval)) prev = true.
Proof.
  intros Hx Hy. unfold frame_alpha, interp_pos, vec_eqb.
  cbn [vec_add vec_scale vec_sub vec_x vec_y].
  rewrite (fadd_zero_feqb (vec_x prev) (fmul (fsub (vec_x curr) (vec_x prev)) fzero)
             (fsub_finite_not_nan _ _ Hx) (fmul_zero_feqb _ Hx)).
  rewrite (fadd_zero_feqb (vec_y prev) (fmul (fsub (vec_y curr) (vec_y prev)) fzero)
             (fsub_finite_not_nan _ _ Hy) (fmul_zero_feqb _ Hy)).
  reflexivity.
Qed.

Lemma no_interpolation_draws_previous_witness :
  vec_eqb (interp_pos (position (sample_body 1 (-10) 0)) (position (sample_body 1 10 7))
                      (frame_alpha false (of_Z 3) (of_Z 4)))
          (position (sample_body 1 (-10) 0)) = true
  /\ vec_eqb (position (sample_body 1 10 7)) (position (sample_body 1 (-10) 0)) = false.
Proof.
  split.
  - apply no_interpolation_draws_previous; vm_compute; reflexivity.
  - vm_compute. reflexivity.
Defined.

(** ** The force *)

(** Gravity never repels.  In single precision, when the gravitational
    constant, the time step and the mass of the node carry no minus
    sign, each component of what [quad_node_compute_force] adds to the
    velocity of a body is a NaN or has the sign of the same component
    of the direction from the body to the centre of mass of the node,
    whatever the sign of the mass of the body itself. *)
Theorem gravity_never_repels
  (g : globals binary32) (node : quad_node_t binary32) (p : point_t binary32) :
  nan_or_sign false (GRAVITY_CONSTANT g) ->
  nan_or_sign false (TIME_STEP g) ->
  nan_or_sign false (total_mass node) ->
  velocity (apply_force g node p) = vec_add (velocity p) (force_increment g node p)
  /\ (forall s, nan_or_sign s (vec_x (force_direction node p)) ->
                nan_or_sign s (vec_x (force_increment g node p)))
  /\ (forall s, nan_or_sign s (vec_y (force_direction node p)) ->
                nan_or_sign s (vec_y (force_increment g node p))).
Proof.
  intros HG HT HM. split; [reflexivity|].
  split; intros s Hs; apply increment_sign; assumption.
Qed.

Lemma gravity_never_repels_witness :
  velocity (apply_force main_globals sample_aggregated (sample_body (-1) (-10) 0))
  = vec_add (velocity (sample_body (-1) (-10) 0))
            (force_increment main_globals sample_aggregated (sample_body (-1) (-10) 0))
  /\ (forall s,
        nan_or_sign s (vec_x (force_direction sample_aggregated (sample_body (-1) (-10) 0))) ->
        nan_or_sign s (vec_x (force_increment main_globals sample_aggregated
                                              (sample_body (-1) (-10) 0))))
  /\ (forall s,
        nan_or_sign s (vec_y (force_direction sample_aggregated (sample_body (-1) (-10) 0))) ->
        nan_or_sign s (vec_y (force_increment main_globals sample_aggregated
                                              (sample_body (-1) (-10) 0)))).
Proof.
  apply gravity_never_repels; vm_compute; reflexivity.
Defined.

(** A threshold of zero or less switches the approximation off: in
    single precision, on a node whose width carries no minus sign, the
    test "leaf or ratio < THETA" succeeds on leaves only, so a node with
    children is never taken as one point mass. *)
Theorem nonpositive_theta_never_approximates
  (g : globals binary32) (node : quad_node_t binary32) (p : point_t binary32) :
  nan_or_sign false (rect_width (boundary node)) ->
  fleb (THETA g) fzero = true ->
  force_accepted g node p = quad_node_is_leaf node.
Proof.
  intros Hw Ht. unfold force_accepted.
  rewrite (fltb_plus_nonpositive (force_ratio g node p) (THETA g)
             (force_ratio_sign g node p Hw) Ht).
  apply orb_false_r.
Qed.

Lemma nonpositive_theta_never_approximates_witness :
  force_accepted (set_theta main_globals fzero) sample_aggregated (sample_body 1 (-10) 0)
  = quad_node_is_leaf sample_aggregated
  /\ force_accepted (set_theta main_globals (of_Z 1000000)) sample_aggregated
                    (sample_body 1 (-10) 0)
     <> quad_node_is_leaf sample_aggregated.
Proof.
  split.
  - apply nonpositive_theta_never_approximates; vm_compute; reflexivity.
  - vm_compute. discriminate.
Defined.

(** A body of mass zero does not survive the first force applied to
    it: in single precision, when the node is not skipped and is taken
    as a point mass, [quad_node_compute_force] returns the body with
    both components of its velocity NaN, whatever the node, the
    constants and the velocity before (the acceleration is computed as
    a force divided by the mass, here zero by zero). *)
Theorem massless_body_gets_nan_velocity
  (g : globals binary32) (node : quad_node_t binary32) (p : point_t binary32) :
  feqb (mass p) fzero = true ->
  force_skipped node p = false ->
  force_accepted g node p = true ->
  quad_node_compute_force g node p
  = Some (mk_point (mass p) (position p) (mkVector2f S754_nan S754_nan)).
Proof.
  intros Hm Hs Ha.
  destruct node as [tm com b pt c0 c1 c2 c3].
  cbn [quad_node_compute_force]. rewrite Hs, Ha.
  unfold apply_force, vec_add, vec_scale, vec_div. cbn [vec_x vec_y].
  rewrite !(@massless_component _ _ _ _ _ _ _ Hm). reflexivity.
Qed.

Lemma massless_body_gets_nan_velocity_witness :
  quad_node_compute_force main_globals
    (QuadNode (of_Z 1) (mkVector2f (of_Z 1) (of_Z 1)) root_boundary
              (Some body_at_one_one) None None None None)
    (sample_body 0 0 0)
  = Some (mk_point (mass (sample_body 0 0 0)) (position (sample_body 0 0 0))
                   (mkVector2f S754_nan S754_nan)).
Proof.
  apply massless_body_gets_nan_velocity; vm_compute; reflexivity.
Defined.
